(** * getopt: command-line option parsing

    A shallow embedding of [getopt.go]: the four option descriptors, the
    registry (two maps onto shared descriptors), the coercion helpers and
    [ParseArgv], followed by the properties of the parser.

    Go strings are byte sequences: they are modelled by [string], whose
    characters ([ascii]) are 8-bit bytes.  Descriptors live behind pointers
    in Go; here they live in a heap (a list indexed by handles) and the two
    lookup maps hold handles, so that both maps and the caller observe the
    same descriptor. *)

From Stdlib Require Import ZArith Ascii String List Bool Lia.
From stdpp Require Import base option list gmap strings.

Local Open Scope string_scope.
Local Open Scope Z_scope.

(** ** Option descriptors *)

Record Flag := mkFlag {
  Flag_Long : string;
  Flag_Help : string;
  Flag_Short : ascii;
  Flag_Passed : bool
}.

Record OptArg := mkOptArg {
  OptArg_Long : string;
  OptArg_Help : string;
  OptArg_Short : ascii;
  OptArg_Opt : string
}.

Record OptVec := mkOptVec {
  OptVec_Long : string;
  OptVec_Help : string;
  OptVec_Short : ascii;
  OptVec_OptArgs : list string
}.

(** [Count] is an [int64]: a [Z] kept in range by [wrap64]. *)
Record OptCount := mkOptCount {
  OptCount_Long : string;
  OptCount_Help : string;
  OptCount_Short : ascii;
  OptCount_Count : Z
}.

(** The values stored in the maps ([any] holding one of four pointer types). *)
Inductive Opt :=
| PFlag (f : Flag)
| POptArg (o : OptArg)
| POptVec (v : OptVec)
| POptCount (c : OptCount).

Definition set_Passed (b : bool) (f : Flag) : Flag :=
  mkFlag (Flag_Long f) (Flag_Help f) (Flag_Short f) b.

Definition set_Opt (s : string) (o : OptArg) : OptArg :=
  mkOptArg (OptArg_Long o) (OptArg_Help o) (OptArg_Short o) s.

Definition set_OptArgs (l : list string) (v : OptVec) : OptVec :=
  mkOptVec (OptVec_Long v) (OptVec_Help v) (OptVec_Short v) l.

Definition set_Count (n : Z) (c : OptCount) : OptCount :=
  mkOptCount (OptCount_Long c) (OptCount_Help c) (OptCount_Short c) n.

(** ** Machine integers *)

Definition min_int64 : Z := - 2 ^ 63.
Definition max_int64 : Z := 2 ^ 63 - 1.
Definition min_int32 : Z := - 2 ^ 31.
Definition max_int32 : Z := 2 ^ 31 - 1.

(** Two's complement wrap-around of [int64] arithmetic. *)
Definition wrap64 (z : Z) : Z := (z + 2 ^ 63) mod 2 ^ 64 - 2 ^ 63.

(** ** Package state *)

(** The package-level variables the parser reads and writes. *)
Record Store := mkStore {
  heap : list Opt;
  optByShort : gmap ascii nat;
  optByLong : gmap string nat;
  Rest : list string
}.

Definition set_heap (h : list Opt) (st : Store) : Store :=
  mkStore h (optByShort st) (optByLong st) (Rest st).

Definition set_Rest (r : list string) (st : Store) : Store :=
  mkStore (heap st) (optByShort st) (optByLong st) r.

Definition empty_Store : Store := mkStore [] ∅ ∅ [].

(** Write through a pointer: replace the descriptor behind handle [h]. *)
Definition store_at (h : nat) (o : Opt) (st : Store) : Store :=
  set_heap (<[h := o]> (heap st)) st.

(** Allocate a descriptor and enter it in both maps (the body shared by the
    four constructors); the handle is returned with the new state.  The
    slices [flags], [optArgs], [optVecs] and [optCounts] receive copies that
    nothing reads afterwards; they are left out. *)
Definition register (short : ascii) (long : string) (o : Opt) (st : Store)
  : nat * Store :=
  let h := length (heap st) in
  (h, mkStore (heap st ++ [o])
              (<[short := h]> (optByShort st))
              (<[long := h]> (optByLong st))
              (Rest st)).

Definition NewFlag (short : ascii) (long help : string) (st : Store) :=
  register short long (PFlag (mkFlag long help short false)) st.

Definition NewOptArg (short : ascii) (long help : string) (st : Store) :=
  register short long (POptArg (mkOptArg long help short "")) st.

Definition NewOptVec (short : ascii) (long help : string) (st : Store) :=
  register short long (POptVec (mkOptVec long help short [])) st.

Definition NewOptCount (short : ascii) (long help : string) (st : Store) :=
  register short long (POptCount (mkOptCount long help short 0)) st.

(** ** Errors and outcomes *)

(** The errors [ParseArgv] builds, with the arguments of their format
    strings. *)
Inductive Error :=
| UnrecognizedLong (name : string)
| UnrecognizedShort (c : ascii)
| BooleanParseError
| NumberParseError (literal name : string)
| ExpectingArgument (short : ascii) (long : string)
| HandlerError (e : string).

(** A call returns [nil], returns an error, or panics. *)
Inductive Outcome :=
| Success
| Failure (e : Error)
| Panic (msg : string).

(** ** String helpers ([len], indexing, slicing, [strings.IndexByte]) *)

Definition len (s : string) : nat := String.length s.

(** [s[n:]] *)
Fixpoint slice_from (n : nat) (s : string) : string :=
  match n, s with
  | O, _ => s
  | S n', String _ s' => slice_from n' s'
  | S _, EmptyString => EmptyString
  end.

(** [s[:n]] *)
Fixpoint slice_to (n : nat) (s : string) : string :=
  match n, s with
  | O, _ => EmptyString
  | S n', String c s' => String c (slice_to n' s')
  | S _, EmptyString => EmptyString
  end.

(** [s[n:m]] *)
Definition slice (n m : nat) (s : string) : string :=
  slice_from n (slice_to m s).

(** [strings.IndexByte]: [None] stands for [-1]. *)
Fixpoint IndexByte (s : string) (c : ascii) : option nat :=
  match s with
  | EmptyString => None
  | String a s' =>
      if Ascii.eqb a c then Some O
      else match IndexByte s' c with
           | Some i => Some (S i)
           | None => None
           end
  end.

(** The numeric value of a byte. *)
Definition byte (c : ascii) : Z := Z.of_N (N_of_ascii c).

(** ** Boolean coercion *)

(** ASCII comparison step of [strings.EqualFold]: equal bytes, or an
    upper-case letter and its lower-case form. *)
Definition fold_eq_ascii (sr tr : Z) : bool :=
  if sr =? tr then true
  else
    let lo := Z.min sr tr in
    let hi := Z.max sr tr in
    (65 <=? lo) && (lo <=? 90) && (hi =? lo + 32).

Definition is_s (tr : Z) : bool := (tr =? 115) || (tr =? 83).
Definition is_k (tr : Z) : bool := (tr =? 107) || (tr =? 75).

(** Go's [strings.EqualFold s t] (equality of UTF-8 strings under simple
    Unicode case folding), for a second argument [t] made of ASCII bytes, as
    at every call site of this package.  Besides ASCII letters in either case,
    the folding orbits of ASCII letters hold two more runes: U+017F (bytes
    C5 BF), which folds with [s], and U+212A (bytes E2 84 AA), which folds
    with [k].  Any other non-ASCII rune of [s], well-formed or not, differs
    from an ASCII rune of [t]. *)
Fixpoint EqualFold (s t : string) : bool :=
  match t with
  | EmptyString => match s with EmptyString => true | _ => false end
  | String tr t' =>
      match s with
      | EmptyString => false
      | String sr s' =>
          if byte sr <? 128 then fold_eq_ascii (byte sr) (byte tr) && EqualFold s' t'
          else
            match s' with
            | String b1 s'' =>
                if is_s (byte tr) && (byte sr =? 197) && (byte b1 =? 191)
                then EqualFold s'' t'
                else
                  match s'' with
                  | String b2 s''' =>
                      if is_k (byte tr) && (byte sr =? 226) && (byte b1 =? 132)
                         && (byte b2 =? 170)
                      then EqualFold s''' t'
                      else false
                  | EmptyString => false
                  end
            | EmptyString => false
            end
      end
  end.

(** [optargToBool]: [None] is the error
    "Unable to parse boolean string passed as argument". *)
Definition optargToBool (s : string) : option bool :=
  if EqualFold s "t" then Some true
  else if EqualFold s "f" then Some false
  else if EqualFold s "true" then Some true
  else if EqualFold s "false" then Some false
  else None.

(** ** Integer coercion: Go's [strconv.ParseInt] *)

Inductive NumError := ErrSyntax | ErrRange | ErrBase | ErrBitSize.

Definition maxUint64 : Z := 2 ^ 64 - 1.

(** [lower(c)] of strconv: [c | ('x' - 'X')]. *)
Definition lower (c : Z) : Z := Z.lor c 32.

(** The digit loop of [ParseUint]; [base0] allows underscores, whose
    presence is recorded in [underscores]. *)
Fixpoint parse_digits (s : string) (base : Z) (base0 : bool) (cutoff maxVal : Z)
    (n : Z) (underscores : bool) : Z * bool * option NumError :=
  match s with
  | EmptyString => (n, underscores, None)
  | String ch s' =>
      let c := byte ch in
      if (c =? 95) && base0 then
        parse_digits s' base base0 cutoff maxVal n true
      else
        let d := if (48 <=? c) && (c <=? 57) then Some (c - 48)
                 else if (97 <=? lower c) && (lower c <=? 122)
                      then Some (lower c - 97 + 10)
                      else None in
        match d with
        | None => (0, underscores, Some ErrSyntax)
        | Some d =>
            if base <=? d then (0, underscores, Some ErrSyntax)
            else if cutoff <=? n then (maxVal, underscores, Some ErrRange)
            else
              let n1 := n * base + d in
              if (maxUint64 <? n1) || (maxVal <? n1)
              then (maxVal, underscores, Some ErrRange)
              else parse_digits s' base base0 cutoff maxVal n1 underscores
        end
  end.

(** The scan of [underscoreOK]: [saw] is the class of the last byte seen
    (['^'] start, ['0'] digit, ['_'] underscore, ['!'] other). *)
Fixpoint underscore_scan (s : string) (hex : bool) (saw : ascii) : bool :=
  match s with
  | EmptyString => negb (Ascii.eqb saw "_"%char)
  | String ch s' =>
      let c := byte ch in
      if ((48 <=? c) && (c <=? 57))
         || (hex && (97 <=? lower c) && (lower c <=? 102))
      then underscore_scan s' hex "0"%char
      else if c =? 95 then
        if negb (Ascii.eqb saw "0"%char) then false
        else underscore_scan s' hex "_"%char
      else if Ascii.eqb saw "_"%char then false
      else underscore_scan s' hex "!"%char
  end.

Definition is_base_letter (c : Z) : bool :=
  (lower c =? 98) || (lower c =? 111) || (lower c =? 120).

Definition underscoreOK (s : string) : bool :=
  let s := match s with
           | String c s' =>
               if (byte c =? 45) || (byte c =? 43) then s' else s
           | EmptyString => s
           end in
  match s with
  | String c0 (String c1 s') =>
      if (byte c0 =? 48) && is_base_letter (byte c1)
      then underscore_scan s' (lower (byte c1) =? 120) "0"%char
      else underscore_scan s false "^"%char
  | _ => underscore_scan s false "^"%char
  end.

(** [strconv.ParseUint]. *)
Definition ParseUint (s : string) (base bitSize : Z) : Z * option NumError :=
  match s with
  | EmptyString => (0, Some ErrSyntax)
  | String c0 rest =>
      let base0 := base =? 0 in
      let '(base', digits, ok) :=
        if (2 <=? base) && (base <=? 36) then (base, s, true)
        else if base0 then
          if byte c0 =? 48 then
            match rest with
            | String c1 (String c2 r) =>
                if lower (byte c1) =? 98 then (2, String c2 r, true)
                else if lower (byte c1) =? 111 then (8, String c2 r, true)
                else if lower (byte c1) =? 120 then (16, String c2 r, true)
                else (8, rest, true)
            | _ => (8, rest, true)
            end
          else (10, s, true)
        else (base, s, false) in
      if negb ok then (0, Some ErrBase)
      else if (bitSize <? 0) || (64 <? bitSize) then (0, Some ErrBitSize)
      else
        let bitSize := if bitSize =? 0 then 64 else bitSize in
        let cutoff := maxUint64 / base' + 1 in
        let maxVal := 2 ^ bitSize - 1 in
        let '(n, underscores, err) :=
          parse_digits digits base' base0 cutoff maxVal 0 false in
        match err with
        | Some e => (n, Some e)
        | None =>
            if underscores && negb (underscoreOK s) then (0, Some ErrSyntax)
            else (n, None)
        end
  end.

(** [strconv.ParseInt]. *)
Definition ParseInt (s : string) (base bitSize : Z) : Z * option NumError :=
  match s with
  | EmptyString => (0, Some ErrSyntax)
  | String c0 rest =>
      let '(neg, s1) :=
        if byte c0 =? 43 then (false, rest)
        else if byte c0 =? 45 then (true, rest)
        else (false, s) in
      let '(un, err) := ParseUint s1 base bitSize in
      match err with
      | Some ErrRange | None =>
          let bitSize := if bitSize =? 0 then 64 else bitSize in
          let cutoff := 2 ^ (bitSize - 1) in
          if negb neg && (cutoff <=? un) then (cutoff - 1, Some ErrRange)
          else if neg && (cutoff <? un) then (- cutoff, Some ErrRange)
          else (if neg then - un else un, None)
      | Some e => (0, Some e)
      end
  end.

(** ** The parser *)

(** The local variables of [ParseArgv], with the package state they act on.
    [waiting_opt] and [waiting_vec] are pointers: [None] is [nil]. *)
Record Locals := mkLocals {
  store : Store;
  expecting_opt : bool;
  expecting_optarg : bool;
  waiting_opt : option nat;
  waiting_vec : option nat
}.

Definition with_store (st : Store) (ls : Locals) : Locals :=
  mkLocals st (expecting_opt ls) (expecting_optarg ls)
           (waiting_opt ls) (waiting_vec ls).

Definition initial_Locals (st : Store) : Locals :=
  mkLocals st false false None None.

(** What one iteration of the loop over [argv] does: go on with the next
    token, or leave the function. *)
Inductive Step :=
| Continue (ls : Locals)
| Return (r : Outcome) (st : Store).

Definition append_Rest (arg : string) (st : Store) : Store :=
  set_Rest (Rest st ++ [arg]) st.

(** The type switch on a found option for ["-c"] (lines 271-288) and for a
    long option without ['='] (lines 316-333). *)
Definition bare_switch (h : nat) (ls : Locals) : Step :=
  let st := store ls in
  match heap st !! h with
  | Some (PFlag f) =>
      Continue (with_store (store_at h (PFlag (set_Passed true f)) st) ls)
  | Some (POptArg _) =>
      Continue (mkLocals st true true (Some h) (waiting_vec ls))
  | Some (POptVec _) =>
      Continue (mkLocals st true false (waiting_opt ls) (Some h))
  | Some (POptCount c) =>
      Continue (with_store
        (store_at h (POptCount (set_Count (wrap64 (OptCount_Count c + 1)) c)) st) ls)
  | None => Return (Panic "Invalid flag type") st
  end.

(** The type switch on a found option for ["+c"] (lines 293-305) and inside
    a ['+'] group (lines 408-423). *)
Definition negate_switch (h : nat) (ls : Locals) : Step :=
  let st := store ls in
  match heap st !! h with
  | Some (PFlag f) =>
      Continue (with_store (store_at h (PFlag (set_Passed false f)) st) ls)
  | Some (POptArg o) =>
      Continue (with_store (store_at h (POptArg (set_Opt "" o)) st) ls)
  | Some (POptVec v) =>
      Continue (with_store (store_at h (POptVec (set_OptArgs [] v)) st) ls)
  | Some (POptCount c) =>
      Continue (with_store
        (store_at h (POptCount (set_Count (wrap64 (OptCount_Count c - 1)) c)) st) ls)
  | None => Return (Panic "Invalid flag type") st
  end.

(** The type switch for a long option with ['='] (lines 339-365): [opt] is
    the text after the sign, [name] the text before it. *)
Definition assign_switch (h : nat) (name opt : string) (ls : Locals) : Step :=
  let st := store ls in
  match heap st !! h with
  | Some (PFlag f) =>
      match optargToBool opt with
      | None => Return (Failure BooleanParseError) st
      | Some val =>
          Continue (with_store (store_at h (PFlag (set_Passed val f)) st) ls)
      end
  | Some (POptArg o) =>
      Continue (with_store (store_at h (POptArg (set_Opt opt o)) st) ls)
  | Some (POptVec v) =>
      Continue (with_store
        (store_at h (POptVec (set_OptArgs (OptVec_OptArgs v ++ [opt]) v)) st) ls)
  | Some (POptCount c) =>
      match ParseInt opt 0 32 with
      | (_, Some _) => Return (Failure (NumberParseError opt name)) st
      | (value, None) =>
          Continue (with_store (store_at h (POptCount (set_Count value c)) st) ls)
      end
  | None => Return (Panic "Invalid flag type") st
  end.

(** The scan of a group of shorts after ['-'] (lines 369-403): [cs] is
    [arg[i:]], so that [rest] is [arg[i+1:]] and is empty exactly when
    [i = len(arg) - 1].  In last position an [OptArg] or [OptVec] sets the
    two flags and nothing else. *)
Fixpoint short_group (cs : string) (ls : Locals) : Step :=
  match cs with
  | EmptyString => Continue ls
  | String c rest =>
      let st := store ls in
      match optByShort st !! c with
      | None => Return (Failure (UnrecognizedShort c)) st
      | Some h =>
          match heap st !! h with
          | Some (PFlag f) =>
              short_group rest
                (with_store (store_at h (PFlag (set_Passed true f)) st) ls)
          | Some (POptArg o) =>
              match rest with
              | String _ _ =>
                  Continue (with_store (store_at h (POptArg (set_Opt rest o)) st) ls)
              | EmptyString =>
                  short_group rest
                    (mkLocals st true true (waiting_opt ls) (waiting_vec ls))
              end
          | Some (POptVec v) =>
              match rest with
              | String _ _ =>
                  Continue (with_store
                    (store_at h
                       (POptVec (set_OptArgs (OptVec_OptArgs v ++ [rest]) v)) st) ls)
              | EmptyString =>
                  short_group rest
                    (mkLocals st true false (waiting_opt ls) (waiting_vec ls))
              end
          | Some (POptCount k) =>
              short_group rest
                (with_store
                   (store_at h
                      (POptCount (set_Count (wrap64 (OptCount_Count k + 1)) k)) st) ls)
          | None => Return (Panic "Invalid flag type") st
          end
      end
  end.

(** The scan of a group of shorts after ['+'] (lines 406-427). *)
Fixpoint negated_group (cs : string) (ls : Locals) : Step :=
  match cs with
  | EmptyString => Continue ls
  | String c rest =>
      match optByShort (store ls) !! c with
      | None => Return (Failure (UnrecognizedShort c)) (store ls)
      | Some h =>
          match negate_switch h ls with
          | Continue ls' => negated_group rest ls'
          | Return r st => Return r st
          end
      end
  end.

Section Parser.

(** The replaceable callback for the argument ["-"]: it may fail and may act
    on the package state. *)
Variable StdinHandler : Store -> option string * Store.

(** One iteration of the loop over [argv] (lines 240-432): [arg] is
    [argv[i]] and [tail] is [argv[i+1:]].  The three shapes of the second
    match are [len(arg) == 1], [len(arg) == 2] and three bytes or more.
    Writing through a nil [waiting_opt] or [waiting_vec] panics. *)
Definition body (arg : string) (tail : list string) (ls : Locals) : Step :=
  let st := store ls in
  match arg with
  | EmptyString => Continue ls
  | String c0 arg1 =>
      if expecting_opt ls then
        if expecting_optarg ls then
          match waiting_opt ls with
          | Some h =>
              match heap st !! h with
              | Some (POptArg o) =>
                  Continue (mkLocals (store_at h (POptArg (set_Opt arg o)) st)
                              false (expecting_optarg ls)
                              (waiting_opt ls) (waiting_vec ls))
              | _ => Return (Panic "invalid memory address or nil pointer dereference") st
              end
          | None => Return (Panic "invalid memory address or nil pointer dereference") st
          end
        else
          match waiting_vec ls with
          | Some h =>
              match heap st !! h with
              | Some (POptVec v) =>
                  Continue (mkLocals
                    (store_at h (POptVec (set_OptArgs (OptVec_OptArgs v ++ [arg]) v)) st)
                    false (expecting_optarg ls)
                    (waiting_opt ls) (waiting_vec ls))
              | _ => Return (Panic "invalid memory address or nil pointer dereference") st
              end
          | None => Return (Panic "invalid memory address or nil pointer dereference") st
          end
      else
        match arg1 with
        | EmptyString =>
            (* len(arg) == 1 *)
            if Ascii.eqb c0 "-"%char then
              match StdinHandler st with
              | (Some e, st') => Return (Failure (HandlerError e)) st'
              | (None, st') => Continue (with_store st' ls)
              end
            else Continue (with_store (append_Rest arg st) ls)
        | String c1 EmptyString =>
            (* len(arg) == 2 *)
            if Ascii.eqb c0 "-"%char then
              if Ascii.eqb c1 "-"%char then
                Return Success (set_Rest (Rest st ++ tail) st)
              else
                match optByShort st !! c1 with
                | Some h => bare_switch h ls
                | None => Continue ls
                end
            else if Ascii.eqb c0 "+"%char then
              match optByShort st !! c1 with
              | Some h => negate_switch h ls
              | None => Continue ls
              end
            else Continue (with_store (append_Rest arg st) ls)
        | String c1 (String _ _) =>
            (* 3 or more bytes *)
            if Ascii.eqb c0 "-"%char then
              if Ascii.eqb c1 "-"%char then
                match IndexByte arg "="%char with
                | None =>
                    match optByLong st !! slice_from 2 arg with
                    | Some h => bare_switch h ls
                    | None => Return (Failure (UnrecognizedLong (slice_from 2 arg))) st
                    end
                | Some equals =>
                    match optByLong st !! slice 2 equals arg with
                    | Some h =>
                        assign_switch h (slice 2 equals arg)
                          (slice_from (equals + 1) arg) ls
                    | None => Continue ls
                    end
                end
              else short_group arg1 ls
            else if Ascii.eqb c0 "+"%char then negated_group arg1 ls
            else Continue (with_store (append_Rest arg st) ls)
        end
  end.

(** The check after the loop (lines 433-442). *)
Definition finish (ls : Locals) : Outcome * Store :=
  let st := store ls in
  if expecting_opt ls then
    if expecting_optarg ls then
      match waiting_opt ls with
      | Some h =>
          match heap st !! h with
          | Some (POptArg o) =>
              (Failure (ExpectingArgument (OptArg_Short o) (OptArg_Long o)), st)
          | _ => (Panic "invalid memory address or nil pointer dereference", st)
          end
      | None => (Panic "invalid memory address or nil pointer dereference", st)
      end
    else
      match waiting_vec ls with
      | Some h =>
          match heap st !! h with
          | Some (POptVec v) =>
              (Failure (ExpectingArgument (OptVec_Short v) (OptVec_Long v)), st)
          | _ => (Panic "invalid memory address or nil pointer dereference", st)
          end
      | None => (Panic "invalid memory address or nil pointer dereference", st)
      end
  else (Success, st).

(** The loop over [argv], from the token at hand to the end. *)
Fixpoint loop (argv : list string) (ls : Locals) : Outcome * Store :=
  match argv with
  | [] => finish ls
  | arg :: tail =>
      match body arg tail ls with
      | Continue ls' => loop tail ls'
      | Return r st => (r, st)
      end
  end.

Definition ParseArgv (argv : list string) (st : Store) : Outcome * Store :=
  loop argv (initial_Locals st).

End Parser.

(** The default [StdinHandler]: [func() error { return nil }]. *)
Definition default_StdinHandler (st : Store) : option string * Store := (None, st).

(** ** Vocabulary of the properties *)

(** The parser awaits a value for the [OptArg] behind handle [h]. *)
Definition awaiting_arg (ls : Locals) (h : nat) (o : OptArg) : Prop :=
  expecting_opt ls = true /\ expecting_optarg ls = true /\
  waiting_opt ls = Some h /\ heap (store ls) !! h = Some (POptArg o).

(** The parser awaits a value for the [OptVec] behind handle [h]. *)
Definition awaiting_vec (ls : Locals) (h : nat) (v : OptVec) : Prop :=
  expecting_opt ls = true /\ expecting_optarg ls = false /\
  waiting_vec ls = Some h /\ heap (store ls) !! h = Some (POptVec v).

(** Descriptor [o] is reachable under short character [x] and long name
    [long]. *)
Definition registered (st : Store) (x : ascii) (long : string) (h : nat) (o : Opt)
  : Prop :=
  optByShort st !! x = Some h /\ optByLong st !! long = Some h /\
  heap st !! h = Some o.

(** The loop over a prefix [pre] of [argv], [after] being the tokens that
    follow it. *)
Fixpoint scan (StdinHandler : Store -> option string * Store)
    (pre after : list string) (ls : Locals) : Step :=
  match pre with
  | [] => Continue ls
  | arg :: tail =>
      match body StdinHandler arg (tail ++ after) ls with
      | Continue ls' => scan StdinHandler tail after ls'
      | Return r st => Return r st
      end
  end.

(** The three ways of giving a value to an option that takes one. *)
Inductive Form := LongEq | LongSep | Attached.

(** The tokens of one occurrence: [--long=V], [--long V] or [-xV]. *)
Definition occurrence (x : ascii) (long : string) (f : Form) (V : string)
  : list string :=
  match f with
  | LongEq => ["--" +:+ long +:+ "=" +:+ V]
  | LongSep => ["--" +:+ long; V]
  | Attached => [String "-" (String x V)]
  end.

(** A long name that its own token reaches: not empty and free of ['=']. *)
Definition usable_long (long : string) : Prop :=
  long <> EmptyString /\ IndexByte long "="%char = None.

(** When a form reaches the descriptor registered under [x] and [long] with
    the value [V]: the name before ['='] is free of ['=']; a separate value
    is not empty and follows a usable long name; an attached value is not
    empty and follows a short character other than ['-']. *)
Definition form_fits (x : ascii) (long : string) (f : Form) (V : string) : Prop :=
  match f with
  | LongEq => IndexByte long "="%char = None
  | LongSep => usable_long long /\ V <> EmptyString
  | Attached => x <> "-"%char /\ V <> EmptyString
  end.

(** Comparison of byte strings that ignores the case of the ASCII letters:
    the reading of "case-insensitive" against which [optargToBool] is
    checked. *)
Definition lower_byte (z : Z) : Z :=
  if (65 <=? z) && (z <=? 90) then z + 32 else z.

Fixpoint eq_nocase (s t : string) : bool :=
  match s, t with
  | EmptyString, EmptyString => true
  | String a s', String b t' =>
      (lower_byte (byte a) =? lower_byte (byte b)) && eq_nocase s' t'
  | _, _ => false
  end.

(** Every byte is below 128. *)
Fixpoint all_ascii (s : string) : bool :=
  match s with
  | EmptyString => true
  | String a s' => (byte a <? 128) && all_ascii s'
  end.

(** Every byte is a lower-case ASCII letter. *)
Fixpoint lower_word (s : string) : bool :=
  match s with
  | EmptyString => true
  | String a s' => (97 <=? byte a) && (byte a <=? 122) && lower_word s'
  end.

(** What one character of a ['-'] group does when it names a Flag or a
    Counter. *)
Definition positive_effect (c : ascii) (st : Store) : Store :=
  match optByShort st !! c with
  | Some h =>
      match heap st !! h with
      | Some (PFlag f) => store_at h (PFlag (set_Passed true f)) st
      | Some (POptCount k) =>
          store_at h (POptCount (set_Count (wrap64 (OptCount_Count k + 1)) k)) st
      | _ => st
      end
  | None => st
  end.

(** What one character of a ['+'] group does. *)
Definition negate_effect (c : ascii) (st : Store) : Store :=
  match optByShort st !! c with
  | Some h =>
      match heap st !! h with
      | Some (PFlag f) => store_at h (PFlag (set_Passed false f)) st
      | Some (POptArg o) => store_at h (POptArg (set_Opt "" o)) st
      | Some (POptVec v) => store_at h (POptVec (set_OptArgs [] v)) st
      | Some (POptCount k) =>
          store_at h (POptCount (set_Count (wrap64 (OptCount_Count k - 1)) k)) st
      | None => st
      end
  | None => st
  end.

(** The effects of the characters of [cs], from left to right. *)
Fixpoint apply_all (eff : ascii -> Store -> Store) (cs : string) (st : Store)
  : Store :=
  match cs with
  | EmptyString => st
  | String c r => apply_all eff r (eff c st)
  end.

(** [c] names a Flag or a Counter. *)
Definition is_flag_or_count (st : Store) (c : ascii) : bool :=
  match optByShort st !! c with
  | Some h =>
      match heap st !! h with
      | Some (PFlag _) | Some (POptCount _) => true
      | _ => false
      end
  | None => false
  end.

(** [c] names a descriptor. *)
Definition is_known (st : Store) (c : ascii) : bool :=
  match optByShort st !! c with
  | Some h => match heap st !! h with Some _ => true | None => false end
  | None => false
  end.

Fixpoint all_chars (p : ascii -> bool) (s : string) : bool :=
  match s with
  | EmptyString => true
  | String c r => p c && all_chars p r
  end.

Definition starts_with_dash (s : string) : bool :=
  match s with
  | String c _ => Ascii.eqb c "-"%char
  | EmptyString => false
  end.

(** Plain decimal literals: every byte is a digit. *)
Fixpoint is_digits (s : string) : bool :=
  match s with
  | EmptyString => true
  | String a s' => (48 <=? byte a) && (byte a <=? 57) && is_digits s'
  end.

(** The number a string of digits denotes, continuing from [acc]. *)
Fixpoint decimal_value (s : string) (acc : Z) : Z :=
  match s with
  | EmptyString => acc
  | String a s' => decimal_value s' (acc * 10 + (byte a - 48))
  end.

(** A decimal literal without sign: digits, the first of them not [0]. *)
Definition is_decimal (s : string) : bool :=
  match s with
  | String a _ => (49 <=? byte a) && is_digits s
  | EmptyString => false
  end.

(** ** Registries used in examples *)

(** What a caller can see of a call: the outcome, the descriptors and
    [Rest]. *)
Definition observe (r : Outcome * Store) : Outcome * list Opt * list string :=
  (fst r, heap (snd r), Rest (snd r)).

(** One registered descriptor of each kind, under the given names. *)
Definition with_flag (x : ascii) (long : string) : Store :=
  snd (NewFlag x long "" empty_Store).

Definition with_arg (x : ascii) (long : string) : Store :=
  snd (NewOptArg x long "" empty_Store).

Definition with_count (x : ascii) (long : string) : Store :=
  snd (NewOptCount x long "" empty_Store).

Definition with_vec (x : ascii) (long : string) : Store :=
  snd (NewOptVec x long "" empty_Store).

(** A flag ['a'] and a single-value option ['f'], as in the tests. *)
Definition about_and_file : Store :=
  snd (NewOptArg "f" "file" "file to read"
         (snd (NewFlag "a" "about" "topic" empty_Store))).

(** A flag ['a'] and a multi-value option ['l']. *)
Definition about_and_list : Store :=
  snd (NewOptVec "l" "list" "files to read"
         (snd (NewFlag "a" "about" "topic" empty_Store))).

(** The flag ['a'] and two single-value options, ['o'] and ['f']. *)
Definition about_out_file : Store :=
  snd (NewOptArg "f" "file" "file to read"
         (snd (NewOptArg "o" "out" "file to write"
                 (snd (NewFlag "a" "about" "topic" empty_Store))))).

(** The caller writes through the handle it holds, as the tests do with
    [g.Passed = true]. *)
Definition preset (h : nat) (o : Opt) (st : Store) : Store := store_at h o st.

(** Two flags, ['a'] and ['b'], as in the tests. *)
Definition about_and_before : Store :=
  snd (NewFlag "b" "before" "date prior"
         (snd (NewFlag "a" "about" "topic" empty_Store))).

(** ** Program metadata and the production entry point *)

(** The package variables [ProgramName], [ProgramVersion] and
    [ProgramDesc]. *)
Record Meta := mkMeta {
  ProgramName : string;
  ProgramVersion : string;
  ProgramDesc : string
}.

(** [GetOpts] (lines 445-453), with [os.Args] as an argument.  [os.Args[0]]
    is read only when [ProgramName] is empty and panics on an empty slice, as
    does [os.Args[1:]]. *)
Definition GetOpts (StdinHandler : Store -> option string * Store)
    (os_Args : list string) (m : Meta) (st : Store) : Outcome * Meta * Store :=
  let named :=
    match ProgramName m with
    | EmptyString =>
        match os_Args with
        | a0 :: _ => Some (mkMeta a0 (ProgramVersion m) (ProgramDesc m))
        | [] => None
        end
    | _ => Some m
    end in
  match named with
  | None => (Panic "index out of range [0] with length 0", m, st)
  | Some m1 =>
      let m2 :=
        match ProgramVersion m1 with
        | EmptyString => mkMeta (ProgramName m1) "0.0.1" (ProgramDesc m1)
        | _ => m1
        end in
      match os_Args with
      | [] => (Panic "slice bounds out of range [1:0]", m2, st)
      | _ :: args =>
          let '(r, st') := ParseArgv StdinHandler args st in (r, m2, st')
      end
  end.

(** ** Vocabulary of the further properties *)

(** A handler that leaves the package state alone, as the default one. *)
Definition quiet (H : Store -> option string * Store) : Prop :=
  forall st, snd (H st) = st.

(** Every handle held by a map points into the heap. *)
Definition handles_valid (st : Store) : Prop :=
  (forall c h, optByShort st !! c = Some h -> is_Some (heap st !! h)) /\
  (forall n h, optByLong st !! n = Some h -> is_Some (heap st !! h)).

(** Two states of one descriptor: the same kind under the same names. *)
Definition same_descriptor (o o' : Opt) : Prop :=
  match o, o' with
  | PFlag f, PFlag f' =>
      Flag_Long f = Flag_Long f' /\ Flag_Help f = Flag_Help f' /\
      Flag_Short f = Flag_Short f'
  | POptArg a, POptArg a' =>
      OptArg_Long a = OptArg_Long a' /\ OptArg_Help a = OptArg_Help a' /\
      OptArg_Short a = OptArg_Short a'
  | POptVec v, POptVec v' =>
      OptVec_Long v = OptVec_Long v' /\ OptVec_Help v = OptVec_Help v' /\
      OptVec_Short v = OptVec_Short v'
  | POptCount c, POptCount c' =>
      OptCount_Long c = OptCount_Long c' /\ OptCount_Help c = OptCount_Help c' /\
      OptCount_Short c = OptCount_Short c'
  | _, _ => False
  end.

(** Two states of one registry: the same maps onto the same descriptors. *)
Definition same_registry (st st' : Store) : Prop :=
  optByShort st' = optByShort st /\ optByLong st' = optByLong st /\
  Forall2 same_descriptor (heap st) (heap st').

(** A token that is neither an option nor ["-"]: one byte other than ['-'],
    or two bytes or more that start with neither ['-'] nor ['+']. *)
Definition is_positional (arg : string) : bool :=
  match arg with
  | EmptyString => false
  | String c EmptyString => negb (Ascii.eqb c "-"%char)
  | String c _ => negb (Ascii.eqb c "-"%char) && negb (Ascii.eqb c "+"%char)
  end.

(** [c] names an option that takes a value. *)
Definition names_value (st : Store) (c : ascii) : bool :=
  match optByShort st !! c with
  | Some h =>
      match heap st !! h with
      | Some (POptArg _) | Some (POptVec _) => true
      | _ => false
      end
  | None => false
  end.

Fixpoint last_byte (c : ascii) (s : string) : ascii :=
  match s with
  | EmptyString => c
  | String c' s' => last_byte c' s'
  end.

(** A group of shorts after ['-'] whose last character names an option that
    takes a value. *)
Definition ends_on_value (st : Store) (arg : string) : bool :=
  match arg with
  | String c0 (String c1 (String c2 r)) =>
      Ascii.eqb c0 "-"%char && negb (Ascii.eqb c1 "-"%char)
      && names_value st (last_byte c2 r)
  | _ => false
  end.

(** The two-byte tokens [-c] (or [+c]) for the characters of [cs]. *)
Fixpoint singles (sigil : ascii) (cs : string) : list string :=
  match cs with
  | EmptyString => []
  | String c r => String sigil (String c EmptyString) :: singles sigil r
  end.

(** No byte of [s] is ['-']. *)
Fixpoint no_dash (s : string) : bool :=
  match s with
  | EmptyString => true
  | String c r => negb (Ascii.eqb c "-"%char) && no_dash r
  end.

(** The four ways of giving a value: the three of [Form] and [-x V]. *)
Inductive Giving :=
| Given (f : Form)
| ShortSep.

Definition giving_tokens (x : ascii) (long : string) (g : Giving) (V : string)
  : list string :=
  match g with
  | Given f => occurrence x long f V
  | ShortSep => [String "-" (String x EmptyString); V]
  end.

Definition giving_fits (x : ascii) (long : string) (g : Giving) (V : string)
  : Prop :=
  match g with
  | Given f => form_fits x long f V
  | ShortSep => x <> "-"%char /\ V <> EmptyString
  end.

(** The tokens of a sequence of occurrences, and the values they give. *)
Definition givings_tokens (x : ascii) (long : string)
    (gs : list (Giving * string)) : list string :=
  concat (map (fun gv => giving_tokens x long (fst gv) (snd gv)) gs).

(** One more or one less for a Counter: [-x], [--long] or [+x]. *)
Inductive Tick := UpShort | UpLong | Down.

Definition tick_token (x : ascii) (long : string) (t : Tick) : string :=
  match t with
  | UpShort => String "-" (String x EmptyString)
  | UpLong => "--" +:+ long
  | Down => String "+" (String x EmptyString)
  end.

Definition tick_value (t : Tick) : Z :=
  match t with
  | UpShort | UpLong => 1
  | Down => -1
  end.

Fixpoint ticks_sum (ts : list Tick) : Z :=
  match ts with
  | [] => 0
  | t :: ts' => tick_value t + ticks_sum ts'
  end.

(** A change that reaches nothing but the values of the descriptors. *)
Definition only_values (st st' : Store) : Prop :=
  same_registry st st' /\ Rest st' = Rest st.

(** A relation between the state before a step and the state it leaves. *)
Definition step_rel (R : Store -> Store -> Prop) (st : Store) (s : Step) : Prop :=
  match s with
  | Continue ls' => R st (store ls')
  | Return _ st' => R st st'
  end.

(** What one iteration can do to the package state: the registry stays, and
    [Rest] stays, or receives the token at hand when the loop goes on, or
    receives the tokens after ["--"] when the call returns. *)
Definition step_effect (arg : string) (tail : list string) (st : Store)
    (s : Step) : Prop :=
  match s with
  | Continue ls' =>
      same_registry st (store ls') /\
      (Rest (store ls') = Rest st \/
       Rest (store ls') = (Rest st ++ [arg])%list /\ is_positional arg = true)
  | Return r st' =>
      same_registry st st' /\
      (Rest st' = Rest st \/
       Rest st' = (Rest st ++ tail)%list /\ arg = "--" /\ r = Success)
  end.

(** In the awaiting state the pointer that will be written through is set
    and points at a descriptor of its type. *)
Definition pending_recorded (ls : Locals) : Prop :=
  expecting_opt ls = true ->
  if expecting_optarg ls
  then exists h o, waiting_opt ls = Some h /\
                   heap (store ls) !! h = Some (POptArg o)
  else exists h v, waiting_vec ls = Some h /\
                   heap (store ls) !! h = Some (POptVec v).

Definition no_panic (r : Outcome) : Prop :=
  match r with
  | Panic _ => False
  | _ => True
  end.

(** A step that does not panic and keeps the pending pointer recorded. *)
Definition step_safe (s : Step) : Prop :=
  match s with
  | Continue ls' => pending_recorded ls'
  | Return r _ => no_panic r
  end.

(** The arguments without the empty ones. *)
Fixpoint drop_empty (argv : list string) : list string :=
  match argv with
  | [] => []
  | EmptyString :: tail => drop_empty tail
  | arg :: tail => arg :: drop_empty tail
  end.

(** The registries a program can reach: the empty one, extended by the
    constructors, with values written through the handles the constructors
    return (as the tests do) and with [Rest] reset by the caller. *)
Inductive built : Store -> Prop :=
| built_empty : built empty_Store
| built_NewFlag x long help st :
    built st -> built (snd (NewFlag x long help st))
| built_NewOptArg x long help st :
    built st -> built (snd (NewOptArg x long help st))
| built_NewOptVec x long help st :
    built st -> built (snd (NewOptVec x long help st))
| built_NewOptCount x long help st :
    built st -> built (snd (NewOptCount x long help st))
| built_write h o o' st :
    built st -> heap st !! h = Some o -> same_descriptor o o' ->
    built (store_at h o' st)
| built_Rest r st :
    built st -> built (set_Rest r st).

(** A step that does not end in the default case of a type switch. *)
Definition step_typed (s : Step) : Prop :=
  match s with
  | Return r _ => r <> Panic "Invalid flag type"
  | Continue _ => True
  end.

(** Every byte is a lower-case ASCII letter other than [k] and [s], the two
    letters whose folding orbit holds a rune outside ASCII. *)
Fixpoint plain_word (s : string) : bool :=
  match s with
  | EmptyString => true
  | String a s' =>
      (97 <=? byte a) && (byte a <=? 122)
      && negb (byte a =? 115) && negb (byte a =? 107) && plain_word s'
  end.

(** The word [false], in any case, written with the two bytes C5 BF of
    U+017F (the long s) in the place of the [s]. *)
Definition long_s_false (V : string) : bool :=
  match V with
  | String a (String b (String c (String d (String e rest)))) =>
      (lower_byte (byte a) =? 102) && (lower_byte (byte b) =? 97)
      && (lower_byte (byte c) =? 108)
      && (byte d =? 197) && (byte e =? 191) && eq_nocase rest "e"
  | _ => false
  end.

(** ** Integer literals and their values *)

(** The value of a digit byte: [0]-[9], then the letters in either case
    from 10 on. *)
Definition digit_value (c : Z) : option Z :=
  if (48 <=? c) && (c <=? 57) then Some (c - 48)
  else if (97 <=? lower c) && (lower c <=? 122) then Some (lower c - 97 + 10)
  else None.

(** The number that digits in [base] denote, continuing from [acc];
    underscores between them do not count.  The integers are unbounded. *)
Fixpoint digits_value (s : string) (base acc : Z) : option Z :=
  match s with
  | EmptyString => Some acc
  | String ch s' =>
      if byte ch =? 95 then digits_value s' base acc
      else
        match digit_value (byte ch) with
        | Some d =>
            if d <? base then digits_value s' base (acc * base + d) else None
        | None => None
        end
  end.

Fixpoint has_underscore (s : string) : bool :=
  match s with
  | EmptyString => false
  | String ch s' => (byte ch =? 95) || has_underscore s'
  end.

(** The value of an integer literal without sign, in the syntax of Go: a
    prefix [0b], [0o] or [0x] (in either case) or a leading [0] selects the
    base, underscores may separate digits.  [None] when [s] is no literal. *)
Definition unsigned_literal_value (s : string) : option Z :=
  match s with
  | EmptyString => None
  | String c0 rest =>
      let '(base, digits) :=
        if byte c0 =? 48 then
          match rest with
          | String c1 (String c2 r) =>
              if lower (byte c1) =? 98 then (2, String c2 r)
              else if lower (byte c1) =? 111 then (8, String c2 r)
              else if lower (byte c1) =? 120 then (16, String c2 r)
              else (8, rest)
          | _ => (8, rest)
          end
        else (10, s) in
      match digits_value digits base 0 with
      | Some v =>
          if has_underscore digits && negb (underscoreOK s) then None else Some v
      | None => None
      end
  end.

(** The value of an integer literal with an optional sign. *)
Definition literal_value (s : string) : option Z :=
  match s with
  | EmptyString => None
  | String c0 rest =>
      if byte c0 =? 43 then unsigned_literal_value rest
      else if byte c0 =? 45 then
        match unsigned_literal_value rest with
        | Some v => Some (- v)
        | None => None
        end
      else unsigned_literal_value s
  end.

(** ** Auxiliary facts *)

Lemma loop_app H (pre after : list string) (ls : Locals) :
  loop H (pre ++ after) ls =
  match scan H pre after ls with
  | Continue ls' => loop H after ls'
  | Return r st => (r, st)
  end.
Proof.
  revert ls. induction pre as [|a pre IH]; intros ls; simpl; [reflexivity|].
  destruct (body H a (pre ++ after) ls); [apply IH | reflexivity].
Qed.

Lemma scan_app H (p1 p2 after : list string) (ls : Locals) :
  scan H (p1 ++ p2) after ls =
  match scan H p1 (p2 ++ after) ls with
  | Continue ls' => scan H p2 after ls'
  | Return r st => Return r st
  end.
Proof.
  revert ls. induction p1 as [|a p1 IH]; intros ls; simpl; [reflexivity|].
  rewrite <- app_assoc.
  destruct (body H a (p1 ++ p2 ++ after) ls); [apply IH | reflexivity].
Qed.

Lemma heap_store_at_eq (st : Store) (h : nat) (o o' : Opt) :
  heap st !! h = Some o -> heap (store_at h o' st) !! h = Some o'.
Proof.
  intros Hh. unfold store_at; simpl.
  apply list_lookup_insert_eq. eapply lookup_lt_Some; eassumption.
Qed.

Lemma heap_store_at_ne (st : Store) (h h' : nat) (o' : Opt) :
  h <> h' -> heap (store_at h o' st) !! h' = heap st !! h'.
Proof.
  intros Hne. unfold store_at; simpl. apply list_lookup_insert_ne; assumption.
Qed.

Lemma store_at_store_at (st : Store) (h : nat) (o1 o2 : Opt) :
  store_at h o2 (store_at h o1 st) = store_at h o2 st.
Proof.
  unfold store_at, set_heap; simpl. f_equal. apply list_insert_insert_eq.
Qed.

Lemma IndexByte_app_found (a b : string) (c : ascii) :
  IndexByte a c = None -> IndexByte (a +:+ String c b) c = Some (len a).
Proof.
  induction a as [|x a IH]; simpl.
  - intros _. rewrite Ascii.eqb_refl. reflexivity.
  - destruct (Ascii.eqb x c); [discriminate|].
    destruct (IndexByte a c); [discriminate|].
    intros _. rewrite IH; reflexivity.
Qed.

Lemma slice_to_app (a b : string) : slice_to (len a) (a +:+ b) = a.
Proof. induction a as [|x a IH]; simpl; [destruct b; reflexivity | now rewrite IH]. Qed.

Lemma slice_from_app (a b : string) : slice_from (len a) (a +:+ b) = b.
Proof. induction a as [|x a IH]; simpl; [reflexivity | exact IH]. Qed.



(** ** Properties of the parser *)

Section Properties.

Variable stdin : Store -> option string * Store.


(** *** The shape of a token decides the branch taken *)

Lemma body_long_assign (long V : string) (tail : list string) (ls : Locals) :
  IndexByte long "="%char = None ->
  expecting_opt ls = false ->
  body stdin ("--" +:+ long +:+ "=" +:+ V) tail ls =
    match optByLong (store ls) !! long with
    | Some h => assign_switch h long V ls
    | None => Continue ls
    end.
Proof.
  intros Hi He.
  assert (Hidx : IndexByte (String "-" (String "-" (long +:+ String "=" V))) "="%char
                 = Some (S (S (len long)))).
  { simpl. rewrite (IndexByte_app_found long V "="%char Hi). reflexivity. }
  change ("--" +:+ long +:+ "=" +:+ V)
    with (String "-" (String "-" (long +:+ String "=" V))).
  assert (Hs : slice 2 (S (S (len long)))
                 (String "-" (String "-" (long +:+ String "=" V))) = long).
  { unfold slice. simpl. apply slice_to_app. }
  assert (Hv : slice_from (S (S (len long)) + 1)
                 (String "-" (String "-" (long +:+ String "=" V))) = V).
  { simpl. rewrite Nat.add_1_r. simpl.
    change (String "=" V) with ("=" +:+ V).
    clear. induction long as [|x a IH]; simpl; [reflexivity | exact IH]. }
  unfold body. rewrite He.
  destruct long as [|l0 long']; cbv zeta; cbn [String.append];
    change (Ascii.eqb "-" "-") with true; cbv iota;
    rewrite Hidx, Hs, Hv; reflexivity.
Qed.

(** X20. While the parser awaits a value with the pointer to the SingleArg
    ([OptArg]) or MultiArg ([OptVec]) descriptor recorded, a non-empty token
    of any shape is taken as the value: the [Opt] field of the [OptArg]
    becomes the token, or the token is appended to the [OptArgs] field of
    the [OptVec]; the names of the descriptor stay, the awaiting state is
    cleared, no other descriptor, neither map and not [Rest] changes, and
    the loop goes on with the next token. *)
Theorem awaited_value_consumed (arg : string) (tail : list string)
    (ls : Locals) (h : nat) :
  arg <> EmptyString ->
  (forall o, awaiting_arg ls h o ->
     exists ls' o',
       body stdin arg tail ls = Continue ls' /\
       loop stdin (arg :: tail) ls = loop stdin tail ls' /\
       expecting_opt ls' = false /\
       heap (store ls') !! h = Some (POptArg o') /\
       OptArg_Opt o' = arg /\
       OptArg_Long o' = OptArg_Long o /\ OptArg_Help o' = OptArg_Help o /\
       OptArg_Short o' = OptArg_Short o /\
       (forall h', h' <> h -> heap (store ls') !! h' = heap (store ls) !! h') /\
       optByShort (store ls') = optByShort (store ls) /\
       optByLong (store ls') = optByLong (store ls) /\
       Rest (store ls') = Rest (store ls)) /\
  (forall v, awaiting_vec ls h v ->
     exists ls' v',
       body stdin arg tail ls = Continue ls' /\
       loop stdin (arg :: tail) ls = loop stdin tail ls' /\
       expecting_opt ls' = false /\
       heap (store ls') !! h = Some (POptVec v') /\
       OptVec_OptArgs v' = (OptVec_OptArgs v ++ [arg])%list /\
       OptVec_Long v' = OptVec_Long v /\ OptVec_Help v' = OptVec_Help v /\
       OptVec_Short v' = OptVec_Short v /\
       (forall h', h' <> h -> heap (store ls') !! h' = heap (store ls) !! h') /\
       optByShort (store ls') = optByShort (store ls) /\
       optByLong (store ls') = optByLong (store ls) /\
       Rest (store ls') = Rest (store ls)).
Proof.
  intros Hne. destruct arg as [|c0 arg1]; [congruence|]. split.
  - intros o (He & Hk & Hw & Hh).
    eexists _, (set_Opt (String c0 arg1) o).
    simpl. rewrite He, Hk, Hw, Hh. simpl.
    split; [reflexivity|]. split; [reflexivity|]. split; [reflexivity|].
    split; [eapply heap_store_at_eq; eassumption|].
    repeat split.
    intros h' Hd. apply heap_store_at_ne. congruence.
  - intros v (He & Hk & Hw & Hh).
    eexists _, (set_OptArgs (OptVec_OptArgs v ++ [String c0 arg1]) v).
    simpl. rewrite He, Hk, Hw, Hh. simpl.
    split; [reflexivity|]. split; [reflexivity|]. split; [reflexivity|].
    split; [eapply heap_store_at_eq; eassumption|].
    repeat split.
    intros h' Hd. apply heap_store_at_ne. congruence.
Qed.

(** C2. When the token ["--"] is met outside the awaiting state, all the
    tokens after it are appended to [Rest] as they are and in their order,
    no descriptor changes any more, and the call returns success. *)
Theorem C2_terminator (pre rest : list string) (st : Store) (ls : Locals) :
  scan stdin pre ("--" :: rest) (initial_Locals st) = Continue ls ->
  expecting_opt ls = false ->
  ParseArgv stdin (pre ++ "--" :: rest) st =
    (Success, mkStore (heap (store ls)) (optByShort (store ls))
                      (optByLong (store ls)) (Rest (store ls) ++ rest)).
Proof.
  intros Hscan He. unfold ParseArgv. rewrite loop_app, Hscan.
  simpl. rewrite He. reflexivity.
Qed.


Lemma IndexByte_long_bare (long : string) :
  IndexByte long "="%char = None ->
  IndexByte (String "-" (String "-" long)) "="%char = None.
Proof. intros Hi. simpl. rewrite Hi. reflexivity. Qed.

Lemma body_long_bare (long : string) (tail : list string) (ls : Locals) :
  long <> EmptyString ->
  IndexByte long "="%char = None ->
  expecting_opt ls = false ->
  body stdin ("--" +:+ long) tail ls =
    match optByLong (store ls) !! long with
    | Some h => bare_switch h ls
    | None => Return (Failure (UnrecognizedLong long)) (store ls)
    end.
Proof.
  intros Hne Hi He. destruct long as [|l0 long']; [congruence|].
  pose proof (IndexByte_long_bare _ Hi) as Hidx.
  change ("--" +:+ String l0 long') with (String "-" (String "-" (String l0 long'))).
  unfold body. rewrite He. cbv zeta.
  change (Ascii.eqb "-" "-") with true; cbv iota.
  rewrite Hidx. reflexivity.
Qed.

Lemma body_short (c : ascii) (tail : list string) (ls : Locals) :
  c <> "-"%char ->
  expecting_opt ls = false ->
  body stdin (String "-" (String c EmptyString)) tail ls =
    match optByShort (store ls) !! c with
    | Some h => bare_switch h ls
    | None => Continue ls
    end.
Proof.
  intros Hc He. apply Ascii.eqb_neq in Hc.
  unfold body. rewrite He. cbv zeta.
  change (Ascii.eqb "-" "-") with true; cbv iota.
  rewrite Hc. reflexivity.
Qed.

Lemma body_negated (c : ascii) (tail : list string) (ls : Locals) :
  expecting_opt ls = false ->
  body stdin (String "+" (String c EmptyString)) tail ls =
    match optByShort (store ls) !! c with
    | Some h => negate_switch h ls
    | None => Continue ls
    end.
Proof. intros He. unfold body. rewrite He. reflexivity. Qed.

Lemma body_short_group (c1 c2 : ascii) (r : string) (tail : list string)
    (ls : Locals) :
  c1 <> "-"%char ->
  expecting_opt ls = false ->
  body stdin (String "-" (String c1 (String c2 r))) tail ls =
    short_group (String c1 (String c2 r)) ls.
Proof.
  intros Hc He. apply Ascii.eqb_neq in Hc.
  unfold body. rewrite He. cbv zeta.
  change (Ascii.eqb "-" "-") with true; cbv iota.
  rewrite Hc. reflexivity.
Qed.

Lemma body_negated_group (c1 c2 : ascii) (r : string) (tail : list string)
    (ls : Locals) :
  expecting_opt ls = false ->
  body stdin (String "+" (String c1 (String c2 r))) tail ls =
    negated_group (String c1 (String c2 r)) ls.
Proof. intros He. unfold body. rewrite He. reflexivity. Qed.

Lemma registered_store_at (st : Store) (x : ascii) (long : string) (h : nat)
    (o o' : Opt) :
  registered st x long h o -> registered (store_at h o' st) x long h o'.
Proof.
  intros (Hs & Hl & Hh). repeat split; try assumption.
  eapply heap_store_at_eq; eassumption.
Qed.

Lemma loop_nil_idle (ls : Locals) :
  expecting_opt ls = false -> loop stdin [] ls = (Success, store ls).
Proof. intros He. simpl. unfold finish. rewrite He. reflexivity. Qed.

(** One occurrence of a SingleArg, met outside the awaiting state, leaves
    the parser outside the awaiting state with the value stored. *)
Lemma scan_occurrence_arg (x : ascii) (long : string) (f : Form) (V : string)
    (after : list string) (ls : Locals) (h : nat) (o : OptArg) :
  registered (store ls) x long h (POptArg o) ->
  form_fits x long f V ->
  expecting_opt ls = false ->
  exists ls',
    scan stdin (occurrence x long f V) after ls = Continue ls' /\
    expecting_opt ls' = false /\
    store ls' = store_at h (POptArg (set_Opt V o)) (store ls).
Proof.
  intros (Hs & Hl & Hh) Hfit He.
  destruct f; unfold occurrence; cbn [scan app]; cbn [form_fits] in Hfit.
  - rewrite body_long_assign by assumption. rewrite Hl.
    unfold assign_switch. rewrite Hh. eexists; repeat split. exact He.
  - destruct Hfit as [[Hne Hi] HV].
    rewrite body_long_bare by assumption. rewrite Hl.
    unfold bare_switch. rewrite Hh.
    destruct V as [|v0 V']; [congruence|].
    unfold body. simpl. rewrite Hh. eexists; repeat split.
  - destruct Hfit as [Hx HV]. destruct V as [|v0 V']; [congruence|].
    rewrite body_short_group by assumption.
    simpl. rewrite Hs, Hh. eexists; repeat split. exact He.
Qed.

(** C3 (as amended). For a registered SingleArg, [--long=V] when the long
    name has no ['='], [--long V] when the long name is not empty and has no
    ['='] and [V] is not empty, and [-xV] when [x] is not ['-'] and [V] is not
    empty, each end with success and the value [V], whatever the value was
    before; and when a second such occurrence follows, the value is that of
    the second one. *)
Theorem C3_single_arg_value (st : Store) (x : ascii) (long : string) (h : nat)
    (o : OptArg) (f : Form) (V : string) :
  registered st x long h (POptArg o) ->
  form_fits x long f V ->
  ParseArgv stdin (occurrence x long f V) st =
    (Success, store_at h (POptArg (set_Opt V o)) st) /\
  (forall (f2 : Form) (V2 : string),
     form_fits x long f2 V2 ->
     ParseArgv stdin (occurrence x long f V ++ occurrence x long f2 V2) st =
       (Success, store_at h (POptArg (set_Opt V2 o)) st)).
Proof.
  intros Hreg Hfit. split.
  - destruct (scan_occurrence_arg x long f V [] (initial_Locals st) h o)
      as (ls' & Hscan & He & Hst); try assumption; try reflexivity.
    unfold ParseArgv.
    rewrite <- (app_nil_r (occurrence x long f V)), loop_app, Hscan.
    rewrite loop_nil_idle by assumption. rewrite Hst. reflexivity.
  - intros f2 V2 Hfit2.
    destruct (scan_occurrence_arg x long f V (occurrence x long f2 V2)
                (initial_Locals st) h o)
      as (ls1 & Hscan1 & He1 & Hst1); try assumption; try reflexivity.
    destruct (scan_occurrence_arg x long f2 V2 [] ls1 h (set_Opt V o))
      as (ls2 & Hscan2 & He2 & Hst2); try assumption.
    { rewrite Hst1. eapply registered_store_at. exact Hreg. }
    unfold ParseArgv. rewrite loop_app, Hscan1.
    rewrite <- (app_nil_r (occurrence x long f2 V2)), loop_app, Hscan2.
    rewrite loop_nil_idle by assumption.
    rewrite Hst2, Hst1. simpl. rewrite store_at_store_at. reflexivity.
Qed.

Lemma wrap64_in_range (z : Z) :
  min_int64 <= z <= max_int64 -> wrap64 z = z.
Proof.
  unfold min_int64, max_int64, wrap64. intros Hz.
  rewrite Z.mod_small; lia.
Qed.

Lemma short_group_count (x : ascii) (r : string) (ls : Locals) (h : nat)
    (c : OptCount) :
  optByShort (store ls) !! x = Some h ->
  heap (store ls) !! h = Some (POptCount c) ->
  short_group (String x r) ls =
    short_group r
      (with_store
         (store_at h (POptCount (set_Count (wrap64 (OptCount_Count c + 1)) c))
            (store ls)) ls).
Proof. intros Hs Hh. cbn [short_group]. rewrite Hs, Hh. reflexivity. Qed.

Lemma bare_switch_count (ls : Locals) (h : nat) (c : OptCount) :
  heap (store ls) !! h = Some (POptCount c) ->
  bare_switch h ls =
    Continue
      (with_store
         (store_at h (POptCount (set_Count (wrap64 (OptCount_Count c + 1)) c))
            (store ls)) ls).
Proof. intros Hh. unfold bare_switch. rewrite Hh. reflexivity. Qed.

(** C4 (as amended). For a registered Counter at zero: [-xxx] gives 3 when
    [x] is not ['-']; three [--long] tokens give 3 when the long name is not
    empty and has no ['=']; [--long=3] gives 3, from any count, when the long
    name has no ['=']; and [+x] takes one off any count above the least
    [int64]. *)
Theorem C4_counter (st : Store) (x : ascii) (long : string) (h : nat)
    (c : OptCount) :
  registered st x long h (POptCount c) ->
  (OptCount_Count c = 0 -> x <> "-"%char ->
   ParseArgv stdin [String "-" (String x (String x (String x EmptyString)))] st =
     (Success, store_at h (POptCount (set_Count 3 c)) st)) /\
  (OptCount_Count c = 0 -> usable_long long ->
   ParseArgv stdin ["--" +:+ long; "--" +:+ long; "--" +:+ long] st =
     (Success, store_at h (POptCount (set_Count 3 c)) st)) /\
  (IndexByte long "="%char = None ->
   ParseArgv stdin ["--" +:+ long +:+ "=" +:+ "3"] st =
     (Success, store_at h (POptCount (set_Count 3 c)) st)) /\
  (min_int64 < OptCount_Count c <= max_int64 ->
   ParseArgv stdin [String "+" (String x EmptyString)] st =
     (Success, store_at h (POptCount (set_Count (OptCount_Count c - 1) c)) st)).
Proof.
  intros (Hs & Hl & Hh).
  assert (Hh1 : forall o, heap (store_at h o st) !! h = Some o).
  { intros o. eapply heap_store_at_eq; eassumption. }
  repeat split.
  - intros H0 Hx. unfold ParseArgv. cbn [loop].
    rewrite body_short_group by (assumption || reflexivity).
    rewrite (short_group_count x _ _ h c) by assumption.
    do 2 (erewrite (short_group_count x _ _ h _);
          [ | cbn [store with_store initial_Locals]; exact Hs
            | cbn [store with_store initial_Locals]; rewrite ?store_at_store_at; apply Hh1 ]).
    cbn [short_group]. unfold finish. cbn.
    rewrite !store_at_store_at, H0. reflexivity.
  - intros H0 [Hne Hi]. unfold ParseArgv. cbn [loop].
    rewrite body_long_bare by (assumption || reflexivity).
    cbn. rewrite Hl, (bare_switch_count _ h c) by assumption.
    rewrite body_long_bare by (assumption || reflexivity).
    cbn. rewrite Hl. erewrite (bare_switch_count _ h _);
      [ | cbn [store with_store initial_Locals]; rewrite ?store_at_store_at; apply Hh1 ].
    rewrite body_long_bare by (assumption || reflexivity).
    cbn. rewrite Hl. erewrite (bare_switch_count _ h _);
      [ | cbn [store with_store initial_Locals]; rewrite ?store_at_store_at; apply Hh1 ].
    unfold finish. cbn.
    rewrite !store_at_store_at, H0. reflexivity.
  - intros Hi. unfold ParseArgv. cbn [loop].
    rewrite body_long_assign by (assumption || reflexivity).
    cbn. rewrite Hl. unfold assign_switch. cbn. rewrite Hh. reflexivity.
  - intros Hr. unfold ParseArgv. cbn [loop].
    rewrite body_negated by reflexivity.
    cbn. rewrite Hs. unfold negate_switch. cbn. rewrite Hh.
    rewrite wrap64_in_range by (unfold min_int64, max_int64 in *; lia).
    reflexivity.
Qed.

Lemma fold_eq_ascii_lower (a b : Z) :
  97 <= b <= 122 ->
  fold_eq_ascii a b = (lower_byte a =? lower_byte b).
Proof.
  intros Hb. unfold fold_eq_ascii, lower_byte.
  repeat match goal with
         | |- context [Z.leb ?u ?v] => destruct (Z.leb_spec u v)
         | |- context [Z.eqb ?u ?v] => destruct (Z.eqb_spec u v)
         end; cbn in *; try reflexivity; lia.
Qed.

(** On ASCII input and a lower-case word, [EqualFold] is the comparison that
    ignores the case of ASCII letters. *)
Lemma EqualFold_ascii (t s : string) :
  lower_word t = true -> all_ascii s = true ->
  EqualFold s t = eq_nocase s t.
Proof.
  revert s. induction t as [|tr t IH]; intros s Ht Hs.
  - destruct s; reflexivity.
  - destruct s as [|sr s]; [reflexivity|].
    cbn [lower_word all_ascii] in Ht, Hs.
    apply andb_true_iff in Ht as [Ht1 Ht2].
    apply andb_true_iff in Ht1 as [Hlo Hhi].
    apply andb_true_iff in Hs as [Hs1 Hs2].
    cbn [EqualFold eq_nocase]. rewrite Hs1.
    rewrite fold_eq_ascii_lower by (apply Z.leb_le in Hlo, Hhi; lia).
    rewrite IH by assumption. reflexivity.
Qed.

(** [optargToBool] on ASCII input, by the four literals. *)
Lemma optargToBool_ascii (V : string) :
  all_ascii V = true ->
  optargToBool V =
    if eq_nocase V "t" then Some true
    else if eq_nocase V "f" then Some false
    else if eq_nocase V "true" then Some true
    else if eq_nocase V "false" then Some false
    else None.
Proof.
  intros HV. unfold optargToBool.
  rewrite !EqualFold_ascii by (assumption || reflexivity). reflexivity.
Qed.

Lemma EqualFold_plain_cons (sr tr : ascii) (s' t' : string) :
  97 <= byte tr <= 122 -> is_s (byte tr) = false -> is_k (byte tr) = false ->
  EqualFold (String sr s') (String tr t') =
    (lower_byte (byte sr) =? lower_byte (byte tr)) && EqualFold s' t'.
Proof.
  intros Hr Hs Hk. cbn [EqualFold]. rewrite Hs, Hk. cbn [andb].
  destruct (Z.ltb_spec (byte sr) 128) as [Hlt|Hge].
  - rewrite fold_eq_ascii_lower by exact Hr. reflexivity.
  - replace (lower_byte (byte sr) =? lower_byte (byte tr)) with false.
    + destruct s' as [|b1 [|b2 s'']]; reflexivity.
    + symmetry. apply Z.eqb_neq. unfold lower_byte.
      repeat match goal with
             | |- context [Z.leb ?u ?v] => destruct (Z.leb_spec u v)
             end; cbn; lia.
Qed.

(** On a word of lower-case letters other than [k] and [s], [EqualFold] is
    the comparison that ignores the case of ASCII letters, for every first
    argument. *)
Lemma EqualFold_plain (t s : string) :
  plain_word t = true -> EqualFold s t = eq_nocase s t.
Proof.
  revert s. induction t as [|tr t IH]; intros s Ht.
  - destruct s; reflexivity.
  - destruct s as [|sr s]; [reflexivity|].
    cbn [plain_word] in Ht.
    apply andb_true_iff in Ht as [Ht Hrest].
    apply andb_true_iff in Ht as [Ht Hk].
    apply andb_true_iff in Ht as [Ht Hs].
    apply andb_true_iff in Ht as [Hlo Hhi].
    apply Z.leb_le in Hlo, Hhi.
    apply negb_true_iff in Hs, Hk.
    rewrite EqualFold_plain_cons.
    + cbn [eq_nocase]. now rewrite IH.
    + lia.
    + unfold is_s. rewrite Hs. cbn.
      apply Z.eqb_neq. lia.
    + unfold is_k. rewrite Hk. cbn.
      apply Z.eqb_neq. lia.
Qed.

(** Against [false], [EqualFold] accepts the word in any case, also with
    U+017F for its [s], and nothing else. *)
Lemma EqualFold_false (V : string) :
  EqualFold V "false" = eq_nocase V "false" || long_s_false V.
Proof.
  assert (Hside : forall tr : ascii,
            (97 <=? byte tr) && (byte tr <=? 122) = true -> 97 <= byte tr <= 122).
  { intros tr Ht. apply andb_true_iff in Ht as [H1 H2].
    apply Z.leb_le in H1, H2. lia. }
  destruct V as [|a [|b [|c [|d V4]]]]; [reflexivity| | | |].
  - rewrite EqualFold_plain_cons by first [apply Hside; reflexivity | reflexivity].
    cbn. now rewrite andb_false_r.
  - do 2 rewrite EqualFold_plain_cons
      by first [apply Hside; reflexivity | reflexivity].
    cbn. now rewrite !andb_false_r.
  - do 3 rewrite EqualFold_plain_cons
      by first [apply Hside; reflexivity | reflexivity].
    cbn. now rewrite !andb_false_r.
  - do 3 rewrite EqualFold_plain_cons
      by first [apply Hside; reflexivity | reflexivity].
  cbn [eq_nocase long_s_false].
  set (A := lower_byte (byte a) =? lower_byte (byte "f")).
  set (B := lower_byte (byte b) =? lower_byte (byte "a")).
  set (C := lower_byte (byte c) =? lower_byte (byte "l")).
  change (lower_byte (byte a) =? 102) with A.
  change (lower_byte (byte b) =? 97) with B.
  change (lower_byte (byte c) =? 108) with C.
  assert (Hcore :
    EqualFold (String d V4) "se" =
      (lower_byte (byte d) =? lower_byte (byte "s")) && eq_nocase V4 "e"
      || match V4 with
         | String e rest => (byte d =? 197) && (byte e =? 191) && eq_nocase rest "e"
         | EmptyString => false
         end).
  { cbn [EqualFold].
    change (is_s (byte "s")) with true. change (is_k (byte "s")) with false.
    cbn [andb].
    destruct (Z.ltb_spec (byte d) 128) as [Hlt|Hge].
    - rewrite fold_eq_ascii_lower by (apply Hside; reflexivity).
      rewrite (EqualFold_plain "e" V4 eq_refl).
      replace (byte d =? 197) with false by (symmetry; apply Z.eqb_neq; lia).
      destruct V4; cbn [andb]; now rewrite orb_false_r.
    - replace (lower_byte (byte d) =? lower_byte (byte "s")) with false.
      + cbn [andb orb]. destruct V4 as [|e rest]; [reflexivity|].
        destruct ((byte d =? 197) && (byte e =? 191)) eqn:Hde.
        * now rewrite (EqualFold_plain "e" rest eq_refl).
        * destruct rest; reflexivity.
      + symmetry. apply Z.eqb_neq.
        change (lower_byte (byte "s")) with 115. unfold lower_byte.
        repeat match goal with
               | |- context [Z.leb ?u ?v] => destruct (Z.leb_spec u v)
               end; cbn; lia. }
  rewrite Hcore.
  destruct A, B, C; cbn [andb orb]; try reflexivity; destruct V4; reflexivity.
Qed.

(** [optargToBool] on every input, by the four literals. *)
Lemma optargToBool_exact (V : string) :
  optargToBool V =
    if eq_nocase V "t" then Some true
    else if eq_nocase V "f" then Some false
    else if eq_nocase V "true" then Some true
    else if eq_nocase V "false" || long_s_false V then Some false
    else None.
Proof.
  unfold optargToBool.
  rewrite (EqualFold_plain "t" V eq_refl), (EqualFold_plain "f" V eq_refl),
    (EqualFold_plain "true" V eq_refl), EqualFold_false.
  reflexivity.
Qed.

(** C5 (as amended). For a registered Flag: [-x] sets [Passed] when [x] is
    not ['-'], and [--long] does when the long name is not empty and has no
    ['=']; [+x] clears it.  When the long name has no ['='], [--long=V]
    clears it for every [V] equal to [f] or [false] up to the case of ASCII
    letters (so for [false] and [F]) and for [false] written with U+017F for
    its [s], sets it for [t] or [true] up to case, and fails with the
    boolean-parse error, the descriptor unchanged, for every other [V] (so
    for [Fase]). *)
Theorem C5_flag (st : Store) (x : ascii) (long : string) (h : nat) (f : Flag) :
  registered st x long h (PFlag f) ->
  (x <> "-"%char ->
   ParseArgv stdin [String "-" (String x EmptyString)] st =
     (Success, store_at h (PFlag (set_Passed true f)) st)) /\
  (usable_long long ->
   ParseArgv stdin ["--" +:+ long] st =
     (Success, store_at h (PFlag (set_Passed true f)) st)) /\
  ParseArgv stdin [String "+" (String x EmptyString)] st =
    (Success, store_at h (PFlag (set_Passed false f)) st) /\
  (IndexByte long "="%char = None ->
   forall V : string,
     ParseArgv stdin ["--" +:+ long +:+ "=" +:+ V] st =
       if eq_nocase V "f" || eq_nocase V "false" || long_s_false V
       then (Success, store_at h (PFlag (set_Passed false f)) st)
       else if eq_nocase V "t" || eq_nocase V "true"
       then (Success, store_at h (PFlag (set_Passed true f)) st)
       else (Failure BooleanParseError, st)) /\
  (IndexByte long "="%char = None ->
   ParseArgv stdin ["--" +:+ long +:+ "=" +:+ "false"] st =
     (Success, store_at h (PFlag (set_Passed false f)) st) /\
   ParseArgv stdin ["--" +:+ long +:+ "=" +:+ "F"] st =
     (Success, store_at h (PFlag (set_Passed false f)) st) /\
   ParseArgv stdin ["--" +:+ long +:+ "=" +:+ "Fase"] st =
     (Failure BooleanParseError, st)).
Proof.
  intros (Hs & Hl & Hh).
  assert (Hassign : forall V, IndexByte long "="%char = None ->
    ParseArgv stdin ["--" +:+ long +:+ "=" +:+ V] st =
      match optargToBool V with
      | Some b => (Success, store_at h (PFlag (set_Passed b f)) st)
      | None => (Failure BooleanParseError, st)
      end).
  { intros V Hi. unfold ParseArgv. cbn [loop].
    rewrite body_long_assign by (assumption || reflexivity).
    cbn [store initial_Locals]. rewrite Hl. unfold assign_switch.
    cbn [store initial_Locals]. rewrite Hh.
    destruct (optargToBool V); reflexivity. }
  split; [|split; [|split; [|split]]].
  - intros Hx. unfold ParseArgv. cbn [loop].
    rewrite body_short by (assumption || reflexivity).
    cbn [store initial_Locals]. rewrite Hs. unfold bare_switch.
    cbn [store initial_Locals]. rewrite Hh. reflexivity.
  - intros [Hne Hi]. unfold ParseArgv. cbn [loop].
    rewrite body_long_bare by (assumption || reflexivity).
    cbn [store initial_Locals]. rewrite Hl. unfold bare_switch.
    cbn [store initial_Locals]. rewrite Hh. reflexivity.
  - unfold ParseArgv. cbn [loop].
    rewrite body_negated by reflexivity.
    cbn [store initial_Locals]. rewrite Hs. unfold negate_switch.
    cbn [store initial_Locals]. rewrite Hh. reflexivity.
  - intros Hi V. rewrite Hassign by assumption.
    rewrite optargToBool_exact.
    destruct (eq_nocase V "t") eqn:Et.
    + destruct V as [|a [|b V]]; cbn in Et; rewrite ?andb_false_r in Et;
        try discriminate.
      cbn. rewrite andb_true_r in Et. apply Z.eqb_eq in Et. rewrite Et.
      reflexivity.
    + destruct (eq_nocase V "f"); [reflexivity|].
      destruct (eq_nocase V "true") eqn:Etrue.
      * destruct V as [|a [|b [|c [|d [|e V]]]]]; cbn in Etrue;
          rewrite ?andb_false_r in Etrue; try discriminate.
        cbn. apply andb_true_iff in Etrue as [E1 _]. apply Z.eqb_eq in E1.
        rewrite E1. reflexivity.
      * cbn [orb]. destruct (eq_nocase V "false" || long_s_false V); reflexivity.
  - intros Hi. rewrite !Hassign by assumption. repeat split.
Qed.

Lemma all_chars_ext (p q : ascii -> bool) (s : string) :
  (forall c, p c = q c) -> all_chars p s = all_chars q s.
Proof.
  intros Hpq. induction s as [|c r IH]; cbn; [reflexivity|].
  now rewrite Hpq, IH.
Qed.

Lemma heap_store_at (st : Store) (h h' : nat) (o o' : Opt) :
  heap st !! h = Some o ->
  heap (store_at h o' st) !! h' = if decide (h = h') then Some o' else heap st !! h'.
Proof.
  intros Hh. destruct (decide (h = h')) as [<-|Hne].
  - eapply heap_store_at_eq; eassumption.
  - apply heap_store_at_ne; assumption.
Qed.

(** Writing a Flag or a Counter over a Flag or a Counter keeps every short
    character in its class. *)
Lemma is_flag_or_count_store_at (st : Store) (h : nat) (o o' : Opt) (c : ascii) :
  heap st !! h = Some o ->
  match o with PFlag _ | POptCount _ => True | _ => False end ->
  match o' with PFlag _ | POptCount _ => True | _ => False end ->
  is_flag_or_count (store_at h o' st) c = is_flag_or_count st c.
Proof.
  intros Hh Ho Ho'. unfold is_flag_or_count.
  change (optByShort (store_at h o' st)) with (optByShort st).
  destruct (optByShort st !! c) as [h'|]; [|reflexivity].
  rewrite (heap_store_at st h h' o o' Hh).
  destruct (decide (h = h')) as [<-|]; [|reflexivity].
  rewrite Hh. destruct o, o'; try contradiction; reflexivity.
Qed.

Lemma is_known_store_at (st : Store) (h : nat) (o o' : Opt) (c : ascii) :
  heap st !! h = Some o ->
  is_known (store_at h o' st) c = is_known st c.
Proof.
  intros Hh. unfold is_known.
  change (optByShort (store_at h o' st)) with (optByShort st).
  destruct (optByShort st !! c) as [h'|]; [|reflexivity].
  rewrite (heap_store_at st h h' o o' Hh).
  destruct (decide (h = h')) as [<-|]; [|reflexivity].
  rewrite Hh. reflexivity.
Qed.

(** A ['-'] group whose leading characters name Flags and Counters stops at
    the first unknown character, with the effects of the leading characters
    in place. *)
Lemma short_group_unknown (pre : string) (c : ascii) (post : string) (ls : Locals) :
  all_chars (is_flag_or_count (store ls)) pre = true ->
  optByShort (store ls) !! c = None ->
  short_group (pre +:+ String c post) ls =
    Return (Failure (UnrecognizedShort c))
           (apply_all positive_effect pre (store ls)).
Proof.
  revert ls. induction pre as [|a pre IH]; intros ls Hall Hc.
  - change ("" +:+ String c post) with (String c post).
    cbn [short_group apply_all]. rewrite Hc. reflexivity.
  - cbn [all_chars] in Hall. apply andb_true_iff in Hall as [Ha Hall].
    change (String a pre +:+ String c post) with (String a (pre +:+ String c post)).
    cbn [short_group apply_all].
    unfold positive_effect. unfold is_flag_or_count in Ha.
    destruct (optByShort (store ls) !! a) as [h|]; [|discriminate].
    destruct (heap (store ls) !! h) as [[f|o|v|k]|] eqn:Hh; try discriminate.
    + rewrite IH; [reflexivity| |exact Hc].
      cbn [store with_store].
      erewrite all_chars_ext; [exact Hall|].
      intros c'. eapply is_flag_or_count_store_at; [eassumption|exact I|exact I].
    + rewrite IH; [reflexivity| |exact Hc].
      cbn [store with_store].
      erewrite all_chars_ext; [exact Hall|].
      intros c'. eapply is_flag_or_count_store_at; [eassumption|exact I|exact I].
Qed.

(** A ['+'] group stops at the first unknown character, with the effects of
    the characters before it in place. *)
Lemma negated_group_unknown (pre : string) (c : ascii) (post : string)
    (ls : Locals) :
  all_chars (is_known (store ls)) pre = true ->
  optByShort (store ls) !! c = None ->
  negated_group (pre +:+ String c post) ls =
    Return (Failure (UnrecognizedShort c))
           (apply_all negate_effect pre (store ls)).
Proof.
  revert ls. induction pre as [|a pre IH]; intros ls Hall Hc.
  - change ("" +:+ String c post) with (String c post).
    cbn [negated_group apply_all]. rewrite Hc. reflexivity.
  - cbn [all_chars] in Hall. apply andb_true_iff in Hall as [Ha Hall].
    change (String a pre +:+ String c post) with (String a (pre +:+ String c post)).
    cbn [negated_group apply_all].
    unfold negate_effect, negate_switch. unfold is_known in Ha.
    destruct (optByShort (store ls) !! a) as [h|]; [|discriminate].
    destruct (heap (store ls) !! h) as [[f|o|v|k]|] eqn:Hh; try discriminate;
      (rewrite IH; [reflexivity| |exact Hc]);
      cbn [store with_store];
      (erewrite all_chars_ext; [exact Hall|]);
      intros c'; eapply is_known_store_at; eassumption.
Qed.

(** C7 (as amended). Outside the awaiting state, a token of three bytes or
    more that starts with ['-'] (and not with ["--"]) and whose characters
    before the first unknown one all name Flags or Counters, and a token of
    three bytes or more that starts with ['+'] and holds an unknown
    character, end the call with the unrecognized-option error for that
    character; the effects of the characters before it, and the state left
    by the earlier tokens, are what the call leaves behind. *)
Theorem C7_group_unknown_char (pre : string) (c : ascii) (post : string)
    (tail : list string) (ls : Locals) :
  expecting_opt ls = false ->
  (2 <= len (pre +:+ String c post))%nat ->
  optByShort (store ls) !! c = None ->
  (starts_with_dash (pre +:+ String c post) = false ->
   all_chars (is_flag_or_count (store ls)) pre = true ->
   loop stdin (String "-" (pre +:+ String c post) :: tail) ls =
     (Failure (UnrecognizedShort c), apply_all positive_effect pre (store ls))) /\
  (all_chars (is_known (store ls)) pre = true ->
   loop stdin (String "+" (pre +:+ String c post) :: tail) ls =
     (Failure (UnrecognizedShort c), apply_all negate_effect pre (store ls))).
Proof.
  intros He Hlen Hc.
  destruct (pre +:+ String c post) as [|c1 [|c2 r]] eqn:Hcs;
    cbn [len String.length] in Hlen; try lia.
  split.
  - intros Hdash Hall. cbn [starts_with_dash] in Hdash.
    apply Ascii.eqb_neq in Hdash.
    cbn [loop]. rewrite body_short_group by assumption.
    rewrite <- Hcs, short_group_unknown by assumption. reflexivity.
  - intros Hall. cbn [loop]. rewrite body_negated_group by assumption.
    rewrite <- Hcs, negated_group_unknown by assumption. reflexivity.
Qed.

(** C8 (as amended). Outside the awaiting state, a two-byte token [-c] with
    [c] other than ['-'], or [+c], whose character is in no entry of the
    short map is passed over: the loop goes on with the same locals, the
    same descriptors and the same [Rest], and a call with this token alone
    returns success with the state untouched.  An unknown long name without
    ['='], and an unknown first character of a group, end the call with an
    error instead. *)
Theorem C8_unknown_short_ignored (c : ascii) (tail : list string) (ls : Locals) :
  expecting_opt ls = false ->
  optByShort (store ls) !! c = None ->
  (c <> "-"%char ->
   body stdin (String "-" (String c EmptyString)) tail ls = Continue ls /\
   ParseArgv stdin [String "-" (String c EmptyString)] (store ls) =
     (Success, store ls)) /\
  (body stdin (String "+" (String c EmptyString)) tail ls = Continue ls /\
   ParseArgv stdin [String "+" (String c EmptyString)] (store ls) =
     (Success, store ls)) /\
  (forall name : string,
     usable_long name -> optByLong (store ls) !! name = None ->
     body stdin ("--" +:+ name) tail ls =
       Return (Failure (UnrecognizedLong name)) (store ls)) /\
  (forall (c2 : ascii) (r : string),
     (c <> "-"%char ->
      body stdin (String "-" (String c (String c2 r))) tail ls =
        Return (Failure (UnrecognizedShort c)) (store ls)) /\
     body stdin (String "+" (String c (String c2 r))) tail ls =
       Return (Failure (UnrecognizedShort c)) (store ls)).
Proof.
  intros He Hc. split; [|split; [|split]].
  - intros Hd. split.
    + rewrite body_short by assumption. rewrite Hc. reflexivity.
    + unfold ParseArgv. cbn [loop].
      rewrite body_short by (assumption || reflexivity).
      cbn [store initial_Locals]. rewrite Hc. reflexivity.
  - split.
    + rewrite body_negated by assumption. rewrite Hc. reflexivity.
    + unfold ParseArgv. cbn [loop].
      rewrite body_negated by reflexivity.
      cbn [store initial_Locals]. rewrite Hc. reflexivity.
  - intros name [Hne Hi] Hl.
    rewrite body_long_bare by assumption. rewrite Hl. reflexivity.
  - intros c2 r. split.
    + intros Hd. rewrite body_short_group by assumption.
      cbn [short_group]. rewrite Hc. reflexivity.
    + rewrite body_negated_group by assumption.
      cbn [negated_group]. rewrite Hc. reflexivity.
Qed.

(** *** [strconv.ParseInt] with a bit size of 32 *)

Lemma parse_digits_bound (s : string) (base : Z) (base0 : bool)
    (cutoff maxVal n : Z) (u : bool) :
  0 <= base -> 0 <= n <= maxVal ->
  forall n' u', parse_digits s base base0 cutoff maxVal n u = (n', u', None) ->
  0 <= n' <= maxVal.
Proof.
  intros Hb. revert n u. induction s as [|ch s IH]; intros n u Hn n' u' Hp.
  - cbn in Hp. injection Hp as <- _. exact Hn.
  - cbn [parse_digits] in Hp. cbv zeta in Hp.
    destruct ((byte ch =? 95) && base0); [eapply IH; eassumption|].
    destruct ((48 <=? byte ch) && (byte ch <=? 57)) eqn:Hd.
    + apply andb_true_iff in Hd as [Hd1 Hd2]. apply Z.leb_le in Hd1.
      destruct (base <=? byte ch - 48); [discriminate|].
      destruct (cutoff <=? n); [discriminate|].
      destruct ((maxUint64 <? n * base + (byte ch - 48))
                || (maxVal <? n * base + (byte ch - 48))) eqn:Ho; [discriminate|].
      apply orb_false_iff in Ho as [_ Ho]. apply Z.ltb_ge in Ho.
      eapply IH; [|eassumption]. nia.
    + destruct ((97 <=? lower (byte ch)) && (lower (byte ch) <=? 122)) eqn:Hl;
        [|discriminate].
      apply andb_true_iff in Hl as [Hl1 Hl2]. apply Z.leb_le in Hl1.
      destruct (base <=? lower (byte ch) - 97 + 10); [discriminate|].
      destruct (cutoff <=? n); [discriminate|].
      destruct ((maxUint64 <? n * base + (lower (byte ch) - 97 + 10))
                || (maxVal <? n * base + (lower (byte ch) - 97 + 10))) eqn:Ho;
        [discriminate|].
      apply orb_false_iff in Ho as [_ Ho]. apply Z.ltb_ge in Ho.
      eapply IH; [|eassumption]. nia.
Qed.

Lemma parse_digits_range (s : string) (base : Z) (base0 : bool)
    (cutoff maxVal n : Z) (u : bool) :
  forall n' u', parse_digits s base base0 cutoff maxVal n u = (n', u', Some ErrRange) ->
  n' = maxVal.
Proof.
  revert n u. induction s as [|ch s IH]; intros n u n' u' Hp.
  - discriminate.
  - cbn [parse_digits] in Hp. cbv zeta in Hp.
    destruct ((byte ch =? 95) && base0); [eapply IH; eassumption|].
    destruct ((48 <=? byte ch) && (byte ch <=? 57)).
    + destruct (base <=? byte ch - 48); [discriminate|].
      destruct (cutoff <=? n); [congruence|].
      destruct ((maxUint64 <? n * base + (byte ch - 48))
                || (maxVal <? n * base + (byte ch - 48))); [congruence|].
      eapply IH; eassumption.
    + destruct ((97 <=? lower (byte ch)) && (lower (byte ch) <=? 122));
        [|discriminate].
      destruct (base <=? lower (byte ch) - 97 + 10); [discriminate|].
      destruct (cutoff <=? n); [congruence|].
      destruct ((maxUint64 <? n * base + (lower (byte ch) - 97 + 10))
                || (maxVal <? n * base + (lower (byte ch) - 97 + 10)));
        [congruence|].
      eapply IH; eassumption.
Qed.

(** With a bit size of 32, [ParseUint] yields a 32-bit value, and the
    largest one on a range error. *)
Lemma ParseUint_32 (s : string) (un : Z) (e : option NumError) :
  ParseUint s 0 32 = (un, e) ->
  (e = None -> 0 <= un <= 2 ^ 32 - 1) /\
  (e = Some ErrRange -> un = 2 ^ 32 - 1).
Proof.
  unfold ParseUint. destruct s as [|c0 rest]; [intros [= <- <-]; split; discriminate|].
  change (0 =? 0) with true. change ((2 <=? 0) && (0 <=? 36)) with false.
  change ((32 <? 0) || (64 <? 32)) with false. change (32 =? 0) with false.
  cbv iota.
  set (pre := if byte c0 =? 48 then _ else _).
  assert (Hpre : exists b d, pre = (b, d, true) /\ 0 <= b).
  { subst pre. destruct (byte c0 =? 48); [|eexists _, _; split; [reflexivity|lia]].
    destruct rest as [|c1 [|c2 r]]; try (eexists _, _; split; [reflexivity|lia]).
    destruct (lower (byte c1) =? 98); [eexists _, _; split; [reflexivity|lia]|].
    destruct (lower (byte c1) =? 111); [eexists _, _; split; [reflexivity|lia]|].
    destruct (lower (byte c1) =? 120); eexists _, _; split; try reflexivity; lia. }
  destruct Hpre as (b & d & -> & Hb). cbn [negb].  cbv iota.
  destruct (parse_digits d b true (maxUint64 / b + 1) (2 ^ 32 - 1) 0 false)
    as [[n u] err] eqn:Hp.
  destruct err as [err|].
  - intros [= <- <-]. split; [discriminate|]. intros [= ->].
    eapply parse_digits_range; eassumption.
  - assert (H0 : 0 <= 0 <= 2 ^ 32 - 1) by (change (2 ^ 32 - 1) with 4294967295; lia).
    pose proof (parse_digits_bound _ _ _ _ _ _ _ Hb H0 _ _ Hp) as Hn.
    destruct (u && negb (underscoreOK (String c0 rest)));
      intros [= <- <-]; split; try discriminate; intros _; exact Hn.
Qed.

(** A successful [ParseInt] with a bit size of 32 yields an [int32]. *)
Lemma ParseInt_32 (s : string) (n : Z) :
  ParseInt s 0 32 = (n, None) -> min_int32 <= n <= max_int32.
Proof.
  unfold ParseInt, min_int32, max_int32.
  destruct s as [|c0 rest]; [discriminate|].
  set (sg := if byte c0 =? 43 then _ else _).
  destruct sg as [neg s1].
  destruct (ParseUint s1 0 32) as [un err] eqn:Hu.
  apply ParseUint_32 in Hu as [Hok Hrange].
  change (32 =? 0) with false. cbv iota. change (2 ^ (32 - 1)) with 2147483648.
  destruct err as [[| | |]|]; try discriminate.
  - specialize (Hrange eq_refl). subst un.
    destruct neg; cbn; discriminate.
  - specialize (Hok eq_refl).
    destruct neg; cbn [negb andb].
    + destruct (Z.ltb_spec 2147483648 un); intros [= <-]; lia.
    + destruct (Z.leb_spec 2147483648 un); intros [= <-]; lia.
Qed.

Lemma decimal_value_ge (s : string) (n : Z) :
  is_digits s = true -> 0 <= n -> n <= decimal_value s n.
Proof.
  revert n. induction s as [|a s IH]; intros n Hd Hn; cbn; [lia|].
  cbn in Hd. apply andb_true_iff in Hd as [Ha Hs].
  apply andb_true_iff in Ha as [Ha1 Ha2]. apply Z.leb_le in Ha1, Ha2.
  etransitivity; [|apply IH; [assumption|lia]]. lia.
Qed.

(** On digits, in base 10 and with a 32-bit limit, the digit loop computes
    the decimal value or reports that it is out of range. *)
Lemma parse_digits_decimal (s : string) (n : Z) (u : bool) :
  is_digits s = true -> 0 <= n <= 4294967295 ->
  parse_digits s 10 true (maxUint64 / 10 + 1) (2 ^ 32 - 1) n u =
    if decimal_value s n <=? 4294967295
    then (decimal_value s n, u, None)
    else (4294967295, u, Some ErrRange).
Proof.
  change (maxUint64 / 10 + 1) with 1844674407370955162.
  change (2 ^ 32 - 1) with 4294967295.
  revert n. induction s as [|a s IH]; intros n Hd Hn.
  - cbn. destruct (Z.leb_spec n 4294967295); [reflexivity|lia].
  - cbn in Hd. apply andb_true_iff in Hd as [Ha Hs].
    pose proof Ha as Ha'.
    apply andb_true_iff in Ha' as [Ha1 Ha2]. apply Z.leb_le in Ha1, Ha2.
    cbn [parse_digits decimal_value]. cbv zeta. rewrite Ha.
    replace (byte a =? 95) with false by (symmetry; apply Z.eqb_neq; lia).
    cbn [andb].
    replace (10 <=? byte a - 48) with false by (symmetry; apply Z.leb_gt; lia).
    replace (1844674407370955162 <=? n) with false
      by (symmetry; apply Z.leb_gt; lia).
    replace (maxUint64 <? n * 10 + (byte a - 48)) with false
      by (symmetry; apply Z.ltb_ge; unfold maxUint64;
          change (2 ^ 64 - 1) with 18446744073709551615; lia).
    cbn [orb].
    destruct (Z.ltb_spec 4294967295 (n * 10 + (byte a - 48))) as [Hov|Hin].
    + pose proof (decimal_value_ge s (n * 10 + (byte a - 48)) Hs ltac:(lia)).
      destruct (Z.leb_spec (decimal_value s (n * 10 + (byte a - 48))) 4294967295);
        [lia|reflexivity].
    + apply IH; [assumption|lia].
Qed.

(** [ParseInt] on a decimal literal without sign. *)
Lemma ParseInt_decimal (s : string) :
  is_decimal s = true ->
  ParseInt s 0 32 =
    if decimal_value s 0 <=? max_int32
    then (decimal_value s 0, None)
    else (max_int32, Some ErrRange).
Proof.
  unfold is_decimal. destruct s as [|c0 rest]; [discriminate|].
  intros Hd. apply andb_true_iff in Hd as [H1 Hd]. apply Z.leb_le in H1.
  pose proof Hd as Hd'. cbn [is_digits] in Hd'.
  apply andb_true_iff in Hd' as [Hc _].
  apply andb_true_iff in Hc as [_ Hc]. apply Z.leb_le in Hc.
  unfold ParseInt, ParseUint.
  replace (byte c0 =? 43) with false by (symmetry; apply Z.eqb_neq; lia).
  replace (byte c0 =? 45) with false by (symmetry; apply Z.eqb_neq; lia).
  replace (byte c0 =? 48) with false by (symmetry; apply Z.eqb_neq; lia).
  change (0 =? 0) with true. change ((2 <=? 0) && (0 <=? 36)) with false.
  change ((32 <? 0) || (64 <? 32)) with false. change (32 =? 0) with false.
  cbv iota. cbn [negb]. cbv iota.
  rewrite parse_digits_decimal by (assumption || lia).
  change (2 ^ (32 - 1)) with 2147483648. unfold max_int32.
  change (2 ^ 31 - 1) with 2147483647.
  destruct (Z.leb_spec (decimal_value (String c0 rest) 0) 4294967295).
  - cbn [andb negb].
    destruct (Z.leb_spec 2147483648 (decimal_value (String c0 rest) 0)),
             (Z.leb_spec (decimal_value (String c0 rest) 0) 2147483647);
      try lia; reflexivity.
  - cbn [andb negb].
    destruct (Z.leb_spec (decimal_value (String c0 rest) 0) 2147483647);
      [lia|reflexivity].
Qed.

(** [ParseInt] on a decimal literal with a minus sign. *)
Lemma ParseInt_decimal_neg (s : string) :
  is_decimal s = true ->
  ParseInt (String "-" s) 0 32 =
    if decimal_value s 0 <=? - min_int32
    then (- decimal_value s 0, None)
    else (min_int32, Some ErrRange).
Proof.
  unfold is_decimal. destruct s as [|c0 rest]; [discriminate|].
  intros Hd. apply andb_true_iff in Hd as [H1 Hd]. apply Z.leb_le in H1.
  unfold ParseInt.
  change (byte "-" =? 43) with false. change (byte "-" =? 45) with true.
  cbv iota beta zeta. unfold ParseUint.
  replace (byte c0 =? 48) with false by (symmetry; apply Z.eqb_neq; lia).
  change (0 =? 0) with true. change ((2 <=? 0) && (0 <=? 36)) with false.
  change ((32 <? 0) || (64 <? 32)) with false. change (32 =? 0) with false.
  cbv iota beta zeta. cbn [negb]. cbv iota.
  rewrite parse_digits_decimal by (assumption || lia).
  change (2 ^ (32 - 1)) with 2147483648. unfold min_int32.
  change (- - 2 ^ 31) with 2147483648. change (- 2 ^ 31) with (-2147483648).
  destruct (Z.leb_spec (decimal_value (String c0 rest) 0) 4294967295).
  - cbn [andb negb].
    destruct (Z.ltb_spec 2147483648 (decimal_value (String c0 rest) 0)),
             (Z.leb_spec (decimal_value (String c0 rest) 0) 2147483648);
      try lia; reflexivity.
  - cbn [andb negb].
    destruct (Z.leb_spec (decimal_value (String c0 rest) 0) 2147483648);
      [lia|reflexivity].
Qed.

(** *** [strconv.ParseInt] against the value of the literal *)

Lemma digit_value_nonneg (c d : Z) : digit_value c = Some d -> 0 <= d.
Proof.
  unfold digit_value.
  destruct ((48 <=? c) && (c <=? 57)) eqn:H1.
  - apply andb_true_iff in H1 as [H1 _]. apply Z.leb_le in H1. intros [= <-]. lia.
  - destruct ((97 <=? lower c) && (lower c <=? 122)) eqn:H2; [|discriminate].
    apply andb_true_iff in H2 as [H2 _]. apply Z.leb_le in H2. intros [= <-]. lia.
Qed.

Lemma digits_value_ge (s : string) (base n v : Z) :
  0 < base -> 0 <= n -> digits_value s base n = Some v -> n <= v.
Proof.
  intros Hb. revert n. induction s as [|ch s IH]; intros n Hn Hv.
  - cbn in Hv. injection Hv as <-. lia.
  - cbn [digits_value] in Hv.
    destruct (byte ch =? 95); [apply IH; assumption|].
    destruct (digit_value (byte ch)) as [d|] eqn:Hd; [|discriminate].
    apply digit_value_nonneg in Hd.
    destruct (d <? base); [|discriminate].
    apply IH in Hv; nia.
Qed.

(** The digit loop with a limit [maxVal] below [cutoff], against the value
    of the digits. *)
Lemma parse_digits_value (s : string) (base cutoff maxVal n : Z) (u : bool) :
  0 < base -> maxVal < cutoff -> maxVal <= maxUint64 -> 0 <= n <= maxVal ->
  forall n' u' e,
    parse_digits s base true cutoff maxVal n u = (n', u', e) ->
    match digits_value s base n with
    | Some v =>
        (v <= maxVal /\ n' = v /\ e = None /\ u' = u || has_underscore s) \/
        (maxVal < v /\ n' = maxVal /\ e = Some ErrRange)
    | None => e = Some ErrSyntax \/ (e = Some ErrRange /\ n' = maxVal)
    end.
Proof.
  intros Hb Hcut Hmax. revert n u.
  induction s as [|ch s IH]; intros n u Hn n' u' e Hp.
  - cbn in Hp |- *. injection Hp as <- <- <-. left.
    rewrite orb_false_r. repeat split. lia.
  - cbn [parse_digits digits_value has_underscore] in Hp |- *. cbv zeta in Hp.
    rewrite andb_true_r in Hp.
    destruct (byte ch =? 95) eqn:Hus.
    { specialize (IH n true Hn n' u' e Hp).
      destruct (digits_value s base n); [|exact IH].
      destruct IH as [(H1 & H2 & H3 & H4)|IH]; [left|right; exact IH].
      repeat split; try assumption. rewrite H4. cbn. now rewrite orb_true_r. }
    cbn [orb].
    change (if (48 <=? byte ch) && (byte ch <=? 57) then Some (byte ch - 48)
            else if (97 <=? lower (byte ch)) && (lower (byte ch) <=? 122)
                 then Some (lower (byte ch) - 97 + 10) else None)
      with (digit_value (byte ch)) in Hp.
    destruct (digit_value (byte ch)) as [d|] eqn:Hd.
    + pose proof (digit_value_nonneg _ _ Hd) as Hd0.
      destruct (Z.leb_spec base d) as [Hge|Hlt].
      * replace (d <? base) with false by (symmetry; apply Z.ltb_ge; lia).
        injection Hp as <- <- <-. left. reflexivity.
      * replace (d <? base) with true by (symmetry; apply Z.ltb_lt; lia).
        replace (cutoff <=? n) with false in Hp by (symmetry; apply Z.leb_gt; lia).
        destruct (Z.ltb_spec maxVal (n * base + d)) as [Hov|Hin].
        -- rewrite orb_true_r in Hp. injection Hp as <- <- <-.
           destruct (digits_value s base (n * base + d)) as [v|] eqn:Hv.
           ++ right. apply digits_value_ge in Hv; [|lia|nia].
              repeat split. lia.
           ++ right. split; reflexivity.
        -- replace (maxUint64 <? n * base + d) with false in Hp
             by (symmetry; apply Z.ltb_ge; lia).
           cbn [orb] in Hp.
           apply (IH (n * base + d) u ltac:(nia) n' u' e Hp).
    + injection Hp as <- <- <-. left. reflexivity.
Qed.

(** [ParseUint] with base 0 and 32 bits, against the value of the literal. *)
Lemma ParseUint_value (s : string) :
  match unsigned_literal_value s with
  | Some v =>
      ParseUint s 0 32 =
        if v <=? 4294967295 then (v, None) else (4294967295, Some ErrRange)
  | None =>
      exists n e, ParseUint s 0 32 = (n, Some e) /\
                  (e = ErrSyntax \/ (e = ErrRange /\ n = 4294967295))
  end.
Proof.
  unfold unsigned_literal_value, ParseUint.
  destruct s as [|c0 rest]; [eexists _, _; split; [reflexivity | now left]|].
  change (0 =? 0) with true. change ((2 <=? 0) && (0 <=? 36)) with false.
  change ((32 <? 0) || (64 <? 32)) with false. change (32 =? 0) with false.
  change (2 ^ 32 - 1) with 4294967295.
  cbv iota.
  assert (Hgen : forall base digits,
    (base = 2 \/ base = 8 \/ base = 10 \/ base = 16) ->
    match
      match digits_value digits base 0 with
      | Some v =>
          if has_underscore digits && negb (underscoreOK (String c0 rest))
          then None else Some v
      | None => None
      end
    with
    | Some v =>
        (let '(n, underscores, err) :=
           parse_digits digits base true (maxUint64 / base + 1) 4294967295 0 false in
         match err with
         | Some e => (n, Some e)
         | None =>
             if underscores && negb (underscoreOK (String c0 rest))
             then (0, Some ErrSyntax) else (n, None)
         end) =
        (if v <=? 4294967295 then (v, None) else (4294967295, Some ErrRange))
    | None =>
        exists n e,
          (let '(n, underscores, err) :=
             parse_digits digits base true (maxUint64 / base + 1) 4294967295 0 false in
           match err with
           | Some e => (n, Some e)
           | None =>
               if underscores && negb (underscoreOK (String c0 rest))
               then (0, Some ErrSyntax) else (n, None)
           end) = (n, Some e) /\
          (e = ErrSyntax \/ (e = ErrRange /\ n = 4294967295))
    end).
  { intros base digits Hbase.
    destruct (parse_digits digits base true (maxUint64 / base + 1) 4294967295 0 false)
      as [[n' u'] e] eqn:Hp.
    assert (Hb : 0 < base) by lia.
    assert (Hcut : 4294967295 < maxUint64 / base + 1)
      by (destruct Hbase as [-> | [-> | [-> | ->]]]; vm_compute; reflexivity).
    assert (Hmax : 4294967295 <= maxUint64) by (vm_compute; discriminate).
    pose proof (parse_digits_value digits base _ 4294967295 0 false Hb Hcut Hmax
                  ltac:(lia) n' u' e Hp) as Hrel.
    destruct (digits_value digits base 0) as [v|].
    - destruct Hrel as [(Hv & -> & -> & ->)|(Hv & -> & ->)].
      + cbn [orb].
        destruct (has_underscore digits && negb (underscoreOK (String c0 rest))).
        * eexists _, _; split; [reflexivity | now left].
        * destruct (Z.leb_spec v 4294967295); [reflexivity | lia].
      + destruct (has_underscore digits && negb (underscoreOK (String c0 rest))).
        * eexists _, _; split; [reflexivity | right; now split].
        * destruct (Z.leb_spec v 4294967295); [lia | reflexivity].
    - destruct Hrel as [-> | [-> ->]].
      + eexists _, _; split; [reflexivity | now left].
      + eexists _, _; split; [reflexivity | right; now split]. }
  destruct (byte c0 =? 48).
  - destruct rest as [|c1 [|c2 r]];
      try (cbn [negb]; cbv iota; apply Hgen; tauto).
    destruct (lower (byte c1) =? 98); [cbn [negb]; cbv iota; apply Hgen; tauto|].
    destruct (lower (byte c1) =? 111); [cbn [negb]; cbv iota; apply Hgen; tauto|].
    destruct (lower (byte c1) =? 120); cbn [negb]; cbv iota; apply Hgen; tauto.
  - cbn [negb]; cbv iota; apply Hgen; tauto.
Qed.

(** [ParseInt] with base 0 and 32 bits stores the value of a literal that
    lies in the signed 32-bit range and refuses everything else. *)
Lemma ParseInt_literal (s : string) :
  match literal_value s with
  | Some v =>
      ParseInt s 0 32 =
        if (min_int32 <=? v) && (v <=? max_int32) then (v, None)
        else (if v <? 0 then min_int32 else max_int32, Some ErrRange)
  | None => exists n e, ParseInt s 0 32 = (n, Some e)
  end.
Proof.
  unfold literal_value, ParseInt, min_int32, max_int32.
  destruct s as [|c0 rest]; [eexists _, _; reflexivity|].
  change (32 =? 0) with false. cbv iota.
  change (2 ^ (32 - 1)) with 2147483648. change (2 ^ 31 - 1) with 2147483647.
  change (- 2 ^ 31) with (-2147483648).
  assert (Hsome : forall s1 v, unsigned_literal_value s1 = Some v -> 0 <= v).
  { intros s1 v. unfold unsigned_literal_value.
    destruct s1 as [|a r]; [discriminate|].
    destruct (if byte a =? 48 then _ else _) as [base digits] eqn:Hpre.
    assert (Hb : 0 < base).
    { destruct (byte a =? 48).
      - destruct r as [|c1 [|c2 r']]; try (injection Hpre as <- _; lia).
        destruct (lower (byte c1) =? 98); [injection Hpre as <- _; lia|].
        destruct (lower (byte c1) =? 111); [injection Hpre as <- _; lia|].
        destruct (lower (byte c1) =? 120); injection Hpre as <- _; lia.
      - injection Hpre as <- _; lia. }
    destruct (digits_value digits base 0) as [w|] eqn:Hw; [|discriminate].
    destruct (has_underscore digits && negb _); [discriminate|].
    intros [= <-]. apply (digits_value_ge digits base 0 w Hb ltac:(lia) Hw). }
  assert (Hcase : forall (neg : bool) s1,
    match match unsigned_literal_value s1 with
          | Some v => Some (if neg then - v else v)
          | None => None
          end with
    | Some v =>
        (let '(un, err) := ParseUint s1 0 32 in
         match err with
         | Some ErrRange | None =>
             if negb neg && (2147483648 <=? un) then (2147483648 - 1, Some ErrRange)
             else if neg && (2147483648 <? un) then (- 2147483648, Some ErrRange)
             else (if neg then - un else un, None)
         | Some e => (0, Some e)
         end) =
        (if (-2147483648 <=? v) && (v <=? 2147483647) then (v, None)
         else (if v <? 0 then -2147483648 else 2147483647, Some ErrRange))
    | None =>
        exists n e,
          (let '(un, err) := ParseUint s1 0 32 in
           match err with
           | Some ErrRange | None =>
               if negb neg && (2147483648 <=? un) then (2147483648 - 1, Some ErrRange)
               else if neg && (2147483648 <? un) then (- 2147483648, Some ErrRange)
               else (if neg then - un else un, None)
           | Some e => (0, Some e)
           end) = (n, Some e)
    end).
  { intros neg s1. pose proof (ParseUint_value s1) as Hu.
    pose proof (Hsome s1) as Hpos.
    destruct (unsigned_literal_value s1) as [v|].
    - specialize (Hpos v eq_refl). rewrite Hu.
      destruct (Z.leb_spec v 4294967295) as [Hv|Hv].
      + destruct neg; cbn [negb andb];
          repeat match goal with
                 | |- context [Z.leb ?a ?b] => destruct (Z.leb_spec a b)
                 | |- context [Z.ltb ?a ?b] => destruct (Z.ltb_spec a b)
                 end; cbn [andb]; try reflexivity; try lia.
      + destruct neg; cbn [negb andb];
          repeat match goal with
                 | |- context [Z.leb ?a ?b] => destruct (Z.leb_spec a b)
                 | |- context [Z.ltb ?a ?b] => destruct (Z.ltb_spec a b)
                 end; cbn [andb]; try reflexivity; try lia.
    - destruct Hu as (n & e & -> & [-> | [-> ->]]).
      + eexists _, _; reflexivity.
      + destruct neg; cbn; eexists _, _; reflexivity. }
  destruct (byte c0 =? 43).
  - pose proof (Hcase false rest) as H.
    destruct (unsigned_literal_value rest); exact H.
  - destruct (byte c0 =? 45).
    + pose proof (Hcase true rest) as H.
      destruct (unsigned_literal_value rest); exact H.
    + pose proof (Hcase false (String c0 rest)) as H.
      destruct (unsigned_literal_value (String c0 rest)); exact H.
Qed.

(** C10. For a Counter reached by [--long=V], the value is parsed by
    [ParseInt] with base 0 and a bit size of 32.  For every [V]: when [V] is
    an integer literal (optional sign, prefix [0b], [0o], [0x] or leading
    [0] for the base, underscores between digits) whose value lies within
    the signed 32-bit range, the call succeeds and the count is that value;
    when the value lies outside the range, and when [V] is no literal, the
    call fails with the number-parse error and leaves the state as it was.
    So the stored count is always within the 32-bit range, although the
    field has 64 bits: [3000000000], [+3000000000], [3_000_000_000],
    [0x80000000] and [040000000000] are refused, [0b11], [0o17] and [0x1F]
    are stored. *)
Theorem C10_counter_assignment_int32 (st : Store) (long : string) (h : nat)
    (c : OptCount) :
  optByLong st !! long = Some h ->
  heap st !! h = Some (POptCount c) ->
  IndexByte long "="%char = None ->
  (forall V : string,
     (exists n, min_int32 <= n <= max_int32 /\
        ParseArgv stdin ["--" +:+ long +:+ "=" +:+ V] st =
          (Success, store_at h (POptCount (set_Count n c)) st)) \/
     ParseArgv stdin ["--" +:+ long +:+ "=" +:+ V] st =
       (Failure (NumberParseError V long), st)) /\
  (forall V : string,
     ParseArgv stdin ["--" +:+ long +:+ "=" +:+ V] st =
       match literal_value V with
       | Some v =>
           if (min_int32 <=? v) && (v <=? max_int32)
           then (Success, store_at h (POptCount (set_Count v c)) st)
           else (Failure (NumberParseError V long), st)
       | None => (Failure (NumberParseError V long), st)
       end) /\
  (forall V : string, is_decimal V = true ->
     (max_int32 < decimal_value V 0 ->
      ParseArgv stdin ["--" +:+ long +:+ "=" +:+ V] st =
        (Failure (NumberParseError V long), st)) /\
     (decimal_value V 0 <= max_int32 ->
      ParseArgv stdin ["--" +:+ long +:+ "=" +:+ V] st =
        (Success, store_at h (POptCount (set_Count (decimal_value V 0) c)) st)) /\
     (- decimal_value V 0 < min_int32 ->
      ParseArgv stdin ["--" +:+ long +:+ "=" +:+ String "-" V] st =
        (Failure (NumberParseError (String "-" V) long), st))) /\
  ParseArgv stdin ["--" +:+ long +:+ "=" +:+ "3000000000"] st =
    (Failure (NumberParseError "3000000000" long), st) /\
  ParseArgv stdin ["--" +:+ long +:+ "=" +:+ "0b11"] st =
    (Success, store_at h (POptCount (set_Count 3 c)) st) /\
  ParseArgv stdin ["--" +:+ long +:+ "=" +:+ "0o17"] st =
    (Success, store_at h (POptCount (set_Count 15 c)) st) /\
  ParseArgv stdin ["--" +:+ long +:+ "=" +:+ "0x1F"] st =
    (Success, store_at h (POptCount (set_Count 31 c)) st) /\
  ParseArgv stdin ["--" +:+ long +:+ "=" +:+ "+3000000000"] st =
    (Failure (NumberParseError "+3000000000" long), st) /\
  ParseArgv stdin ["--" +:+ long +:+ "=" +:+ "3_000_000_000"] st =
    (Failure (NumberParseError "3_000_000_000" long), st) /\
  ParseArgv stdin ["--" +:+ long +:+ "=" +:+ "0x80000000"] st =
    (Failure (NumberParseError "0x80000000" long), st) /\
  ParseArgv stdin ["--" +:+ long +:+ "=" +:+ "040000000000"] st =
    (Failure (NumberParseError "040000000000" long), st).
Proof.
  intros Hl Hh Hi.
  assert (Hassign : forall V,
    ParseArgv stdin ["--" +:+ long +:+ "=" +:+ V] st =
      match ParseInt V 0 32 with
      | (_, Some _) => (Failure (NumberParseError V long), st)
      | (n, None) => (Success, store_at h (POptCount (set_Count n c)) st)
      end).
  { intros V. unfold ParseArgv. cbn [loop].
    rewrite body_long_assign by (assumption || reflexivity).
    cbn [store initial_Locals]. rewrite Hl. unfold assign_switch.
    cbn [store initial_Locals]. rewrite Hh.
    destruct (ParseInt V 0 32) as [n [e|]]; reflexivity. }
  split; [|split; [|split]].
  - intros V. rewrite Hassign.
    destruct (ParseInt V 0 32) as [n [e|]] eqn:Hp; [right; reflexivity|].
    left. exists n. split; [apply (ParseInt_32 V n Hp) | reflexivity].
  - intros V. rewrite Hassign. pose proof (ParseInt_literal V) as Hlit.
    destruct (literal_value V) as [v|].
    + rewrite Hlit.
      destruct ((min_int32 <=? v) && (v <=? max_int32)); reflexivity.
    + destruct Hlit as (n & e & ->). reflexivity.
  - intros V HV. repeat split.
    + intros Hbig. rewrite Hassign, ParseInt_decimal by assumption.
      destruct (Z.leb_spec (decimal_value V 0) max_int32); [lia|reflexivity].
    + intros Hfit. rewrite Hassign, ParseInt_decimal by assumption.
      destruct (Z.leb_spec (decimal_value V 0) max_int32); [reflexivity|lia].
    + intros Hsmall. rewrite Hassign, ParseInt_decimal_neg by assumption.
      destruct (Z.leb_spec (decimal_value V 0) (- min_int32)); [lia|reflexivity].
  - repeat split; rewrite Hassign; reflexivity.
Qed.

(** When the stream ends in the awaiting state for a recorded descriptor, the
    error names its short character and its long name. *)
Lemma finish_awaiting (ls : Locals) (h : nat) :
  (forall o, awaiting_arg ls h o ->
     finish ls =
       (Failure (ExpectingArgument (OptArg_Short o) (OptArg_Long o)), store ls)) /\
  (forall v, awaiting_vec ls h v ->
     finish ls =
       (Failure (ExpectingArgument (OptVec_Short v) (OptVec_Long v)), store ls)).
Proof.
  split.
  - intros o (He & Hk & Hw & Hh). unfold finish. rewrite He, Hk, Hw, Hh. reflexivity.
  - intros v (He & Hk & Hw & Hh). unfold finish. rewrite He, Hk, Hw, Hh. reflexivity.
Qed.

(** A group of shorts that ends on a single-value option sets the awaiting
    flags and leaves [waiting_opt] as it was. *)
Lemma short_group_last_arg (x : ascii) (ls : Locals) (h : nat) (o : OptArg) :
  optByShort (store ls) !! x = Some h ->
  heap (store ls) !! h = Some (POptArg o) ->
  short_group (String x EmptyString) ls =
    Continue (mkLocals (store ls) true true (waiting_opt ls) (waiting_vec ls)).
Proof. intros Hs Hh. cbn [short_group]. rewrite Hs, Hh. reflexivity. Qed.

(** C9. An empty token is skipped in every state of the parser, the awaiting
    state included; so for a registered SingleArg, [file] for one, the
    arguments [--file] and the empty string end in the missing-argument
    error for that descriptor, and the state is as before the call: the
    value is not set. *)
Theorem C9_empty_token_skipped :
  (forall (tail : list string) (ls : Locals),
     body stdin EmptyString tail ls = Continue ls) /\
  (forall (st : Store) (long : string) (h : nat) (o : OptArg),
     usable_long long ->
     optByLong st !! long = Some h ->
     heap st !! h = Some (POptArg o) ->
     ParseArgv stdin ["--" +:+ long; ""] st =
       (Failure (ExpectingArgument (OptArg_Short o) (OptArg_Long o)), st)).
Proof.
  split; [reflexivity|].
  intros st long h o [Hne Hi] Hl Hh. unfold ParseArgv. cbn [loop].
  rewrite body_long_bare by (assumption || reflexivity).
  cbn [store initial_Locals]. rewrite Hl. unfold bare_switch.
  cbn [store initial_Locals]. rewrite Hh.
  cbn [body loop]. unfold finish. cbn. rewrite Hh. reflexivity.
Qed.

End Properties.

(** ** The properties at concrete registries *)

(** C6. With a Flag ['a'] and a SingleArg ['f'] registered, the arguments
    ["-af"] end the stream in the awaiting state; the call does not return
    the missing-argument error for [f]/[file]: it panics on the nil
    [waiting_opt], the flag already set.  After an earlier [--out x], the
    same group makes the error name [o]/[out]. *)
Theorem C6_group_ending_in_arg_at_end :
  observe (ParseArgv default_StdinHandler ["-af"] about_and_file) =
    (Panic "invalid memory address or nil pointer dereference",
     [PFlag (mkFlag "about" "topic" "a" true);
      POptArg (mkOptArg "file" "file to read" "f" "")],
     []) /\
  fst (ParseArgv default_StdinHandler ["--out"; "x"; "-af"] about_out_file) =
    Failure (ExpectingArgument "o" "out").
Proof. split; vm_compute; reflexivity. Qed.

(** C1. After a group of shorts that ends on a SingleArg or a MultiArg the
    next token is not taken as the value.  With the flag [a] and the
    SingleArg [f] registered, ["-af"; "x"] panics on the nil [waiting_opt]
    with [a] set and [file] still empty, and ["-al"; "x"] does so for a
    MultiArg [l] on the nil [waiting_vec]; after an earlier [--out o], the
    value [x] meant for [file] is written to [out]. *)
Theorem C1_group_then_value :
  observe (ParseArgv default_StdinHandler ["-af"; "x"] about_and_file) =
    (Panic "invalid memory address or nil pointer dereference",
     [PFlag (mkFlag "about" "topic" "a" true);
      POptArg (mkOptArg "file" "file to read" "f" "")],
     []) /\
  observe (ParseArgv default_StdinHandler ["-al"; "x"] about_and_list) =
    (Panic "invalid memory address or nil pointer dereference",
     [PFlag (mkFlag "about" "topic" "a" true);
      POptVec (mkOptVec "list" "files to read" "l" [])],
     []) /\
  observe (ParseArgv default_StdinHandler ["--out"; "o"; "-af"; "x"] about_out_file) =
    (Success,
     [PFlag (mkFlag "about" "topic" "a" true);
      POptArg (mkOptArg "out" "file to write" "o" "x");
      POptArg (mkOptArg "file" "file to read" "f" "")],
     []).
Proof. split; [|split]; vm_compute; reflexivity. Qed.

(** X20 at work: awaiting the value of [file], the token ["-a"], which names
    a registered flag, becomes the value; awaiting a value for [list], it is
    appended behind the value already there. *)
Lemma awaited_value_consumed_witness :
  (let ls := mkLocals about_and_file true true (Some 1%nat) None in
   exists ls',
     body default_StdinHandler "-a" [] ls = Continue ls' /\
     expecting_opt ls' = false /\
     exists o', heap (store ls') !! 1%nat = Some (POptArg o') /\
                OptArg_Opt o' = "-a") /\
  (let ls := mkLocals
               (preset 1 (POptVec (mkOptVec "list" "files to read" "l" ["x"]))
                  about_and_list) true false None (Some 1%nat) in
   exists ls',
     body default_StdinHandler "-a" [] ls = Continue ls' /\
     expecting_opt ls' = false /\
     exists v', heap (store ls') !! 1%nat = Some (POptVec v') /\
                OptVec_OptArgs v' = ["x"; "-a"]).
Proof.
  assert (Hne : "-a" <> EmptyString) by discriminate.
  split.
  - intros ls.
    destruct (awaited_value_consumed default_StdinHandler "-a" [] ls 1 Hne)
      as [Harg _].
    destruct (Harg (mkOptArg "file" "file to read" "f" ""))
      as (ls' & o' & Hb & _ & He & Hh & Hv & _).
    { repeat split; reflexivity. }
    exists ls'. split; [exact Hb|]. split; [exact He|].
    exists o'. split; [exact Hh | exact Hv].
  - intros ls.
    destruct (awaited_value_consumed default_StdinHandler "-a" [] ls 1 Hne)
      as [_ Hvec].
    destruct (Hvec (mkOptVec "list" "files to read" "l" ["x"]))
      as (ls' & v' & Hb & _ & He & Hh & Hv & _).
    { repeat split; reflexivity. }
    exists ls'. split; [exact Hb|]. split; [exact He|].
    exists v'. split; [exact Hh | exact Hv].
Defined.

(** C2 at work: the fourth scenario of the specification. *)
Lemma C2_witness :
  observe (ParseArgv default_StdinHandler
             ["hello"; "--"; "--file"; "-f"; "world"] (with_flag "f" "file")) =
    (Success, [PFlag (mkFlag "file" "" "f" false)],
     ["hello"; "--file"; "-f"; "world"]).
Proof.
  change ["hello"; "--"; "--file"; "-f"; "world"]
    with (["hello"] ++ "--" :: ["--file"; "-f"; "world"])%list.
  rewrite (C2_terminator default_StdinHandler ["hello"] ["--file"; "-f"; "world"]
             (with_flag "f" "file")
             (with_store (append_Rest "hello" (with_flag "f" "file"))
                (initial_Locals (with_flag "f" "file")))
             eq_refl eq_refl).
  reflexivity.
Defined.

(** C3 at work: [--file hello.txt], then [-fbye.txt]. *)
Lemma C3_witness :
  observe (ParseArgv default_StdinHandler ["--file"; "hello.txt"]
             (with_arg "f" "file")) =
    (Success, [POptArg (mkOptArg "file" "" "f" "hello.txt")], []) /\
  observe (ParseArgv default_StdinHandler ["--file"; "hello.txt"; "-fbye.txt"]
             (with_arg "f" "file")) =
    (Success, [POptArg (mkOptArg "file" "" "f" "bye.txt")], []).
Proof.
  assert (Hreg : registered (with_arg "f" "file") "f" "file" 0
                   (POptArg (mkOptArg "file" "" "f" "")))
    by (repeat split; reflexivity).
  assert (Hfit : form_fits "f" "file" LongSep "hello.txt")
    by (split; [split; [discriminate | reflexivity] | discriminate]).
  assert (Hfit2 : form_fits "f" "file" Attached "bye.txt")
    by (split; discriminate).
  destruct (C3_single_arg_value default_StdinHandler _ _ _ _ _ _ _
              Hreg Hfit) as [H1 H2].
  split.
  - change ["--file"; "hello.txt"] with (occurrence "f" "file" LongSep "hello.txt").
    rewrite H1. reflexivity.
  - change ["--file"; "hello.txt"; "-fbye.txt"]
      with (occurrence "f" "file" LongSep "hello.txt"
            ++ occurrence "f" "file" Attached "bye.txt")%list.
    rewrite (H2 Attached "bye.txt" Hfit2). reflexivity.
Defined.

(** C3 as first stated fails: an empty value given as a token of its own does
    not replace the value [a] and the call ends in an error; a long name with
    ['='], an empty long name and the short character ['-'] keep their
    tokens from the descriptor; [-f] without attached value awaits one. *)
Lemma C3_counterexample :
  observe (ParseArgv default_StdinHandler
             (occurrence "f" "file" LongEq "a" ++ occurrence "f" "file" LongSep "")
             (with_arg "f" "file")) =
    (Failure (ExpectingArgument "f" "file"),
     [POptArg (mkOptArg "file" "" "f" "a")], []) /\
  observe (ParseArgv default_StdinHandler
             (occurrence "f" "file" LongEq "a" ++ occurrence "f" "file" Attached "")
             (with_arg "f" "file")) =
    (Failure (ExpectingArgument "f" "file"),
     [POptArg (mkOptArg "file" "" "f" "a")], []) /\
  observe (ParseArgv default_StdinHandler (occurrence "o" "a=b" LongEq "V")
             (with_arg "o" "a=b")) =
    (Success, [POptArg (mkOptArg "a=b" "" "o" "")], []) /\
  observe (ParseArgv default_StdinHandler (occurrence "o" "a=b" LongSep "V")
             (with_arg "o" "a=b")) =
    (Success, [POptArg (mkOptArg "a=b" "" "o" "")], ["V"]) /\
  observe (ParseArgv default_StdinHandler (occurrence "o" "" LongSep "V")
             (with_arg "o" "")) =
    (Success, [POptArg (mkOptArg "" "" "o" "")], ["V"]) /\
  observe (ParseArgv default_StdinHandler (occurrence "-" "file" Attached "V")
             (with_arg "-" "file")) =
    (Failure (UnrecognizedLong "V"), [POptArg (mkOptArg "file" "" "-" "")], []).
Proof. repeat split. Qed.

(** C4 at work on the counter [v]/[verbose] of the tests. *)
Lemma C4_witness :
  observe (ParseArgv default_StdinHandler ["-vvv"] (with_count "v" "verbose")) =
    (Success, [POptCount (mkOptCount "verbose" "" "v" 3)], []) /\
  observe (ParseArgv default_StdinHandler ["--verbose"; "--verbose"; "--verbose"]
             (with_count "v" "verbose")) =
    (Success, [POptCount (mkOptCount "verbose" "" "v" 3)], []) /\
  observe (ParseArgv default_StdinHandler ["--verbose=3"]
             (with_count "v" "verbose")) =
    (Success, [POptCount (mkOptCount "verbose" "" "v" 3)], []) /\
  observe (ParseArgv default_StdinHandler ["+v"] (with_count "v" "verbose")) =
    (Success, [POptCount (mkOptCount "verbose" "" "v" (-1))], []).
Proof.
  assert (Hreg : registered (with_count "v" "verbose") "v" "verbose" 0
                   (POptCount (mkOptCount "verbose" "" "v" 0)))
    by (repeat split; reflexivity).
  destruct (C4_counter default_StdinHandler _ _ _ _ _ Hreg)
    as (Hgroup & Hlong & Hassign & Hminus).
  assert (Hx : "v"%char <> "-"%char) by discriminate.
  assert (Hl : usable_long "verbose") by (split; [discriminate | reflexivity]).
  assert (Hr : min_int64 < 0 <= max_int64) by (split; reflexivity || discriminate).
  split; [|split; [|split]].
  - change ["-vvv"] with [String "-" (String "v" (String "v" (String "v" EmptyString)))].
    rewrite (Hgroup eq_refl Hx). reflexivity.
  - change "--verbose" with ("--" +:+ "verbose").
    rewrite (Hlong eq_refl Hl). reflexivity.
  - change "--verbose=3" with ("--" +:+ "verbose" +:+ "=" +:+ "3").
    rewrite (Hassign eq_refl). reflexivity.
  - change ["+v"] with [String "+" (String "v" EmptyString)].
    rewrite (Hminus Hr). reflexivity.
Defined.

(** C4 as first stated fails for a Counter under the short character ['-'],
    whose group ["----"] is read as a long option; under an empty long name,
    whose token is the terminator; under a long name with ['='], whose
    tokens are read as assignments to another name; and [+x] at the least
    [int64] wraps around. *)
Lemma C4_counterexample :
  observe (ParseArgv default_StdinHandler
             [String "-" (String "-" (String "-" (String "-" EmptyString)))]
             (with_count "-" "verbose")) =
    (Failure (UnrecognizedLong "--"),
     [POptCount (mkOptCount "verbose" "" "-" 0)], []) /\
  observe (ParseArgv default_StdinHandler ["--" +:+ ""; "--" +:+ ""; "--" +:+ ""]
             (with_count "v" "")) =
    (Success, [POptCount (mkOptCount "" "" "v" 0)], ["--"; "--"]) /\
  observe (ParseArgv default_StdinHandler
             ["--" +:+ "a=b"; "--" +:+ "a=b"; "--" +:+ "a=b"]
             (with_count "v" "a=b")) =
    (Success, [POptCount (mkOptCount "a=b" "" "v" 0)], []) /\
  observe (ParseArgv default_StdinHandler ["--" +:+ "a=b" +:+ "=" +:+ "3"]
             (with_count "v" "a=b")) =
    (Success, [POptCount (mkOptCount "a=b" "" "v" 0)], []) /\
  observe (ParseArgv default_StdinHandler ["+v"]
             (preset 0 (POptCount (mkOptCount "verbose" "" "v" min_int64))
                (with_count "v" "verbose"))) =
    (Success, [POptCount (mkOptCount "verbose" "" "v" max_int64)], []).
Proof. repeat split. Qed.

(** C5 at work on the flag [f]/[force] of the tests. *)
Lemma C5_witness :
  observe (ParseArgv default_StdinHandler ["-f"] (with_flag "f" "force")) =
    (Success, [PFlag (mkFlag "force" "" "f" true)], []) /\
  observe (ParseArgv default_StdinHandler ["--force"] (with_flag "f" "force")) =
    (Success, [PFlag (mkFlag "force" "" "f" true)], []) /\
  observe (ParseArgv default_StdinHandler ["+f"] (with_flag "f" "force")) =
    (Success, [PFlag (mkFlag "force" "" "f" false)], []) /\
  observe (ParseArgv default_StdinHandler ["--force=TRUE"] (with_flag "f" "force")) =
    (Success, [PFlag (mkFlag "force" "" "f" true)], []) /\
  observe (ParseArgv default_StdinHandler ["--force=Fase"] (with_flag "f" "force")) =
    (Failure BooleanParseError, [PFlag (mkFlag "force" "" "f" false)], []) /\
  observe (ParseArgv default_StdinHandler
             ["--" +:+ "force" +:+ "=" +:+
              String (ascii_of_nat 195) (String (ascii_of_nat 169) EmptyString)]
             (with_flag "f" "force")) =
    (Failure BooleanParseError, [PFlag (mkFlag "force" "" "f" false)], []).
Proof.
  assert (Hreg : registered (with_flag "f" "force") "f" "force" 0
                   (PFlag (mkFlag "force" "" "f" false)))
    by (repeat split; reflexivity).
  destruct (C5_flag default_StdinHandler _ _ _ _ _ Hreg)
    as (Hshort & Hlong & Hminus & Hassign & Hlits).
  assert (Hx : "f"%char <> "-"%char) by discriminate.
  assert (Hl : usable_long "force") by (split; [discriminate | reflexivity]).
  destruct (Hlits eq_refl) as (_ & _ & Hfase).
  split; [|split; [|split; [|split; [|split]]]].
  - change ["-f"] with [String "-" (String "f" EmptyString)].
    rewrite (Hshort Hx). reflexivity.
  - change "--force" with ("--" +:+ "force").
    rewrite (Hlong Hl). reflexivity.
  - change ["+f"] with [String "+" (String "f" EmptyString)].
    rewrite Hminus. reflexivity.
  - change "--force=TRUE" with ("--" +:+ "force" +:+ "=" +:+ "TRUE").
    rewrite (Hassign eq_refl "TRUE"). reflexivity.
  - change "--force=Fase" with ("--" +:+ "force" +:+ "=" +:+ "Fase").
    rewrite Hfase. reflexivity.
  - rewrite (Hassign eq_refl). reflexivity.
Defined.

(** C5 as first stated fails for a Flag under the short character ['-'] or
    under an empty long name, whose token is the terminator, and under a
    long name with ['='], whose tokens are read as assignments to another
    name; and a value with the two bytes of U+017F in the place of [s] is
    taken for [false]. *)
Lemma C5_counterexample :
  observe (ParseArgv default_StdinHandler [String "-" (String "-" EmptyString)]
             (with_flag "-" "force")) =
    (Success, [PFlag (mkFlag "force" "" "-" false)], []) /\
  observe (ParseArgv default_StdinHandler ["--" +:+ ""] (with_flag "f" "")) =
    (Success, [PFlag (mkFlag "" "" "f" false)], []) /\
  observe (ParseArgv default_StdinHandler ["--" +:+ "a=b"] (with_flag "f" "a=b")) =
    (Success, [PFlag (mkFlag "a=b" "" "f" false)], []) /\
  observe (ParseArgv default_StdinHandler ["--" +:+ "a=b" +:+ "=" +:+ "false"]
             (preset 0 (PFlag (mkFlag "a=b" "" "f" true)) (with_flag "f" "a=b"))) =
    (Success, [PFlag (mkFlag "a=b" "" "f" true)], []) /\
  observe (ParseArgv default_StdinHandler
             ["--" +:+ "force" +:+ "=" +:+
              String "f" (String "a" (String "l"
                (String (ascii_of_nat 197) (String (ascii_of_nat 191)
                   (String "e" EmptyString)))))]
             (preset 0 (PFlag (mkFlag "force" "" "f" true)) (with_flag "f" "force"))) =
    (Success, [PFlag (mkFlag "force" "" "f" false)], []).
Proof. repeat split. Qed.

(** C7 at work: [-abz] and [+abz] with [a] and [b] registered and [z] not. *)
Lemma C7_witness :
  observe (loop default_StdinHandler ["-abz"; "rest"]
             (initial_Locals about_and_before)) =
    (Failure (UnrecognizedShort "z"),
     [PFlag (mkFlag "about" "topic" "a" true);
      PFlag (mkFlag "before" "date prior" "b" true)], []) /\
  observe (loop default_StdinHandler ["+abz"; "rest"]
             (initial_Locals
                (preset 0 (PFlag (mkFlag "about" "topic" "a" true)) about_and_before))) =
    (Failure (UnrecognizedShort "z"),
     [PFlag (mkFlag "about" "topic" "a" false);
      PFlag (mkFlag "before" "date prior" "b" false)], []).
Proof.
  split.
  - destruct (C7_group_unknown_char default_StdinHandler "ab" "z" "" ["rest"]
                (initial_Locals about_and_before) eq_refl
                ltac:(vm_compute; lia) eq_refl) as [Hpos _].
    change "-abz" with (String "-" ("ab" +:+ String "z" "")).
    rewrite (Hpos eq_refl eq_refl). reflexivity.
  - destruct (C7_group_unknown_char default_StdinHandler "ab" "z" "" ["rest"]
                (initial_Locals
                   (preset 0 (PFlag (mkFlag "about" "topic" "a" true))
                      about_and_before)) eq_refl
                ltac:(vm_compute; lia) eq_refl) as [_ Hneg].
    change "+abz" with (String "+" ("ab" +:+ String "z" "")).
    rewrite (Hneg eq_refl). reflexivity.
Defined.

(** C7 as first stated fails: in [-fhello.txt] the characters after [f] are
    in no entry of the short map, and the call succeeds with them as the
    value of [file]. *)
Lemma C7_counterexample :
  optByShort (with_arg "f" "file") !! "h"%char = None /\
  observe (ParseArgv default_StdinHandler ["-fhello.txt"] (with_arg "f" "file")) =
    (Success, [POptArg (mkOptArg "file" "" "f" "hello.txt")], []).
Proof. split; reflexivity. Qed.

(** C8 at work: [-q] and [+q] with no [q] registered. *)
Lemma C8_witness :
  ParseArgv default_StdinHandler ["-q"] about_and_file = (Success, about_and_file) /\
  ParseArgv default_StdinHandler ["+q"] about_and_file = (Success, about_and_file).
Proof.
  destruct (C8_unknown_short_ignored default_StdinHandler "q" []
              (initial_Locals about_and_file) eq_refl eq_refl)
    as (Hminus & Hplus & _).
  split.
  - apply Hminus. discriminate.
  - apply Hplus.
Defined.

(** C8 as first stated fails for [c] = ['-']: with ['-'] in no entry of the
    short map, the token ["--"] puts the tokens after it on [Rest]. *)
Lemma C8_counterexample :
  optByShort empty_Store !! "-"%char = None /\
  observe (ParseArgv default_StdinHandler
             [String "-" (String "-" EmptyString); "x"] empty_Store) =
    (Success, [], ["x"]).
Proof. split; reflexivity. Qed.

(** C9 at work on the option [f]/[file] of the tests. *)
Lemma C9_witness :
  ParseArgv default_StdinHandler ["--file"; ""] (with_arg "f" "file") =
    (Failure (ExpectingArgument "f" "file"), with_arg "f" "file").
Proof.
  destruct (C9_empty_token_skipped default_StdinHandler) as [_ Hfile].
  apply (Hfile (with_arg "f" "file") "file" 0%nat (mkOptArg "file" "" "f" ""));
    [split; [discriminate | reflexivity] | reflexivity | reflexivity].
Defined.

(** C10 at work on the counter [v]/[verbose] of the tests. *)
Lemma C10_witness :
  observe (ParseArgv default_StdinHandler ["--verbose=3000000000"]
             (with_count "v" "verbose")) =
    (Failure (NumberParseError "3000000000" "verbose"),
     [POptCount (mkOptCount "verbose" "" "v" 0)], []) /\
  observe (ParseArgv default_StdinHandler ["--verbose=2147483647"]
             (with_count "v" "verbose")) =
    (Success, [POptCount (mkOptCount "verbose" "" "v" 2147483647)], []) /\
  observe (ParseArgv default_StdinHandler ["--verbose=-2147483649"]
             (with_count "v" "verbose")) =
    (Failure (NumberParseError "-2147483649" "verbose"),
     [POptCount (mkOptCount "verbose" "" "v" 0)], []) /\
  observe (ParseArgv default_StdinHandler ["--verbose=0x7fff_FFFF"]
             (with_count "v" "verbose")) =
    (Success, [POptCount (mkOptCount "verbose" "" "v" 2147483647)], []) /\
  observe (ParseArgv default_StdinHandler ["--verbose=-0x8000_0001"]
             (with_count "v" "verbose")) =
    (Failure (NumberParseError "-0x8000_0001" "verbose"),
     [POptCount (mkOptCount "verbose" "" "v" 0)], []).
Proof.
  destruct (C10_counter_assignment_int32 default_StdinHandler
              (with_count "v" "verbose") "verbose" 0
              (mkOptCount "verbose" "" "v" 0) eq_refl eq_refl eq_refl)
    as (_ & Hlit & Hdec & _).
  split; [|split; [|split; [|split]]].
  - destruct (Hdec "3000000000" eq_refl) as (Hbig & _ & _).
    change "--verbose=3000000000" with ("--" +:+ "verbose" +:+ "=" +:+ "3000000000").
    rewrite Hbig by reflexivity. reflexivity.
  - destruct (Hdec "2147483647" eq_refl) as (_ & Hfit & _).
    change "--verbose=2147483647" with ("--" +:+ "verbose" +:+ "=" +:+ "2147483647").
    rewrite Hfit by discriminate. reflexivity.
  - destruct (Hdec "2147483649" eq_refl) as (_ & _ & Hsmall).
    change "--verbose=-2147483649"
      with ("--" +:+ "verbose" +:+ "=" +:+ String "-" "2147483649").
    rewrite Hsmall by reflexivity. reflexivity.
  - change "--verbose=0x7fff_FFFF"
      with ("--" +:+ "verbose" +:+ "=" +:+ "0x7fff_FFFF").
    rewrite (Hlit "0x7fff_FFFF"). reflexivity.
  - change "--verbose=-0x8000_0001"
      with ("--" +:+ "verbose" +:+ "=" +:+ "-0x8000_0001").
    rewrite (Hlit "-0x8000_0001"). reflexivity.
Defined.

(** ** Further properties: registration *)

Lemma register_registered (x : ascii) (long : string) (o : Opt) (st : Store) :
  registered (snd (register x long o st)) x long (fst (register x long o st)) o.
Proof.
  unfold registered, register; cbn [fst snd heap optByShort optByLong].
  split; [apply lookup_insert_eq|]. split; [apply lookup_insert_eq|].
  rewrite lookup_app_r by lia. now rewrite Nat.sub_diag.
Qed.

(** X1. Each constructor returns a handle under which both maps find the new
    descriptor, with the given names and help text and the zero value of its
    kind: [Passed] false, [Opt] empty, [OptArgs] empty, [Count] zero. *)
Theorem New_lookup (x : ascii) (long help : string) (st : Store) :
  registered (snd (NewFlag x long help st)) x long (fst (NewFlag x long help st))
    (PFlag (mkFlag long help x false)) /\
  registered (snd (NewOptArg x long help st)) x long (fst (NewOptArg x long help st))
    (POptArg (mkOptArg long help x "")) /\
  registered (snd (NewOptVec x long help st)) x long (fst (NewOptVec x long help st))
    (POptVec (mkOptVec long help x [])) /\
  registered (snd (NewOptCount x long help st)) x long
    (fst (NewOptCount x long help st))
    (POptCount (mkOptCount long help x 0)).
Proof. repeat split; apply register_registered. Qed.

(** X2. A registration touches nothing but the two keys it is given: every
    other short character and long name keeps its entry, [Rest] is
    unchanged, and every descriptor that existed stays behind its handle
    unchanged, also the one that the new registration hides when a key is
    used again. *)
Theorem register_frame (x : ascii) (long : string) (o : Opt) (st : Store) :
  (forall c, c <> x ->
     optByShort (snd (register x long o st)) !! c = optByShort st !! c) /\
  (forall n, n <> long ->
     optByLong (snd (register x long o st)) !! n = optByLong st !! n) /\
  (forall h o', heap st !! h = Some o' ->
     heap (snd (register x long o st)) !! h = Some o' /\
     h <> fst (register x long o st)) /\
  Rest (snd (register x long o st)) = Rest st.
Proof.
  unfold register; cbn [fst snd heap optByShort optByLong Rest].
  split; [|split; [|split]].
  - intros c Hc. apply lookup_insert_ne. congruence.
  - intros n Hn. apply lookup_insert_ne. congruence.
  - intros h o' Hh. pose proof (lookup_lt_Some _ _ _ Hh) as Hlt. split.
    + rewrite lookup_app_l by exact Hlt. exact Hh.
    + lia.
  - reflexivity.
Qed.

Lemma handles_valid_empty : handles_valid empty_Store.
Proof. split; intros k h Hk; cbn in Hk; rewrite lookup_empty in Hk; discriminate. Qed.

Lemma handles_valid_register (x : ascii) (long : string) (o : Opt) (st : Store) :
  handles_valid st -> handles_valid (snd (register x long o st)).
Proof.
  intros [Hs Hl].
  assert (Hnew : is_Some ((heap st ++ [o])%list !! length (heap st))).
  { rewrite lookup_app_r by lia. rewrite Nat.sub_diag. eexists; reflexivity. }
  assert (Hold : forall h, is_Some (heap st !! h) ->
                   is_Some ((heap st ++ [o])%list !! h)).
  { intros h [o' Ho']. exists o'.
    rewrite lookup_app_l by (eapply lookup_lt_Some; eassumption). exact Ho'. }
  unfold register; cbn [snd]. split; cbn [heap optByShort optByLong].
  - intros c h Hc. destruct (decide (x = c)) as [->|Hne].
    + rewrite lookup_insert_eq in Hc. injection Hc as <-. exact Hnew.
    + rewrite lookup_insert_ne in Hc by exact Hne. apply Hold. eapply Hs; eassumption.
  - intros n h Hn. destruct (decide (long = n)) as [->|Hne].
    + rewrite lookup_insert_eq in Hn. injection Hn as <-. exact Hnew.
    + rewrite lookup_insert_ne in Hn by exact Hne. apply Hold. eapply Hl; eassumption.
Qed.


(** ** Further properties: what a call keeps *)

Lemma same_descriptor_refl (o : Opt) : same_descriptor o o.
Proof. destruct o; repeat split. Qed.

Lemma same_descriptor_trans (o1 o2 o3 : Opt) :
  same_descriptor o1 o2 -> same_descriptor o2 o3 -> same_descriptor o1 o3.
Proof.
  destruct o1, o2, o3; cbn; try contradiction;
    intros (-> & -> & ->) (-> & -> & ->); repeat split.
Qed.

Lemma same_registry_refl (st : Store) : same_registry st st.
Proof.
  repeat split. apply Forall_Forall2_diag, Forall_forall.
  intros o _. apply same_descriptor_refl.
Qed.

Lemma same_registry_trans (s1 s2 s3 : Store) :
  same_registry s1 s2 -> same_registry s2 s3 -> same_registry s1 s3.
Proof.
  intros (Ha & Hb & Hc) (Ha' & Hb' & Hc'). repeat split; try congruence.
  eapply Forall2_trans; [|eassumption|eassumption].
  intros x y z. apply same_descriptor_trans.
Qed.

Lemma same_registry_set_Rest (st : Store) (r : list string) :
  same_registry st (set_Rest r st).
Proof. apply (same_registry_refl st). Qed.

Lemma only_values_refl (st : Store) : only_values st st.
Proof. split; [apply same_registry_refl | reflexivity]. Qed.

Lemma only_values_trans (s1 s2 s3 : Store) :
  only_values s1 s2 -> only_values s2 s3 -> only_values s1 s3.
Proof.
  intros [Ha Hb] [Ha' Hb']. split; [eapply same_registry_trans; eassumption|].
  congruence.
Qed.

Lemma only_values_store_at (st : Store) (h : nat) (o o' : Opt) :
  heap st !! h = Some o -> same_descriptor o o' ->
  only_values st (store_at h o' st).
Proof.
  intros Hh Hsame. split; [|reflexivity]. repeat split.
  cbn [heap store_at set_heap].
  rewrite <- (list_insert_id (heap st) h o Hh) at 1.
  apply Forall2_insert; [|exact Hsame].
  apply Forall_Forall2_diag, Forall_forall. intros x _. apply same_descriptor_refl.
Qed.

Lemma step_rel_trans (st st1 : Store) (s : Step) :
  only_values st st1 -> step_rel only_values st1 s -> step_rel only_values st s.
Proof. intros H1. destruct s; cbn; apply only_values_trans; exact H1. Qed.

Ltac value_write :=
  cbn [step_rel store with_store];
  first [ apply only_values_refl
        | eapply only_values_store_at; [eassumption | repeat split] ].

Lemma bare_switch_only (h : nat) (ls : Locals) :
  step_rel only_values (store ls) (bare_switch h ls).
Proof.
  unfold bare_switch.
  destruct (heap (store ls) !! h) as [[f|o|v|k]|] eqn:Hh; value_write.
Qed.

Lemma negate_switch_only (h : nat) (ls : Locals) :
  step_rel only_values (store ls) (negate_switch h ls).
Proof.
  unfold negate_switch.
  destruct (heap (store ls) !! h) as [[f|o|v|k]|] eqn:Hh; value_write.
Qed.

Lemma assign_switch_only (h : nat) (name opt : string) (ls : Locals) :
  step_rel only_values (store ls) (assign_switch h name opt ls).
Proof.
  unfold assign_switch.
  destruct (heap (store ls) !! h) as [[f|o|v|k]|] eqn:Hh; try value_write.
  - destruct (optargToBool opt); value_write.
  - destruct (ParseInt opt 0 32) as [n [e|]]; value_write.
Qed.

Lemma short_group_only (cs : string) (ls : Locals) :
  step_rel only_values (store ls) (short_group cs ls).
Proof.
  revert ls. induction cs as [|c rest IH]; intros ls; [value_write|].
  cbn [short_group].
  destruct (optByShort (store ls) !! c) as [h|]; [|value_write].
  destruct (heap (store ls) !! h) as [[f|o|v|k]|] eqn:Hh; try value_write.
  - eapply step_rel_trans; [|apply IH]. value_write.
  - destruct rest; [apply (IH (mkLocals _ _ _ _ _)) | value_write].
  - destruct rest; [apply (IH (mkLocals _ _ _ _ _)) | value_write].
  - eapply step_rel_trans; [|apply IH]. value_write.
Qed.

Lemma negated_group_only (cs : string) (ls : Locals) :
  step_rel only_values (store ls) (negated_group cs ls).
Proof.
  revert ls. induction cs as [|c rest IH]; intros ls; [value_write|].
  cbn [negated_group].
  destruct (optByShort (store ls) !! c) as [h|]; [|value_write].
  pose proof (negate_switch_only h ls) as Hn.
  destruct (negate_switch h ls) as [ls'|r st']; [|exact Hn].
  eapply step_rel_trans; [exact Hn | apply IH].
Qed.

Lemma only_values_effect (arg : string) (tail : list string) (st : Store)
    (s : Step) :
  step_rel only_values st s -> step_effect arg tail st s.
Proof. destruct s; cbn; intros [Hr HR]; (split; [exact Hr | left; exact HR]). Qed.

Section Further.

Variable stdin : Store -> option string * Store.

Lemma body_effect (arg : string) (tail : list string) (ls : Locals) :
  quiet stdin ->
  step_effect arg tail (store ls) (body stdin arg tail ls).
Proof.
  intros Hq. unfold body.
  destruct arg as [|c0 arg1]; [apply only_values_effect; value_write|].
  cbv zeta.
  destruct (expecting_opt ls).
  { apply only_values_effect.
    destruct (expecting_optarg ls).
    - destruct (waiting_opt ls) as [h|]; [|value_write].
      destruct (heap (store ls) !! h) as [[f|o|v|k]|] eqn:Hh; value_write.
    - destruct (waiting_vec ls) as [h|]; [|value_write].
      destruct (heap (store ls) !! h) as [[f|o|v|k]|] eqn:Hh; value_write. }
  destruct arg1 as [|c1 arg2].
  - destruct (Ascii.eqb c0 "-") eqn:Hc0.
    + pose proof (Hq (store ls)) as Hst.
      destruct (stdin (store ls)) as [[e|] st']; cbn in Hst; subst st';
        apply only_values_effect; value_write.
    + cbn. split; [apply same_registry_set_Rest|]. right. split; [reflexivity|].
      cbn. now rewrite Hc0.
  - destruct arg2 as [|c2 arg3].
    + destruct (Ascii.eqb c0 "-") eqn:Hc0.
      * destruct (Ascii.eqb c1 "-") eqn:Hc1.
        -- apply Ascii.eqb_eq in Hc0, Hc1. subst c0 c1.
           cbn. split; [apply same_registry_set_Rest|]. right. repeat split.
        -- apply only_values_effect.
           destruct (optByShort (store ls) !! c1);
             [apply bare_switch_only | value_write].
      * destruct (Ascii.eqb c0 "+") eqn:Hp.
        -- apply only_values_effect.
           destruct (optByShort (store ls) !! c1);
             [apply negate_switch_only | value_write].
        -- cbn. split; [apply same_registry_set_Rest|]. right. split; [reflexivity|].
           cbn. now rewrite Hc0, Hp.
    + destruct (Ascii.eqb c0 "-") eqn:Hc0.
      * apply only_values_effect.
        destruct (Ascii.eqb c1 "-"); [|apply short_group_only].
        destruct (IndexByte _ _).
        -- destruct (optByLong (store ls) !! _);
             [apply assign_switch_only | value_write].
        -- destruct (optByLong (store ls) !! _);
             [apply bare_switch_only | value_write].
      * destruct (Ascii.eqb c0 "+") eqn:Hp.
        -- apply only_values_effect, negated_group_only.
        -- cbn. split; [apply same_registry_set_Rest|]. right. split; [reflexivity|].
           cbn. now rewrite Hc0, Hp.
Qed.

Lemma finish_store (ls : Locals) : snd (finish ls) = store ls.
Proof.
  unfold finish.
  destruct (expecting_opt ls); [|reflexivity].
  destruct (expecting_optarg ls).
  - destruct (waiting_opt ls) as [h|]; [|reflexivity].
    destruct (heap (store ls) !! h) as [[f|o|v|k]|]; reflexivity.
  - destruct (waiting_vec ls) as [h|]; [|reflexivity].
    destruct (heap (store ls) !! h) as [[f|o|v|k]|]; reflexivity.
Qed.

Lemma loop_same_registry (argv : list string) (ls : Locals) :
  quiet stdin -> same_registry (store ls) (snd (loop stdin argv ls)).
Proof.
  intros Hq. revert ls. induction argv as [|arg tail IH]; intros ls.
  - cbn [loop]. rewrite finish_store. apply same_registry_refl.
  - cbn [loop]. pose proof (body_effect arg tail ls Hq) as He.
    destruct (body stdin arg tail ls) as [ls'|r st']; cbn in He.
    + eapply same_registry_trans; [apply He | apply IH].
    + apply He.
Qed.

(** X4. With a handler that leaves the package state alone, a call of
    [ParseArgv], whatever its arguments and its outcome, leaves both maps as
    they are and every descriptor in its place, of the same kind and with
    the same long name, help text and short character: only values move. *)
Theorem ParseArgv_same_registry (argv : list string) (st : Store) :
  quiet stdin -> same_registry st (snd (ParseArgv stdin argv st)).
Proof. intros Hq. apply (loop_same_registry argv (initial_Locals st) Hq). Qed.

Lemma loop_Rest (argv : list string) (ls : Locals) :
  quiet stdin ->
  exists l,
    Rest (snd (loop stdin argv ls)) = (Rest (store ls) ++ l)%list /\
    sublist l argv /\
    ("--" ∉ argv -> Forall (fun a => is_positional a = true) l).
Proof.
  intros Hq. revert ls. induction argv as [|arg tail IH]; intros ls.
  - exists []. cbn [loop]. rewrite finish_store, app_nil_r.
    repeat split; constructor.
  - cbn [loop]. pose proof (body_effect arg tail ls Hq) as He.
    destruct (body stdin arg tail ls) as [ls'|r st']; cbn in He;
      destruct He as [_ He].
    + destruct (IH ls') as (l & Hl & Hsub & Hpos).
      destruct He as [He | [He Hp]].
      * exists l. rewrite Hl, He. split; [reflexivity|].
        split; [apply sublist_cons; exact Hsub|].
        intros Hno. apply Hpos. intros Hin. apply Hno. now right.
      * exists (arg :: l). rewrite Hl, He, <- app_assoc. split; [reflexivity|].
        split; [apply sublist_skip; exact Hsub|].
        intros Hno. constructor; [exact Hp|].
        apply Hpos. intros Hin. apply Hno. now right.
    + cbn [snd]. destruct He as [He | (He & Harg & _)].
      * exists []. rewrite He, app_nil_r. repeat split; try constructor.
        apply sublist_nil_l.
      * exists tail. split; [exact He|]. split; [apply sublist_cons; reflexivity|].
        intros Hno. exfalso. apply Hno. subst arg. now left.
Qed.

(** X5. With a handler that leaves the package state alone, [Rest] only
    grows: after a call it is what it was, followed by some of the arguments
    in the order they were given; and when no argument is ["--"], every
    token added is positional (one byte other than ['-'], or longer and
    starting with neither ['-'] nor ['+']). *)
Theorem ParseArgv_Rest_grows (argv : list string) (st : Store) :
  quiet stdin ->
  exists l,
    Rest (snd (ParseArgv stdin argv st)) = (Rest st ++ l)%list /\
    sublist l argv /\
    ("--" ∉ argv -> Forall (fun a => is_positional a = true) l).
Proof. intros Hq. apply (loop_Rest argv (initial_Locals st) Hq). Qed.

Lemma body_positional (arg : string) (tail : list string) (ls : Locals) :
  is_positional arg = true -> expecting_opt ls = false ->
  body stdin arg tail ls = Continue (with_store (append_Rest arg (store ls)) ls).
Proof.
  intros Hp He. unfold body. rewrite He.
  destruct arg as [|c0 [|c1 [|c2 r]]]; cbn in Hp; try discriminate.
  - apply negb_true_iff in Hp. rewrite Hp. reflexivity.
  - apply andb_true_iff in Hp as [H1 H2].
    apply negb_true_iff in H1, H2. cbv zeta. rewrite H1, H2. reflexivity.
  - apply andb_true_iff in Hp as [H1 H2].
    apply negb_true_iff in H1, H2. cbv zeta. rewrite H1, H2. reflexivity.
Qed.

(** X6. Arguments that are all positional are moved to [Rest] in their
    order, the call succeeds, and nothing else changes; the handler is not
    called. *)
Theorem ParseArgv_positional (argv : list string) (st : Store) :
  Forall (fun a => is_positional a = true) argv ->
  ParseArgv stdin argv st = (Success, set_Rest (Rest st ++ argv) st).
Proof.
  intros Hall. unfold ParseArgv.
  assert (Hgen : forall ls, expecting_opt ls = false ->
            loop stdin argv ls =
              (Success, set_Rest (Rest (store ls) ++ argv) (store ls))).
  { induction Hall as [|arg tail Hp Hall IH]; intros ls He.
    - cbn [loop]. unfold finish. rewrite He, app_nil_r.
      destruct (store ls); reflexivity.
    - cbn [loop]. rewrite body_positional by assumption.
      rewrite IH by exact He. cbn [store with_store append_Rest set_Rest Rest heap
                                   optByShort optByLong].
      rewrite <- app_assoc. reflexivity. }
  rewrite Hgen by reflexivity. reflexivity.
Qed.


(** *** No panic without a group that ends on an option with a value *)

Lemma same_registry_lookup (st st' : Store) (h : nat) (o : Opt) :
  same_registry st st' -> heap st !! h = Some o ->
  exists o', heap st' !! h = Some o' /\ same_descriptor o o'.
Proof. intros (_ & _ & HF) Hh. eapply Forall2_lookup_l; eassumption. Qed.

Lemma same_registry_lookup_r (st st' : Store) (h : nat) (o' : Opt) :
  same_registry st st' -> heap st' !! h = Some o' ->
  exists o, heap st !! h = Some o /\ same_descriptor o o'.
Proof. intros (_ & _ & HF) Hh. eapply Forall2_lookup_r; eassumption. Qed.

Lemma handles_valid_same (st st' : Store) :
  same_registry st st' -> handles_valid st -> handles_valid st'.
Proof.
  intros Hsame [Hs Hl]. pose proof Hsame as (Ha & Hb & _).
  split; intros k h Hk.
  - rewrite Ha in Hk. destruct (Hs k h Hk) as [o Ho].
    destruct (same_registry_lookup _ _ _ _ Hsame Ho) as (o' & Ho' & _).
    eexists; eassumption.
  - rewrite Hb in Hk. destruct (Hl k h Hk) as [o Ho].
    destruct (same_registry_lookup _ _ _ _ Hsame Ho) as (o' & Ho' & _).
    eexists; eassumption.
Qed.

Lemma names_value_same (st st' : Store) (c : ascii) :
  same_registry st st' -> names_value st' c = names_value st c.
Proof.
  intros Hsame. pose proof Hsame as (Ha & _ & _).
  unfold names_value. rewrite Ha.
  destruct (optByShort st !! c) as [h|]; [|reflexivity].
  destruct (heap st !! h) as [o|] eqn:Ho.
  - destruct (same_registry_lookup _ _ _ _ Hsame Ho) as (o' & -> & Hd).
    destruct o, o'; cbn in Hd; try contradiction; reflexivity.
  - destruct (heap st' !! h) as [o'|] eqn:Ho'; [|reflexivity].
    destruct (same_registry_lookup_r _ _ _ _ Hsame Ho') as (o & Ho2 & _).
    congruence.
Qed.

Lemma ends_on_value_same (st st' : Store) (arg : string) :
  same_registry st st' -> ends_on_value st' arg = ends_on_value st arg.
Proof.
  intros Hsame. unfold ends_on_value.
  destruct arg as [|c0 [|c1 [|c2 r]]]; try reflexivity.
  now rewrite (names_value_same _ _ _ Hsame).
Qed.

Ltac idle He :=
  cbn [step_safe]; unfold pending_recorded;
  cbn [expecting_opt expecting_optarg waiting_opt waiting_vec store with_store];
  let Hx := fresh in intros Hx; rewrite He in Hx; discriminate Hx.

Lemma bare_switch_safe (h : nat) (ls : Locals) :
  is_Some (heap (store ls) !! h) -> expecting_opt ls = false ->
  step_safe (bare_switch h ls).
Proof.
  intros [o Ho] He. unfold bare_switch. rewrite Ho.
  destruct o as [f|a|v|k]; try idle He.
  - cbn [step_safe]. intros _. cbn. eexists _, _; split; [reflexivity|exact Ho].
  - cbn [step_safe]. intros _. cbn. eexists _, _; split; [reflexivity|exact Ho].
Qed.

Lemma negate_switch_safe (h : nat) (ls : Locals) :
  is_Some (heap (store ls) !! h) -> expecting_opt ls = false ->
  step_safe (negate_switch h ls).
Proof.
  intros [o Ho] He. unfold negate_switch. rewrite Ho.
  destruct o as [f|a|v|k]; idle He.
Qed.

Lemma assign_switch_safe (h : nat) (name opt : string) (ls : Locals) :
  is_Some (heap (store ls) !! h) -> expecting_opt ls = false ->
  step_safe (assign_switch h name opt ls).
Proof.
  intros [o Ho] He. unfold assign_switch. rewrite Ho.
  destruct o as [f|a|v|k]; try idle He.
  - destruct (optargToBool opt); [idle He | exact I].
  - destruct (ParseInt opt 0 32) as [n [e|]]; [exact I | idle He].
Qed.

Lemma negated_group_safe (cs : string) (ls : Locals) :
  handles_valid (store ls) -> expecting_opt ls = false ->
  step_safe (negated_group cs ls).
Proof.
  revert ls. induction cs as [|c rest IH]; intros ls Hv He; [idle He|].
  cbn [negated_group].
  destruct (optByShort (store ls) !! c) as [h|] eqn:Hc; [|exact I].
  pose proof (proj1 Hv c h Hc) as [o Ho].
  pose proof (negate_switch_only h ls) as Hon.
  unfold negate_switch in *. rewrite Ho in *.
  destruct o as [f|a|v|k]; cbn [step_rel] in Hon;
    (apply IH; [eapply handles_valid_same; [apply Hon | exact Hv] | exact He]).
Qed.

Lemma short_group_safe (c : ascii) (rest : string) (ls : Locals) :
  handles_valid (store ls) -> expecting_opt ls = false ->
  names_value (store ls) (last_byte c rest) = false ->
  step_safe (short_group (String c rest) ls).
Proof.
  revert c ls. induction rest as [|c' rest IH]; intros c ls Hv He Hlast.
  - cbn [last_byte] in Hlast. cbn [short_group].
    unfold names_value in Hlast.
    destruct (optByShort (store ls) !! c) as [h|] eqn:Hc; [|exact I].
    pose proof (proj1 Hv c h Hc) as [o Ho]. rewrite Ho in *.
    destruct o as [f|a|v|k]; try discriminate; idle He.
  - cbn [last_byte] in Hlast.
    change (short_group (String c (String c' rest)) ls) with
      (let st := store ls in
       match optByShort st !! c with
       | None => Return (Failure (UnrecognizedShort c)) st
       | Some h =>
           match heap st !! h with
           | Some (PFlag f) =>
               short_group (String c' rest)
                 (with_store (store_at h (PFlag (set_Passed true f)) st) ls)
           | Some (POptArg o) =>
               Continue (with_store
                 (store_at h (POptArg (set_Opt (String c' rest) o)) st) ls)
           | Some (POptVec v) =>
               Continue (with_store
                 (store_at h
                    (POptVec (set_OptArgs (OptVec_OptArgs v ++ [String c' rest]) v))
                    st) ls)
           | Some (POptCount k) =>
               short_group (String c' rest)
                 (with_store
                    (store_at h
                       (POptCount (set_Count (wrap64 (OptCount_Count k + 1)) k)) st)
                    ls)
           | None => Return (Panic "Invalid flag type") st
           end
       end).
    cbv zeta.
    destruct (optByShort (store ls) !! c) as [h|] eqn:Hc; [|exact I].
    pose proof (proj1 Hv c h Hc) as [o Ho]. rewrite Ho.
    destruct o as [f|a|v|k]; try idle He.
    + assert (Hon : only_values (store ls)
                      (store_at h (PFlag (set_Passed true f)) (store ls)))
        by (eapply only_values_store_at; [exact Ho | repeat split]).
      apply IH; cbn [store with_store expecting_opt].
      * eapply handles_valid_same; [apply Hon | exact Hv].
      * exact He.
      * rewrite (names_value_same _ _ _ (proj1 Hon)). exact Hlast.
    + assert (Hon : only_values (store ls)
                      (store_at h
                         (POptCount (set_Count (wrap64 (OptCount_Count k + 1)) k))
                         (store ls)))
        by (eapply only_values_store_at; [exact Ho | repeat split]).
      apply IH; cbn [store with_store expecting_opt].
      * eapply handles_valid_same; [apply Hon | exact Hv].
      * exact He.
      * rewrite (names_value_same _ _ _ (proj1 Hon)). exact Hlast.
Qed.

Lemma body_safe (arg : string) (tail : list string) (ls : Locals) :
  quiet stdin -> handles_valid (store ls) -> pending_recorded ls ->
  ends_on_value (store ls) arg = false ->
  step_safe (body stdin arg tail ls).
Proof.
  intros Hq Hv Hp Hends. unfold body.
  destruct arg as [|c0 arg1]; [exact Hp|].
  cbv zeta.
  destruct (expecting_opt ls) eqn:He.
  { specialize (Hp He).
    destruct (expecting_optarg ls).
    - destruct Hp as (h & o & -> & ->). cbn [step_safe]. intros Hx. discriminate Hx.
    - destruct Hp as (h & v & -> & ->). cbn [step_safe]. intros Hx. discriminate Hx. }
  destruct arg1 as [|c1 arg2].
  - destruct (Ascii.eqb c0 "-").
    + destruct (stdin (store ls)) as [[e|] st']; [exact I | idle He].
    + idle He.
  - destruct arg2 as [|c2 arg3].
    + destruct (Ascii.eqb c0 "-").
      * destruct (Ascii.eqb c1 "-"); [exact I|].
        destruct (optByShort (store ls) !! c1) as [h|] eqn:Hc; [|idle He].
        apply bare_switch_safe; [eapply (proj1 Hv); eassumption | exact He].
      * destruct (Ascii.eqb c0 "+"); [|idle He].
        destruct (optByShort (store ls) !! c1) as [h|] eqn:Hc; [|idle He].
        apply negate_switch_safe; [eapply (proj1 Hv); eassumption | exact He].
    + cbn [ends_on_value] in Hends.
      destruct (Ascii.eqb c0 "-").
      * destruct (Ascii.eqb c1 "-").
        -- destruct (IndexByte _ _).
           ++ destruct (optByLong (store ls) !! _) as [h|] eqn:Hc; [|idle He].
              apply assign_switch_safe; [eapply (proj2 Hv); eassumption | exact He].
           ++ destruct (optByLong (store ls) !! _) as [h|] eqn:Hc; [|exact I].
              apply bare_switch_safe; [eapply (proj2 Hv); eassumption | exact He].
        -- cbn [andb negb] in Hends.
           apply (short_group_safe c1 (String c2 arg3) ls Hv He Hends).
      * destruct (Ascii.eqb c0 "+"); [|idle He].
        apply negated_group_safe; assumption.
Qed.

Lemma finish_safe (ls : Locals) : pending_recorded ls -> no_panic (fst (finish ls)).
Proof.
  intros Hp. unfold finish. destruct (expecting_opt ls) eqn:He; [|exact I].
  specialize (Hp He).
  destruct (expecting_optarg ls).
  - destruct Hp as (h & o & -> & ->). exact I.
  - destruct Hp as (h & v & -> & ->). exact I.
Qed.

Lemma loop_safe (argv : list string) (ls : Locals) :
  quiet stdin -> handles_valid (store ls) -> pending_recorded ls ->
  Forall (fun a => ends_on_value (store ls) a = false) argv ->
  no_panic (fst (loop stdin argv ls)).
Proof.
  intros Hq. revert ls. induction argv as [|arg tail IH]; intros ls Hv Hp Hall.
  - apply finish_safe, Hp.
  - inversion Hall as [|? ? Harg Htail]; subst. cbn [loop].
    pose proof (body_safe arg tail ls Hq Hv Hp Harg) as Hs.
    pose proof (body_effect arg tail ls Hq) as He.
    destruct (body stdin arg tail ls) as [ls'|r st']; [|exact Hs].
    cbn in He, Hs. destruct He as [Hsame _].
    apply IH; [eapply handles_valid_same; eassumption | exact Hs |].
    eapply Forall_impl; [exact Htail|].
    intros a Ha. rewrite (ends_on_value_same _ _ _ Hsame). exact Ha.
Qed.

(** X7. On a registry without dangling handles and with a handler that
    leaves the package state alone, [ParseArgv] does not panic when no
    argument is a group of shorts after ['-'] whose last character names an
    option that takes a value: every such call returns [nil] or an error. *)
Theorem ParseArgv_no_panic (argv : list string) (st : Store) :
  quiet stdin -> handles_valid st ->
  Forall (fun a => ends_on_value st a = false) argv ->
  no_panic (fst (ParseArgv stdin argv st)).
Proof.
  intros Hq Hv Hall. apply loop_safe; try assumption.
  intros Hx. discriminate Hx.
Qed.

(** *** A group of shorts and its characters one by one *)

Lemma with_store_id (ls : Locals) : with_store (store ls) ls = ls.
Proof. destruct ls; reflexivity. Qed.

Lemma short_group_flags (cs : string) (ls : Locals) :
  all_chars (is_flag_or_count (store ls)) cs = true ->
  short_group cs ls =
    Continue (with_store (apply_all positive_effect cs (store ls)) ls).
Proof.
  revert ls. induction cs as [|c rest IH]; intros ls Hall.
  - cbn. now rewrite with_store_id.
  - cbn [all_chars] in Hall. apply andb_true_iff in Hall as [Hc Hall].
    cbn [short_group apply_all]. unfold positive_effect.
    unfold is_flag_or_count in Hc.
    destruct (optByShort (store ls) !! c) as [h|]; [|discriminate].
    destruct (heap (store ls) !! h) as [[f|o|v|k]|] eqn:Hh; try discriminate.
    + rewrite IH; [reflexivity|]. cbn [store with_store].
      erewrite all_chars_ext; [exact Hall|].
      intros c'. eapply is_flag_or_count_store_at; [eassumption|exact I|exact I].
    + rewrite IH; [reflexivity|]. cbn [store with_store].
      erewrite all_chars_ext; [exact Hall|].
      intros c'. eapply is_flag_or_count_store_at; [eassumption|exact I|exact I].
Qed.

Lemma negated_group_known (cs : string) (ls : Locals) :
  all_chars (is_known (store ls)) cs = true ->
  negated_group cs ls =
    Continue (with_store (apply_all negate_effect cs (store ls)) ls).
Proof.
  revert ls. induction cs as [|c rest IH]; intros ls Hall.
  - cbn. now rewrite with_store_id.
  - cbn [all_chars] in Hall. apply andb_true_iff in Hall as [Hc Hall].
    cbn [negated_group apply_all]. unfold negate_effect, negate_switch.
    unfold is_known in Hc.
    destruct (optByShort (store ls) !! c) as [h|]; [|discriminate].
    destruct (heap (store ls) !! h) as [[f|o|v|k]|] eqn:Hh; try discriminate;
      (rewrite IH; [reflexivity|]); cbn [store with_store];
      (erewrite all_chars_ext; [exact Hall|]);
      intros c'; eapply is_known_store_at; eassumption.
Qed.

Lemma scan_singles_minus (cs : string) (after : list string) (ls : Locals) :
  no_dash cs = true ->
  all_chars (is_flag_or_count (store ls)) cs = true ->
  expecting_opt ls = false ->
  scan stdin (singles "-" cs) after ls =
    Continue (with_store (apply_all positive_effect cs (store ls)) ls).
Proof.
  revert ls. induction cs as [|c rest IH]; intros ls Hnd Hall He.
  - cbn. now rewrite with_store_id.
  - cbn [no_dash] in Hnd. apply andb_true_iff in Hnd as [Hc0 Hnd].
    apply negb_true_iff, Ascii.eqb_neq in Hc0.
    cbn [all_chars] in Hall. apply andb_true_iff in Hall as [Hc Hall].
    cbn [singles scan apply_all].
    rewrite body_short by assumption.
    unfold positive_effect, bare_switch. unfold is_flag_or_count in Hc.
    destruct (optByShort (store ls) !! c) as [h|]; [|discriminate].
    destruct (heap (store ls) !! h) as [[f|o|v|k]|] eqn:Hh; try discriminate.
    + rewrite IH; [reflexivity|exact Hnd| |exact He]. cbn [store with_store].
      erewrite all_chars_ext; [exact Hall|].
      intros c'. eapply is_flag_or_count_store_at; [eassumption|exact I|exact I].
    + rewrite IH; [reflexivity|exact Hnd| |exact He]. cbn [store with_store].
      erewrite all_chars_ext; [exact Hall|].
      intros c'. eapply is_flag_or_count_store_at; [eassumption|exact I|exact I].
Qed.

Lemma scan_singles_plus (cs : string) (after : list string) (ls : Locals) :
  all_chars (is_known (store ls)) cs = true ->
  expecting_opt ls = false ->
  scan stdin (singles "+" cs) after ls =
    Continue (with_store (apply_all negate_effect cs (store ls)) ls).
Proof.
  revert ls. induction cs as [|c rest IH]; intros ls Hall He.
  - cbn. now rewrite with_store_id.
  - cbn [all_chars] in Hall. apply andb_true_iff in Hall as [Hc Hall].
    cbn [singles scan apply_all].
    rewrite body_negated by assumption.
    unfold negate_effect, negate_switch. unfold is_known in Hc.
    destruct (optByShort (store ls) !! c) as [h|]; [|discriminate].
    destruct (heap (store ls) !! h) as [[f|o|v|k]|] eqn:Hh; try discriminate;
      (rewrite IH; [reflexivity| |exact He]); cbn [store with_store];
      (erewrite all_chars_ext; [exact Hall|]);
      intros c'; eapply is_known_store_at; eassumption.
Qed.

Lemma loop_of_scan (argv : list string) (ls ls' : Locals) :
  scan stdin argv [] ls = Continue ls' -> expecting_opt ls' = false ->
  loop stdin argv ls = (Success, store ls').
Proof.
  intros Hscan He. rewrite <- (app_nil_r argv), loop_app, Hscan.
  cbn [loop]. unfold finish. now rewrite He.
Qed.

(** X8. A group of two or more shorts does what its characters do one by
    one: when the characters after ['-'] all name Flags or Counters (none of
    them being ['-']), [-abc] ends as [-a -b -c] does, in success with each
    Flag set and each Counter raised once per occurrence; and when the
    characters after ['+'] all name descriptors, [+abc] ends as [+a +b +c]
    does, with each of them negated. *)
Theorem group_as_singles (cs : string) (st : Store) :
  (2 <= len cs)%nat ->
  (no_dash cs = true -> all_chars (is_flag_or_count st) cs = true ->
   ParseArgv stdin [String "-" cs] st = ParseArgv stdin (singles "-" cs) st /\
   ParseArgv stdin (singles "-" cs) st =
     (Success, apply_all positive_effect cs st)) /\
  (all_chars (is_known st) cs = true ->
   ParseArgv stdin [String "+" cs] st = ParseArgv stdin (singles "+" cs) st /\
   ParseArgv stdin (singles "+" cs) st =
     (Success, apply_all negate_effect cs st)).
Proof.
  intros Hlen. destruct cs as [|c1 [|c2 r]]; cbn [len String.length] in Hlen; try lia.
  split.
  - intros Hnd Hall.
    assert (Hsingles : ParseArgv stdin (singles "-" (String c1 (String c2 r))) st =
                         (Success, apply_all positive_effect (String c1 (String c2 r)) st)).
    { unfold ParseArgv. erewrite loop_of_scan;
        [|apply scan_singles_minus; [exact Hnd|exact Hall|reflexivity]|reflexivity].
      reflexivity. }
    split; [|exact Hsingles]. rewrite Hsingles.
    pose proof Hnd as Hnd'. cbn [no_dash] in Hnd'.
    apply andb_true_iff in Hnd' as [Hc1 _].
    apply negb_true_iff, Ascii.eqb_neq in Hc1.
    unfold ParseArgv. cbn [loop].
    rewrite body_short_group by (assumption || reflexivity).
    rewrite short_group_flags by exact Hall. reflexivity.
  - intros Hall.
    assert (Hsingles : ParseArgv stdin (singles "+" (String c1 (String c2 r))) st =
                         (Success, apply_all negate_effect (String c1 (String c2 r)) st)).
    { unfold ParseArgv. erewrite loop_of_scan;
        [|apply scan_singles_plus; [exact Hall|reflexivity]|reflexivity].
      reflexivity. }
    split; [|exact Hsingles]. rewrite Hsingles.
    unfold ParseArgv. cbn [loop].
    rewrite body_negated_group by reflexivity.
    rewrite negated_group_known by exact Hall. reflexivity.
Qed.

(** *** Counting up and down *)

Lemma wrap64_add (a b : Z) : wrap64 (wrap64 a + b) = wrap64 (a + b).
Proof.
  unfold wrap64. f_equal.
  replace ((a + 2 ^ 63) mod 2 ^ 64 - 2 ^ 63 + b + 2 ^ 63)
    with ((a + 2 ^ 63) mod 2 ^ 64 + b) by lia.
  rewrite Zplus_mod_idemp_l. f_equal. lia.
Qed.

Lemma wrap64_range (z : Z) : min_int64 <= wrap64 z <= max_int64.
Proof.
  unfold wrap64, min_int64, max_int64.
  pose proof (Z.mod_pos_bound (z + 2 ^ 63) (2 ^ 64) ltac:(lia)). lia.
Qed.

Lemma store_at_same (st : Store) (h : nat) (o : Opt) :
  heap st !! h = Some o -> store_at h o st = st.
Proof.
  intros Hh. unfold store_at, set_heap. rewrite list_insert_id by exact Hh.
  destruct st; reflexivity.
Qed.

Lemma body_tick (x : ascii) (long : string) (t : Tick) (tail : list string)
    (ls : Locals) (h : nat) (c : OptCount) :
  registered (store ls) x long h (POptCount c) ->
  x <> "-"%char -> usable_long long -> expecting_opt ls = false ->
  body stdin (tick_token x long t) tail ls =
    Continue (with_store
      (store_at h
         (POptCount (set_Count (wrap64 (OptCount_Count c + tick_value t)) c))
         (store ls)) ls).
Proof.
  intros (Hs & Hl & Hh) Hx [Hne Hi] He. destruct t; cbn [tick_token tick_value].
  - rewrite body_short by assumption. rewrite Hs.
    unfold bare_switch. rewrite Hh. reflexivity.
  - rewrite body_long_bare by assumption. rewrite Hl.
    unfold bare_switch. rewrite Hh. reflexivity.
  - rewrite body_negated by assumption. rewrite Hs.
    unfold negate_switch. rewrite Hh. reflexivity.
Qed.

Lemma scan_ticks (x : ascii) (long : string) (ts : list Tick)
    (after : list string) (ls : Locals) (h : nat) (c : OptCount) :
  registered (store ls) x long h (POptCount c) ->
  x <> "-"%char -> usable_long long -> expecting_opt ls = false ->
  min_int64 <= OptCount_Count c <= max_int64 ->
  scan stdin (map (tick_token x long) ts) after ls =
    Continue (with_store
      (store_at h
         (POptCount (set_Count (wrap64 (OptCount_Count c + ticks_sum ts)) c))
         (store ls)) ls).
Proof.
  intros Hreg Hx Hlong. revert ls c Hreg.
  induction ts as [|t ts IH]; intros ls c Hreg He Hr.
  - cbn [map scan ticks_sum]. rewrite Z.add_0_r, wrap64_in_range by exact Hr.
    replace (set_Count (OptCount_Count c) c) with c by (destruct c; reflexivity).
    rewrite store_at_same by apply Hreg. now rewrite with_store_id.
  - cbn [map scan ticks_sum].
    rewrite (body_tick x long t _ ls h c) by assumption.
    rewrite (IH _ (set_Count (wrap64 (OptCount_Count c + tick_value t)) c)).
    + cbn [store with_store set_Count OptCount_Count OptCount_Long OptCount_Help
           OptCount_Short].
      rewrite store_at_store_at, wrap64_add, Z.add_assoc. reflexivity.
    + cbn [store with_store]. eapply registered_store_at; exact Hreg.
    + exact He.
    + apply wrap64_range.
Qed.

(** X9. For a Counter registered under a short character other than ['-']
    and a usable long name, any sequence of [-x], [--long] and [+x] tokens
    ends in success with the count changed by the number of the first two
    less the number of the third, in [int64] arithmetic. *)
Theorem counter_ticks (st : Store) (x : ascii) (long : string) (h : nat)
    (c : OptCount) (ts : list Tick) :
  registered st x long h (POptCount c) ->
  x <> "-"%char -> usable_long long ->
  min_int64 <= OptCount_Count c <= max_int64 ->
  ParseArgv stdin (map (tick_token x long) ts) st =
    (Success,
     store_at h
       (POptCount (set_Count (wrap64 (OptCount_Count c + ticks_sum ts)) c)) st).
Proof.
  intros Hreg Hx Hlong Hr. unfold ParseArgv.
  erewrite loop_of_scan;
    [|apply (scan_ticks x long ts [] (initial_Locals st) h c);
      assumption || reflexivity|reflexivity].
  reflexivity.
Qed.

(** *** Sequences of values *)

Lemma body_awaited_vec (V : string) (tail : list string) (st : Store)
    (w : option nat) (h : nat) (v : OptVec) :
  V <> EmptyString -> heap st !! h = Some (POptVec v) ->
  body stdin V tail (mkLocals st true false w (Some h)) =
    Continue (mkLocals
      (store_at h (POptVec (set_OptArgs (OptVec_OptArgs v ++ [V]) v)) st)
      false false w (Some h)).
Proof.
  intros HV Hh. destruct V as [|v0 V']; [congruence|].
  unfold body. cbn [expecting_opt expecting_optarg waiting_vec waiting_opt store].
  cbv zeta. rewrite Hh. reflexivity.
Qed.

Lemma body_awaited_arg (V : string) (tail : list string) (st : Store)
    (w : option nat) (h : nat) (o : OptArg) :
  V <> EmptyString -> heap st !! h = Some (POptArg o) ->
  body stdin V tail (mkLocals st true true (Some h) w) =
    Continue (mkLocals (store_at h (POptArg (set_Opt V o)) st)
                false true (Some h) w).
Proof.
  intros HV Hh. destruct V as [|v0 V']; [congruence|].
  unfold body. cbn [expecting_opt expecting_optarg waiting_vec waiting_opt store].
  cbv zeta. rewrite Hh. reflexivity.
Qed.

Lemma scan_giving_vec (x : ascii) (long : string) (g : Giving) (V : string)
    (after : list string) (ls : Locals) (h : nat) (v : OptVec) :
  registered (store ls) x long h (POptVec v) ->
  giving_fits x long g V ->
  expecting_opt ls = false ->
  exists ls',
    scan stdin (giving_tokens x long g V) after ls = Continue ls' /\
    expecting_opt ls' = false /\
    store ls' =
      store_at h (POptVec (set_OptArgs (OptVec_OptArgs v ++ [V]) v)) (store ls).
Proof.
  intros (Hs & Hl & Hh) Hfit He.
  destruct g as [[| |]|]; cbn [giving_fits form_fits] in Hfit;
    cbn [giving_tokens]; unfold occurrence; cbn [scan app].
  - rewrite body_long_assign by assumption. rewrite Hl.
    unfold assign_switch. rewrite Hh. eexists; repeat split. exact He.
  - destruct Hfit as [[Hne Hi] HV].
    rewrite body_long_bare by assumption. rewrite Hl.
    unfold bare_switch. rewrite Hh.
    rewrite (body_awaited_vec V _ _ _ h v HV Hh).
    eexists; repeat split.
  - destruct Hfit as [Hx HV]. destruct V as [|v0 V']; [congruence|].
    rewrite body_short_group by assumption.
    cbn [short_group]. rewrite Hs, Hh. eexists; repeat split. exact He.
  - destruct Hfit as [Hx HV].
    rewrite body_short by assumption. rewrite Hs.
    unfold bare_switch. rewrite Hh.
    rewrite (body_awaited_vec V _ _ _ h v HV Hh).
    eexists; repeat split.
Qed.

Lemma scan_giving_arg (x : ascii) (long : string) (g : Giving) (V : string)
    (after : list string) (ls : Locals) (h : nat) (o : OptArg) :
  registered (store ls) x long h (POptArg o) ->
  giving_fits x long g V ->
  expecting_opt ls = false ->
  exists ls',
    scan stdin (giving_tokens x long g V) after ls = Continue ls' /\
    expecting_opt ls' = false /\
    store ls' = store_at h (POptArg (set_Opt V o)) (store ls).
Proof.
  intros (Hs & Hl & Hh) Hfit He.
  destruct g as [[| |]|]; cbn [giving_fits form_fits] in Hfit;
    cbn [giving_tokens]; unfold occurrence; cbn [scan app].
  - rewrite body_long_assign by assumption. rewrite Hl.
    unfold assign_switch. rewrite Hh. eexists; repeat split. exact He.
  - destruct Hfit as [[Hne Hi] HV].
    rewrite body_long_bare by assumption. rewrite Hl.
    unfold bare_switch. rewrite Hh.
    rewrite (body_awaited_arg V _ _ _ h o HV Hh).
    eexists; repeat split.
  - destruct Hfit as [Hx HV]. destruct V as [|v0 V']; [congruence|].
    rewrite body_short_group by assumption.
    cbn [short_group]. rewrite Hs, Hh. eexists; repeat split. exact He.
  - destruct Hfit as [Hx HV].
    rewrite body_short by assumption. rewrite Hs.
    unfold bare_switch. rewrite Hh.
    rewrite (body_awaited_arg V _ _ _ h o HV Hh).
    eexists; repeat split.
Qed.

Lemma scan_givings_vec (x : ascii) (long : string) (gs : list (Giving * string))
    (after : list string) (ls : Locals) (h : nat) (v : OptVec) :
  registered (store ls) x long h (POptVec v) ->
  Forall (fun gv => giving_fits x long (fst gv) (snd gv)) gs ->
  expecting_opt ls = false ->
  exists ls',
    scan stdin (givings_tokens x long gs) after ls = Continue ls' /\
    expecting_opt ls' = false /\
    store ls' =
      store_at h (POptVec (set_OptArgs (OptVec_OptArgs v ++ map snd gs) v))
        (store ls).
Proof.
  intros Hreg Hall. revert ls v Hreg.
  induction Hall as [|[g V] gs Hfit Hall IH]; intros ls v Hreg He.
  - exists ls. cbn. rewrite app_nil_r.
    replace (set_OptArgs (OptVec_OptArgs v) v) with v by (destruct v; reflexivity).
    rewrite store_at_same by apply Hreg. repeat split. exact He.
  - unfold givings_tokens. cbn [map concat fst snd]. rewrite scan_app.
    destruct (scan_giving_vec x long g V
                (concat (map (fun gv => giving_tokens x long (fst gv) (snd gv)) gs)
                 ++ after) ls h v Hreg Hfit He)
      as (ls1 & -> & He1 & Hst1).
    destruct (IH ls1 (set_OptArgs (OptVec_OptArgs v ++ [V]) v))
      as (ls2 & Hscan2 & He2 & Hst2).
    { rewrite Hst1. eapply registered_store_at. exact Hreg. }
    { exact He1. }
    exists ls2. split; [exact Hscan2|]. split; [exact He2|].
    rewrite Hst2, Hst1. cbn [OptVec_OptArgs set_OptArgs OptVec_Long OptVec_Help
                             OptVec_Short].
    rewrite store_at_store_at, <- app_assoc. reflexivity.
Qed.

(** X10. For a registered MultiArg, a sequence of occurrences, each in one
    of the forms [--long=V], [--long V], [-xV] and [-x V] (the name usable
    for the form, a separate or attached value not empty), ends in success
    with the values appended behind the earlier ones in the order of the
    occurrences; a [+x] after them empties the sequence. *)
Theorem vec_accumulates (st : Store) (x : ascii) (long : string) (h : nat)
    (v : OptVec) (gs : list (Giving * string)) :
  registered st x long h (POptVec v) ->
  Forall (fun gv => giving_fits x long (fst gv) (snd gv)) gs ->
  ParseArgv stdin (givings_tokens x long gs) st =
    (Success,
     store_at h (POptVec (set_OptArgs (OptVec_OptArgs v ++ map snd gs) v)) st) /\
  ParseArgv stdin (givings_tokens x long gs ++ [String "+" (String x EmptyString)]) st =
    (Success, store_at h (POptVec (set_OptArgs [] v)) st).
Proof.
  intros Hreg Hall. split.
  - destruct (scan_givings_vec x long gs [] (initial_Locals st) h v Hreg Hall eq_refl)
      as (ls' & Hscan & He & Hst).
    unfold ParseArgv. rewrite (loop_of_scan _ _ _ Hscan He), Hst. reflexivity.
  - destruct (scan_givings_vec x long gs [String "+" (String x EmptyString)]
                (initial_Locals st) h v Hreg Hall eq_refl)
      as (ls' & Hscan & He & Hst).
    cbn [store initial_Locals] in Hst.
    unfold ParseArgv. rewrite loop_app, Hscan. cbn [loop].
    rewrite body_negated by exact He.
    destruct Hreg as (Hs & Hl & Hh).
    rewrite Hst. change (optByShort (store_at _ _ st)) with (optByShort st).
    rewrite Hs. unfold negate_switch. rewrite Hst.
    rewrite (heap_store_at_eq st h _ _ Hh).
    unfold finish. cbn [expecting_opt with_store store]. rewrite He.
    rewrite store_at_store_at. reflexivity.
Qed.

Lemma scan_givings_arg (x : ascii) (long : string) (gs : list (Giving * string))
    (after : list string) (ls : Locals) (h : nat) (o : OptArg) :
  registered (store ls) x long h (POptArg o) ->
  Forall (fun gv => giving_fits x long (fst gv) (snd gv)) gs ->
  expecting_opt ls = false ->
  exists ls',
    scan stdin (givings_tokens x long gs) after ls = Continue ls' /\
    expecting_opt ls' = false /\
    store ls' =
      match last (map snd gs) with
      | Some V => store_at h (POptArg (set_Opt V o)) (store ls)
      | None => store ls
      end.
Proof.
  intros Hreg Hall. revert ls o Hreg.
  induction Hall as [|[g V] gs Hfit Hall IH]; intros ls o Hreg He.
  - exists ls. repeat split. exact He.
  - unfold givings_tokens. cbn [map concat fst snd]. rewrite scan_app.
    destruct (scan_giving_arg x long g V
                (concat (map (fun gv => giving_tokens x long (fst gv) (snd gv)) gs)
                 ++ after) ls h o Hreg Hfit He)
      as (ls1 & -> & He1 & Hst1).
    destruct (IH ls1 (set_Opt V o)) as (ls2 & Hscan2 & He2 & Hst2).
    { rewrite Hst1. eapply registered_store_at. exact Hreg. }
    { exact He1. }
    exists ls2. split; [exact Hscan2|]. split; [exact He2|].
    rewrite Hst2, Hst1, last_cons.
    destruct (last (map snd gs)) as [V'|]; [|reflexivity].
    cbn [set_Opt OptArg_Long OptArg_Help OptArg_Short].
    rewrite store_at_store_at. reflexivity.
Qed.

(** X11. For a registered SingleArg, a sequence of occurrences, each in one
    of the forms [--long=V], [--long V], [-xV] and [-x V] (the name usable
    for the form, a separate or attached value not empty), ends in success
    with the value of the last occurrence, whatever the earlier ones gave. *)
Theorem arg_last_wins (st : Store) (x : ascii) (long : string) (h : nat)
    (o : OptArg) (gs : list (Giving * string)) (V : string) :
  registered st x long h (POptArg o) ->
  Forall (fun gv => giving_fits x long (fst gv) (snd gv)) gs ->
  last (map snd gs) = Some V ->
  ParseArgv stdin (givings_tokens x long gs) st =
    (Success, store_at h (POptArg (set_Opt V o)) st).
Proof.
  intros Hreg Hall Hlast.
  destruct (scan_givings_arg x long gs [] (initial_Locals st) h o Hreg Hall eq_refl)
    as (ls' & Hscan & He & Hst).
  unfold ParseArgv. rewrite (loop_of_scan _ _ _ Hscan He), Hst, Hlast. reflexivity.
Qed.

(** *** Inline values, unknown names, the handler *)

(** X12. The inline form carries the empty value: with a long name free of
    ['='], [--long=] stores the empty string in a SingleArg and appends it to
    a MultiArg, while a Flag refuses it with the boolean-parse error and a
    Counter with the number-parse error, the state unchanged. *)
Theorem inline_empty_value (st : Store) (long : string) (h : nat) :
  optByLong st !! long = Some h ->
  IndexByte long "="%char = None ->
  ParseArgv stdin ["--" +:+ long +:+ "=" +:+ ""] st =
    match heap st !! h with
    | Some (PFlag _) => (Failure BooleanParseError, st)
    | Some (POptArg o) => (Success, store_at h (POptArg (set_Opt "" o)) st)
    | Some (POptVec v) =>
        (Success,
         store_at h (POptVec (set_OptArgs (OptVec_OptArgs v ++ [""]) v)) st)
    | Some (POptCount _) => (Failure (NumberParseError "" long), st)
    | None => (Panic "Invalid flag type", st)
    end.
Proof.
  intros Hl Hi. unfold ParseArgv. cbn [loop].
  rewrite body_long_assign by (assumption || reflexivity).
  cbn [store initial_Locals]. rewrite Hl. unfold assign_switch.
  cbn [store initial_Locals].
  destruct (heap st !! h) as [[f|o|v|k]|]; reflexivity.
Qed.

(** X13. Outside the awaiting state, [--name=V] with a name (free of ['='])
    that is in no entry of the long map is passed over without error and
    without effect, whatever [V] is: the rest of the arguments is parsed as
    if the token were not there. *)
Theorem unknown_assignment_ignored (name V : string) (tail : list string)
    (ls : Locals) :
  IndexByte name "="%char = None ->
  expecting_opt ls = false ->
  optByLong (store ls) !! name = None ->
  body stdin ("--" +:+ name +:+ "=" +:+ V) tail ls = Continue ls /\
  loop stdin (("--" +:+ name +:+ "=" +:+ V) :: tail) ls = loop stdin tail ls.
Proof.
  intros Hi He Hl.
  assert (Hb : body stdin ("--" +:+ name +:+ "=" +:+ V) tail ls = Continue ls)
    by (rewrite body_long_assign by assumption; now rewrite Hl).
  split; [exact Hb|]. cbn [loop]. now rewrite Hb.
Qed.

(** X14. The argument ["-"] at the head of the arguments calls the handler on
    the current state: when the handler fails, the call returns its error at
    once and the later arguments are not looked at; when it succeeds, the
    call goes on as a call on the later arguments from the state the handler
    left. *)
Theorem dash_calls_handler (rest : list string) (st : Store) :
  (forall e st', stdin st = (Some e, st') ->
     ParseArgv stdin ("-" :: rest) st = (Failure (HandlerError e), st')) /\
  (forall st', stdin st = (None, st') ->
     ParseArgv stdin ("-" :: rest) st = ParseArgv stdin rest st').
Proof.
  split.
  - intros e st' Hh. unfold ParseArgv. cbn. rewrite Hh. reflexivity.
  - intros st' Hh. unfold ParseArgv. cbn. rewrite Hh. reflexivity.
Qed.

(** *** A returned error hides the later arguments *)

Lemma body_tail (arg : string) (tail tail' : list string) (ls : Locals) :
  body stdin arg tail ls = body stdin arg tail' ls \/
  exists st, body stdin arg tail ls = Return Success st.
Proof.
  unfold body. destruct arg as [|c0 [|c1 [|c2 r]]]; try (left; reflexivity).
  cbv zeta. destruct (expecting_opt ls); [left; reflexivity|].
  destruct (Ascii.eqb c0 "-"); [|left; reflexivity].
  destruct (Ascii.eqb c1 "-"); [|left; reflexivity].
  right. eexists; reflexivity.
Qed.

Lemma scan_failure_tail (pre after after' : list string) (ls : Locals)
    (e : Error) (st' : Store) :
  scan stdin pre after ls = Return (Failure e) st' ->
  scan stdin pre after' ls = Return (Failure e) st'.
Proof.
  revert ls. induction pre as [|arg pre IH]; intros ls; [discriminate|].
  cbn [scan].
  destruct (body_tail arg (pre ++ after) (pre ++ after') ls) as [Heq|[st Hs]].
  - rewrite Heq. destruct (body stdin arg (pre ++ after') ls); [apply IH|trivial].
  - rewrite Hs. discriminate.
Qed.

Lemma finish_outcome (ls : Locals) (e : Error) (st : Store) :
  finish ls = (Failure e, st) -> exists c l, e = ExpectingArgument c l.
Proof.
  unfold finish. destruct (expecting_opt ls); [|discriminate].
  destruct (expecting_optarg ls).
  - destruct (waiting_opt ls) as [h|]; [|discriminate].
    destruct (heap (store ls) !! h) as [[f|o|v|k]|]; try discriminate.
    intros [= <- _]. eexists _, _; reflexivity.
  - destruct (waiting_vec ls) as [h|]; [|discriminate].
    destruct (heap (store ls) !! h) as [[f|o|v|k]|]; try discriminate.
    intros [= <- _]. eexists _, _; reflexivity.
Qed.

(** X15. An error other than the missing-argument error ends the call where
    it arises: when a call on [argv] returns such an error, a call on [argv]
    followed by any further arguments returns the same error and leaves the
    same state. *)
Theorem error_hides_later_arguments (argv after : list string) (st st' : Store)
    (e : Error) :
  ParseArgv stdin argv st = (Failure e, st') ->
  (forall c l, e <> ExpectingArgument c l) ->
  ParseArgv stdin (argv ++ after) st = (Failure e, st').
Proof.
  unfold ParseArgv. intros Hcall Hne.
  rewrite <- (app_nil_r argv), loop_app in Hcall. rewrite loop_app.
  destruct (scan stdin argv [] (initial_Locals st)) as [ls'|r s] eqn:Hscan.
  - cbn [loop] in Hcall. apply finish_outcome in Hcall as (c & l & ->).
    exfalso. eapply Hne; reflexivity.
  - injection Hcall as -> ->.
    now rewrite (scan_failure_tail argv [] after _ _ _ Hscan).
Qed.

(** *** Boolean literals *)

Lemma eq_nocase_congr (s s' t : string) :
  eq_nocase s s' = true -> eq_nocase s t = eq_nocase s' t.
Proof.
  revert s' t. induction s as [|a s IH]; intros [|a' s'] [|b t] H;
    cbn in H |- *; try discriminate; try reflexivity.
  apply andb_true_iff in H as [Ha Hs]. apply Z.eqb_eq in Ha.
  rewrite Ha, (IH s' t Hs). reflexivity.
Qed.

(** X16. [optargToBool] does not look at the case of ASCII letters: two
    ASCII-only strings that differ in case only are both refused or both
    give the same truth value; and the empty string is refused. *)
Theorem optargToBool_case (s s' : string) :
  all_ascii s = true -> all_ascii s' = true -> eq_nocase s s' = true ->
  optargToBool s = optargToBool s' /\ optargToBool "" = None.
Proof.
  intros Hs Hs' Heq. split; [|reflexivity].
  rewrite (optargToBool_ascii s Hs), (optargToBool_ascii s' Hs').
  now rewrite !(eq_nocase_congr s s' _ Heq).
Qed.

(** *** The production entry point *)

(** X17. [GetOpts] parses [os.Args] without its first element, whatever
    that element looks like, and returns what [ParseArgv] returns on the
    rest; it keeps a name and a version that are set and fills empty ones
    with [os.Args[0]] and ["0.0.1"], so that the version is never empty
    afterwards and a second call changes no metadata; on an empty [os.Args]
    it panics and leaves the registry alone. *)
Theorem GetOpts_spec (a0 : string) (args : list string) (m : Meta) (st : Store) :
  fst (fst (GetOpts stdin (a0 :: args) m st)) = fst (ParseArgv stdin args st) /\
  snd (GetOpts stdin (a0 :: args) m st) = snd (ParseArgv stdin args st) /\
  (let m' := snd (fst (GetOpts stdin (a0 :: args) m st)) in
   ProgramName m' = (if decide (ProgramName m = "") then a0 else ProgramName m) /\
   ProgramVersion m' =
     (if decide (ProgramVersion m = "") then "0.0.1" else ProgramVersion m) /\
   ProgramDesc m' = ProgramDesc m /\
   ProgramVersion m' <> "" /\
   (forall os_Args' st2, os_Args' <> [] -> ProgramName m' <> "" ->
      snd (fst (GetOpts stdin os_Args' m' st2)) = m')) /\
  (exists msg, fst (fst (GetOpts stdin [] m st)) = Panic msg) /\
  snd (GetOpts stdin [] m st) = st.
Proof.
  unfold GetOpts.
  destruct (ParseArgv stdin args st) as [r st'] eqn:Hp.
  destruct m as [name version desc]; cbn [ProgramName ProgramVersion ProgramDesc].
  destruct name as [|n0 name], version as [|v0 version];
    cbn [ProgramName ProgramVersion ProgramDesc fst snd];
    (split; [reflexivity|]); (split; [reflexivity|]);
    (split; [|split; [eexists; reflexivity | reflexivity]]);
    (split; [reflexivity|]); (split; [reflexivity|]); (split; [reflexivity|]);
    (split; [discriminate|]);
    intros os_Args' st2 Hne Hname;
    destruct os_Args' as [|a args']; try congruence;
    cbn [ProgramName ProgramVersion ProgramDesc] in *; try congruence;
    try (destruct a0; [congruence|]);
    destruct (ParseArgv stdin args' st2); reflexivity.
Qed.

(** *** Empty arguments *)

Lemma body_tail_eq (arg : string) (tail tail' : list string) (ls : Locals) :
  arg <> "--" -> body stdin arg tail ls = body stdin arg tail' ls.
Proof.
  intros Hne. unfold body.
  destruct arg as [|c0 [|c1 [|c2 r]]]; try reflexivity.
  cbv zeta. destruct (expecting_opt ls); [reflexivity|].
  destruct (Ascii.eqb c0 "-") eqn:H0; [|reflexivity].
  destruct (Ascii.eqb c1 "-") eqn:H1; [|reflexivity].
  apply Ascii.eqb_eq in H0, H1. subst. congruence.
Qed.

(** X18. As long as no argument is ["--"], empty arguments are invisible: a
    call gives the same outcome and leaves the same state as the call on the
    arguments without the empty ones. *)
Theorem empty_arguments_invisible (argv : list string) (st : Store) :
  "--" ∉ argv ->
  ParseArgv stdin argv st = ParseArgv stdin (drop_empty argv) st.
Proof.
  unfold ParseArgv. generalize (initial_Locals st) as ls.
  induction argv as [|arg tail IH]; intros ls Hno; [reflexivity|].
  assert (Htail : "--" ∉ tail) by (intros Hin; apply Hno; now right).
  assert (Harg : arg <> "--") by (intros ->; apply Hno; now left).
  destruct arg as [|c0 arg1].
  - cbn [drop_empty loop body]. apply IH; exact Htail.
  - cbn [drop_empty loop].
    rewrite (body_tail_eq (String c0 arg1) tail (drop_empty tail) ls Harg).
    destruct (body stdin (String c0 arg1) (drop_empty tail) ls);
      [apply IH; exact Htail|reflexivity].
Qed.

(** *** Flags and a value in one group *)

Lemma positive_effect_maps (c : ascii) (st : Store) :
  optByShort (positive_effect c st) = optByShort st.
Proof.
  unfold positive_effect. destruct (optByShort st !! c) as [h|]; [|reflexivity].
  destruct (heap st !! h) as [[f|o|v|k]|]; reflexivity.
Qed.

Lemma positive_effect_value (c : ascii) (st : Store) (h : nat) (o : Opt) :
  heap st !! h = Some o ->
  match o with POptArg _ | POptVec _ => True | _ => False end ->
  heap (positive_effect c st) !! h = Some o.
Proof.
  intros Hh Ho. unfold positive_effect.
  destruct (optByShort st !! c) as [h'|]; [|exact Hh].
  destruct (heap st !! h') as [[f|a|v|k]|] eqn:Hh'; try exact Hh.
  - rewrite heap_store_at_ne; [exact Hh|]. intros ->. rewrite Hh in Hh'.
    injection Hh' as ->. exact Ho.
  - rewrite heap_store_at_ne; [exact Hh|]. intros ->. rewrite Hh in Hh'.
    injection Hh' as ->. exact Ho.
Qed.

Lemma apply_all_positive_keeps (cs : string) (st : Store) (x : ascii) (h : nat)
    (o : Opt) :
  optByShort st !! x = Some h -> heap st !! h = Some o ->
  match o with POptArg _ | POptVec _ => True | _ => False end ->
  optByShort (apply_all positive_effect cs st) !! x = Some h /\
  heap (apply_all positive_effect cs st) !! h = Some o.
Proof.
  revert st. induction cs as [|c r IH]; intros st Hs Hh Ho; [now split|].
  cbn [apply_all]. apply IH; [|apply positive_effect_value; assumption|exact Ho].
  now rewrite positive_effect_maps.
Qed.

Lemma short_group_step (c : ascii) (r : string) (ls : Locals) :
  is_flag_or_count (store ls) c = true ->
  short_group (String c r) ls =
    short_group r (with_store (positive_effect c (store ls)) ls).
Proof.
  intros Hc. cbn [short_group]. unfold positive_effect.
  unfold is_flag_or_count in Hc.
  destruct (optByShort (store ls) !! c) as [h|]; [|discriminate].
  destruct (heap (store ls) !! h) as [[f|o|v|k]|]; try discriminate; reflexivity.
Qed.

Lemma is_flag_or_count_positive_effect (c c' : ascii) (st : Store) :
  is_flag_or_count (positive_effect c st) c' = is_flag_or_count st c'.
Proof.
  unfold positive_effect. destruct (optByShort st !! c) as [h|]; [|reflexivity].
  destruct (heap st !! h) as [[f|o|v|k]|] eqn:Hh; try reflexivity.
  - eapply is_flag_or_count_store_at; [exact Hh|exact I|exact I].
  - eapply is_flag_or_count_store_at; [exact Hh|exact I|exact I].
Qed.

Lemma short_group_app (pre cs : string) (ls : Locals) :
  all_chars (is_flag_or_count (store ls)) pre = true ->
  short_group (pre +:+ cs) ls =
    short_group cs (with_store (apply_all positive_effect pre (store ls)) ls).
Proof.
  revert ls. induction pre as [|c rest IH]; intros ls Hall.
  - change ("" +:+ cs) with cs. cbn [apply_all]. now rewrite with_store_id.
  - cbn [all_chars] in Hall. apply andb_true_iff in Hall as [Hc Hall].
    change (String c rest +:+ cs) with (String c (rest +:+ cs)).
    rewrite short_group_step by exact Hc.
    rewrite IH.
    + reflexivity.
    + cbn [store with_store]. erewrite all_chars_ext; [exact Hall|].
      intros c'. apply is_flag_or_count_positive_effect.
Qed.

(** X19. A group may carry flags and then a value: when the characters
    before [x] all name Flags or Counters (the first of them, or [x] itself
    when there is none, not being ['-']), [x] names a SingleArg and [V] is
    a non-empty text, the token [-], the flags, [x], [V] ends in success with
    every flag in effect and [V] as the value; the characters of [V] are not
    looked up. *)
Theorem group_with_attached_value (pre : string) (x : ascii) (V : string)
    (st : Store) (h : nat) (o : OptArg) :
  optByShort st !! x = Some h ->
  heap st !! h = Some (POptArg o) ->
  all_chars (is_flag_or_count st) pre = true ->
  starts_with_dash (pre +:+ String x V) = false ->
  V <> EmptyString ->
  ParseArgv stdin [String "-" (pre +:+ String x V)] st =
    (Success,
     store_at h (POptArg (set_Opt V o)) (apply_all positive_effect pre st)).
Proof.
  intros Hs Hh Hall Hdash HV.
  destruct V as [|v0 V']; [congruence|].
  destruct (apply_all_positive_keeps pre st x h (POptArg o) Hs Hh I) as [Hs' Hh'].
  assert (Hgroup : short_group (pre +:+ String x (String v0 V')) (initial_Locals st) =
            Continue (with_store
              (store_at h (POptArg (set_Opt (String v0 V') o))
                 (apply_all positive_effect pre st)) (initial_Locals st))).
  { rewrite short_group_app by exact Hall.
    cbn [short_group store with_store initial_Locals]. rewrite Hs', Hh'. reflexivity. }
  unfold ParseArgv. cbn [loop].
  destruct (pre +:+ String x (String v0 V')) as [|c1 [|c2 r]] eqn:Hcs.
  - destruct pre; discriminate.
  - destruct pre as [|p0 [|p1 pre']]; discriminate.
  - cbn [starts_with_dash] in Hdash. apply Ascii.eqb_neq in Hdash.
    rewrite body_short_group by (assumption || reflexivity).
    rewrite Hgroup. reflexivity.
Qed.

(** *** The default case of the type switches *)

Lemma built_handles_valid (st : Store) : built st -> handles_valid st.
Proof.
  induction 1 as [| | | | |h o o' st Hb IH Hh Hsame|r st Hb IH].
  - exact handles_valid_empty.
  - apply handles_valid_register; assumption.
  - apply handles_valid_register; assumption.
  - apply handles_valid_register; assumption.
  - apply handles_valid_register; assumption.
  - eapply handles_valid_same; [|exact IH].
    apply (only_values_store_at st h o o' Hh Hsame).
  - exact IH.
Qed.

Lemma bare_switch_typed (h : nat) (ls : Locals) :
  is_Some (heap (store ls) !! h) -> step_typed (bare_switch h ls).
Proof.
  intros [o Ho]. unfold bare_switch. rewrite Ho. destruct o; exact I.
Qed.

Lemma negate_switch_typed (h : nat) (ls : Locals) :
  is_Some (heap (store ls) !! h) -> step_typed (negate_switch h ls).
Proof.
  intros [o Ho]. unfold negate_switch. rewrite Ho. destruct o; exact I.
Qed.

Lemma assign_switch_typed (h : nat) (name opt : string) (ls : Locals) :
  is_Some (heap (store ls) !! h) -> step_typed (assign_switch h name opt ls).
Proof.
  intros [o Ho]. unfold assign_switch. rewrite Ho.
  destruct o as [f|a|v|k]; try exact I.
  - destruct (optargToBool opt); [exact I | discriminate].
  - destruct (ParseInt opt 0 32) as [n [e|]]; [discriminate | exact I].
Qed.

Lemma short_group_typed (cs : string) (ls : Locals) :
  handles_valid (store ls) -> step_typed (short_group cs ls).
Proof.
  revert ls. induction cs as [|c rest IH]; intros ls Hv; [exact I|].
  cbn [short_group].
  destruct (optByShort (store ls) !! c) as [h|] eqn:Hc; [|discriminate].
  pose proof (proj1 Hv c h Hc) as [o Ho]. rewrite Ho.
  destruct o as [f|a|v|k].
  - apply IH. cbn [store with_store]. eapply handles_valid_same; [|exact Hv].
    eapply only_values_store_at; [exact Ho | repeat split].
  - destruct rest; [apply IH; exact Hv | exact I].
  - destruct rest; [apply IH; exact Hv | exact I].
  - apply IH. cbn [store with_store]. eapply handles_valid_same; [|exact Hv].
    eapply only_values_store_at; [exact Ho | repeat split].
Qed.

Lemma negated_group_typed (cs : string) (ls : Locals) :
  handles_valid (store ls) -> step_typed (negated_group cs ls).
Proof.
  revert ls. induction cs as [|c rest IH]; intros ls Hv; [exact I|].
  cbn [negated_group].
  destruct (optByShort (store ls) !! c) as [h|] eqn:Hc; [|discriminate].
  pose proof (proj1 Hv c h Hc) as [o Ho].
  pose proof (negate_switch_only h ls) as Hon.
  unfold negate_switch in *. rewrite Ho in *.
  destruct o as [f|a|v|k]; cbn [step_rel] in Hon;
    (apply IH; eapply handles_valid_same; [apply Hon | exact Hv]).
Qed.

Lemma body_typed (arg : string) (tail : list string) (ls : Locals) :
  handles_valid (store ls) -> step_typed (body stdin arg tail ls).
Proof.
  intros Hv. unfold body.
  destruct arg as [|c0 arg1]; [exact I|]. cbv zeta.
  destruct (expecting_opt ls).
  { destruct (expecting_optarg ls).
    - destruct (waiting_opt ls) as [h|]; [|discriminate].
      destruct (heap (store ls) !! h) as [[f|o|v|k]|]; try discriminate; exact I.
    - destruct (waiting_vec ls) as [h|]; [|discriminate].
      destruct (heap (store ls) !! h) as [[f|o|v|k]|]; try discriminate; exact I. }
  destruct arg1 as [|c1 arg2].
  - destruct (Ascii.eqb c0 "-"); [|exact I].
    destruct (stdin (store ls)) as [[e|] st']; [discriminate | exact I].
  - destruct arg2 as [|c2 arg3].
    + destruct (Ascii.eqb c0 "-").
      * destruct (Ascii.eqb c1 "-"); [discriminate|].
        destruct (optByShort (store ls) !! c1) as [h|] eqn:Hc; [|exact I].
        apply bare_switch_typed. eapply (proj1 Hv); eassumption.
      * destruct (Ascii.eqb c0 "+"); [|exact I].
        destruct (optByShort (store ls) !! c1) as [h|] eqn:Hc; [|exact I].
        apply negate_switch_typed. eapply (proj1 Hv); eassumption.
    + destruct (Ascii.eqb c0 "-").
      * destruct (Ascii.eqb c1 "-"); [|apply short_group_typed; exact Hv].
        destruct (IndexByte _ _).
        -- destruct (optByLong (store ls) !! _) as [h|] eqn:Hc; [|exact I].
           apply assign_switch_typed. eapply (proj2 Hv); eassumption.
        -- destruct (optByLong (store ls) !! _) as [h|] eqn:Hc; [|discriminate].
           apply bare_switch_typed. eapply (proj2 Hv); eassumption.
      * destruct (Ascii.eqb c0 "+"); [|exact I].
        apply negated_group_typed; exact Hv.
Qed.

Lemma finish_typed (ls : Locals) : fst (finish ls) <> Panic "Invalid flag type".
Proof.
  unfold finish. destruct (expecting_opt ls); [|discriminate].
  destruct (expecting_optarg ls).
  - destruct (waiting_opt ls) as [h|]; [|discriminate].
    destruct (heap (store ls) !! h) as [[f|o|v|k]|]; discriminate.
  - destruct (waiting_vec ls) as [h|]; [|discriminate].
    destruct (heap (store ls) !! h) as [[f|o|v|k]|]; discriminate.
Qed.

Lemma loop_typed (argv : list string) (ls : Locals) :
  quiet stdin -> handles_valid (store ls) ->
  fst (loop stdin argv ls) <> Panic "Invalid flag type".
Proof.
  intros Hq. revert ls. induction argv as [|arg tail IH]; intros ls Hv.
  - apply finish_typed.
  - cbn [loop]. pose proof (body_typed arg tail ls Hv) as Ht.
    pose proof (body_effect arg tail ls Hq) as He.
    destruct (body stdin arg tail ls) as [ls'|r st']; [|exact Ht].
    cbn in He. apply IH. eapply handles_valid_same; [apply He | exact Hv].
Qed.

(** X3. In a registry built by the constructors (with any values written
    through their handles) every entry of both maps points at a descriptor;
    so, with a handler that leaves the package state alone, no call of
    [ParseArgv] on such a registry reaches the default case of a type
    switch ([panic("Invalid flag type")]), and the registry the call leaves
    is again free of dangling handles. *)
Theorem built_never_invalid_flag_type (st : Store) (argv : list string) :
  built st ->
  handles_valid st /\
  (quiet stdin ->
   fst (ParseArgv stdin argv st) <> Panic "Invalid flag type" /\
   handles_valid (snd (ParseArgv stdin argv st))).
Proof.
  intros Hb. pose proof (built_handles_valid st Hb) as Hv.
  split; [exact Hv|]. intros Hq. split.
  - apply loop_typed; assumption.
  - eapply handles_valid_same; [|exact Hv].
    apply (loop_same_registry argv (initial_Locals st) Hq).
Qed.

End Further.

(** ** The further properties at concrete registries *)

Lemma default_quiet : quiet default_StdinHandler.
Proof. intros st. reflexivity. Defined.

Lemma about_and_file_valid : handles_valid about_and_file.
Proof. do 2 apply handles_valid_register. exact handles_valid_empty. Qed.

(** X4 at work. *)
Lemma ParseArgv_same_registry_witness :
  same_registry about_and_file
    (snd (ParseArgv default_StdinHandler ["-a"; "x"; "--file"; "y"; "-zz"]
            about_and_file)).
Proof. apply ParseArgv_same_registry. exact default_quiet. Defined.

(** X5 at work. *)
Lemma ParseArgv_Rest_grows_witness :
  exists l,
    Rest (snd (ParseArgv default_StdinHandler ["-a"; "x"; "--file"; "y"; "z"]
                 (set_Rest ["w"] about_and_file))) = (["w"] ++ l)%list /\
    sublist l ["-a"; "x"; "--file"; "y"; "z"] /\
    ("--" ∉ ["-a"; "x"; "--file"; "y"; "z"] ->
     Forall (fun a => is_positional a = true) l).
Proof.
  apply (ParseArgv_Rest_grows default_StdinHandler
           ["-a"; "x"; "--file"; "y"; "z"] (set_Rest ["w"] about_and_file)
           default_quiet).
Defined.

(** X6 at work. *)
Lemma ParseArgv_positional_witness :
  ParseArgv default_StdinHandler ["hello"; "x"; "a-b"] about_and_file =
    (Success, set_Rest ["hello"; "x"; "a-b"] about_and_file).
Proof.
  apply (ParseArgv_positional default_StdinHandler ["hello"; "x"; "a-b"]
           about_and_file).
  repeat constructor.
Defined.

(** X7 at work: [-fa] ends on the flag [a], not on [f]. *)
Lemma ParseArgv_no_panic_witness :
  no_panic (fst (ParseArgv default_StdinHandler ["-a"; "-fa"; "--file"; "-f"]
                   about_and_file)).
Proof.
  apply ParseArgv_no_panic.
  - exact default_quiet.
  - exact about_and_file_valid.
  - repeat constructor.
Defined.

(** X8 at work on the flags of the tests. *)
Lemma group_as_singles_witness :
  ParseArgv default_StdinHandler ["-ab"] about_and_before =
    ParseArgv default_StdinHandler ["-a"; "-b"] about_and_before /\
  ParseArgv default_StdinHandler ["+ab"] about_and_before =
    ParseArgv default_StdinHandler ["+a"; "+b"] about_and_before.
Proof.
  assert (Hlen : (2 <= len "ab")%nat) by (vm_compute; lia).
  destruct (group_as_singles default_StdinHandler "ab" about_and_before Hlen)
    as [Hminus Hplus].
  split.
  - apply (Hminus eq_refl eq_refl).
  - apply (Hplus eq_refl).
Defined.

(** X9 at work: up three times, down once. *)
Lemma counter_ticks_witness :
  observe (ParseArgv default_StdinHandler ["-v"; "--verbose"; "+v"; "-v"]
             (with_count "v" "verbose")) =
    (Success, [POptCount (mkOptCount "verbose" "" "v" 2)], []).
Proof.
  assert (Hreg : registered (with_count "v" "verbose") "v" "verbose" 0
                   (POptCount (mkOptCount "verbose" "" "v" 0)))
    by (repeat split; reflexivity).
  assert (Hx : "v"%char <> "-"%char) by discriminate.
  assert (Hl : usable_long "verbose") by (split; [discriminate | reflexivity]).
  assert (Hr : min_int64 <= 0 <= max_int64) by (split; discriminate).
  change ["-v"; "--verbose"; "+v"; "-v"]
    with (map (tick_token "v" "verbose") [UpShort; UpLong; Down; UpShort]).
  rewrite (counter_ticks default_StdinHandler _ _ _ _ _ _ Hreg Hx Hl Hr).
  reflexivity.
Defined.

(** X10 at work: the four forms in a row. *)
Lemma vec_accumulates_witness :
  observe (ParseArgv default_StdinHandler
             ["--file=a"; "--file"; "b"; "-fc"; "-f"; "d"] (with_vec "f" "file")) =
    (Success, [POptVec (mkOptVec "file" "" "f" ["a"; "b"; "c"; "d"])], []).
Proof.
  assert (Hreg : registered (with_vec "f" "file") "f" "file" 0
                   (POptVec (mkOptVec "file" "" "f" [])))
    by (repeat split; reflexivity).
  assert (Hl : usable_long "file") by (split; [discriminate | reflexivity]).
  assert (Hall : Forall (fun gv => giving_fits "f" "file" (fst gv) (snd gv))
                   [(Given LongEq, "a"); (Given LongSep, "b");
                    (Given Attached, "c"); (ShortSep, "d")]).
  { repeat constructor; cbn; try discriminate; apply Hl. }
  destruct (vec_accumulates default_StdinHandler _ _ _ _ _ _ Hreg Hall) as [Hacc _].
  change ["--file=a"; "--file"; "b"; "-fc"; "-f"; "d"]
    with (givings_tokens "f" "file"
            [(Given LongEq, "a"); (Given LongSep, "b");
             (Given Attached, "c"); (ShortSep, "d")]).
  rewrite Hacc. reflexivity.
Defined.

(** X11 at work: the last of three values stays. *)
Lemma arg_last_wins_witness :
  observe (ParseArgv default_StdinHandler ["--file=a"; "-f"; "b"; "-fc"]
             (with_arg "f" "file")) =
    (Success, [POptArg (mkOptArg "file" "" "f" "c")], []).
Proof.
  assert (Hreg : registered (with_arg "f" "file") "f" "file" 0
                   (POptArg (mkOptArg "file" "" "f" "")))
    by (repeat split; reflexivity).
  assert (Hall : Forall (fun gv => giving_fits "f" "file" (fst gv) (snd gv))
                   [(Given LongEq, "a"); (ShortSep, "b"); (Given Attached, "c")]).
  { repeat constructor; cbn; discriminate. }
  change ["--file=a"; "-f"; "b"; "-fc"]
    with (givings_tokens "f" "file"
            [(Given LongEq, "a"); (ShortSep, "b"); (Given Attached, "c")]).
  rewrite (arg_last_wins default_StdinHandler _ _ _ _ _ _ "c" Hreg Hall eq_refl).
  reflexivity.
Defined.

(** X12 at work on a SingleArg with a value. *)
Lemma inline_empty_value_witness :
  observe (ParseArgv default_StdinHandler ["--file="]
             (preset 0 (POptArg (mkOptArg "file" "" "f" "old")) (with_arg "f" "file"))) =
    (Success, [POptArg (mkOptArg "file" "" "f" "")], []).
Proof.
  change "--file=" with ("--" +:+ "file" +:+ "=" +:+ "").
  rewrite (inline_empty_value default_StdinHandler
             (preset 0 (POptArg (mkOptArg "file" "" "f" "old")) (with_arg "f" "file"))
             "file" 0 eq_refl eq_refl).
  reflexivity.
Defined.

(** X13 at work: a misspelt name with a value. *)
Lemma unknown_assignment_ignored_witness :
  loop default_StdinHandler ["--fiel=x"; "y"] (initial_Locals (with_arg "f" "file")) =
    loop default_StdinHandler ["y"] (initial_Locals (with_arg "f" "file")).
Proof.
  change "--fiel=x" with ("--" +:+ "fiel" +:+ "=" +:+ "x").
  apply (unknown_assignment_ignored default_StdinHandler "fiel" "x" ["y"]
           (initial_Locals (with_arg "f" "file")) eq_refl eq_refl eq_refl).
Defined.

(** X15 at work: the arguments after a misspelt boolean do not matter. *)
Lemma error_hides_later_arguments_witness :
  ParseArgv default_StdinHandler (["--force=Fase"] ++ ["-f"; "x"])
    (with_flag "f" "force") =
    (Failure BooleanParseError, with_flag "f" "force").
Proof.
  apply error_hides_later_arguments; [reflexivity | discriminate].
Defined.

(** X16 at work. *)
Lemma optargToBool_case_witness :
  optargToBool "TrUe" = optargToBool "true" /\ optargToBool "" = None.
Proof. apply optargToBool_case; reflexivity. Defined.

(** X18 at work. *)
Lemma empty_arguments_invisible_witness :
  ParseArgv default_StdinHandler [""; "--file"; ""; "x"; ""] (with_arg "f" "file") =
    ParseArgv default_StdinHandler ["--file"; "x"] (with_arg "f" "file").
Proof.
  apply (empty_arguments_invisible default_StdinHandler
           [""; "--file"; ""; "x"; ""] (with_arg "f" "file")).
  intros Hin.
  repeat (apply elem_of_cons in Hin as [Hin|Hin]; [discriminate Hin|]).
  inversion Hin.
Defined.

(** X19 at work: [-afhello.txt] sets [a] and gives [hello.txt] to [file]. *)
Lemma group_with_attached_value_witness :
  observe (ParseArgv default_StdinHandler ["-afhello.txt"] about_and_file) =
    (Success,
     [PFlag (mkFlag "about" "topic" "a" true);
      POptArg (mkOptArg "file" "file to read" "f" "hello.txt")],
     []).
Proof.
  change "-afhello.txt" with (String "-" ("a" +:+ String "f" "hello.txt")).
  rewrite (group_with_attached_value default_StdinHandler "a" "f" "hello.txt"
             about_and_file 1 (mkOptArg "file" "file to read" "f" "")
             eq_refl eq_refl eq_refl eq_refl ltac:(discriminate)).
  reflexivity.
Defined.

(** X3 at work: the registry of the tests, with a value set by the caller. *)
Lemma built_never_invalid_flag_type_witness :
  fst (ParseArgv default_StdinHandler ["-af"; "x"]
         (preset 0 (PFlag (mkFlag "about" "topic" "a" true)) about_and_file))
    <> Panic "Invalid flag type".
Proof.
  apply (built_never_invalid_flag_type default_StdinHandler); [|exact default_quiet].
  apply (built_write 0 (PFlag (mkFlag "about" "topic" "a" false))).
  - apply built_NewOptArg, built_NewFlag, built_empty.
  - reflexivity.
  - repeat split.
Defined.
